(** * jmdict-SQLlite: the dictionary search service

    A shallow embedding of [src/index2.js] (the ranked search handler) and of
    the earlier, unranked revision of the same handler, with the SQL text of
    every prepared statement given a functional meaning over an in-memory
    image of the dictionary database. *)

From Stdlib Require Import ZArith List Bool String Lia Permutation Sorted.
Import ListNotations.
Open Scope Z_scope.
Set Warnings "-register-all".

(** ** Text

    A string is the list of its Unicode code points.  The query arrives as a
    JavaScript string (UTF-16) and is bound to the statements as SQLite TEXT
    (UTF-8); both are encodings of the same code-point sequence.  The regular
    expressions of [detectQueryType] carry no [u] flag and therefore look at
    UTF-16 code units, which [utf16] spells out.  Text is taken NUL-free. *)

Definition text := list Z.

(** The code points of an ASCII literal. *)
Fixpoint codes (s : string) : text :=
  match s with
  | EmptyString => []
  | String a s' => Z.of_N (Ascii.N_of_ascii a) :: codes s'
  end.

Definition code_units (c : Z) : list Z :=
  if c <? 0x10000 then [c]
  else [0xD800 + Z.shiftr (c - 0x10000) 10; 0xDC00 + Z.land (c - 0x10000) 0x3FF].

Definition utf16 (s : text) : list Z := flat_map code_units s.

(** ** The query classifier *)

Inductive QueryType := kanji | kana | english | all.

Definition between (lo hi u : Z) : bool := (lo <=? u) && (u <=? hi).

(** [[一-龯]]: the source spells the class with two literal characters, 一
    (U+4E00) and 龯 (U+9FAF); a copy of the file that went through
    Windows-1252 shows their UTF-8 bytes as ä¸€ and é¾¯. *)
Definition kanji_class (u : Z) : bool := between 0x4E00 0x9FAF u.

(** [[぀-ヿー]]: the prolonged sound mark is U+30FC. *)
Definition kana_class (u : Z) : bool := between 0x3040 0x30FF u || (u =? 0x30FC).

(** [\s] of an ECMAScript regular expression: white space and line
    terminators. *)
Definition regexp_space (u : Z) : bool :=
  between 9 13 u || (u =? 32) || (u =? 0xA0) || (u =? 0x1680)
  || between 0x2000 0x200A u || (u =? 0x2028) || (u =? 0x2029)
  || (u =? 0x202F) || (u =? 0x205F) || (u =? 0x3000) || (u =? 0xFEFF).

(** [[a-zA-Z\s]] *)
Definition english_class (u : Z) : bool :=
  between 97 122 u || between 65 90 u || regexp_space u.

(** [/[C]/.test(s)]: some code unit is in the class. *)
Definition test_some (cls : Z -> bool) (s : text) : bool := existsb cls (utf16 s).

(** [/^[C]+$/.test(s)]: one or more code units, all of them in the class. *)
Definition test_only (cls : Z -> bool) (s : text) : bool :=
  match utf16 s with
  | [] => false
  | us => forallb cls us
  end.

Definition detectQueryType (query : text) : QueryType :=
  if test_some kanji_class query then kanji
  else if test_only kana_class query then kana
  else if test_only english_class query then english
  else all.

(** ** Values handed to and returned by the database driver *)

Inductive JValue :=
| JNull
| JNum (n : Z)
| JStr (s : text)
| JArr (items : list JValue)
| JObj (fields : list (string * JValue)).

(** A result row is an object: its keys in column order. *)
Definition Obj := list (string * JValue).

Definition get (key : string) (o : Obj) : option JValue :=
  match find (fun kv => String.eqb (fst kv) key) o with
  | Some kv => Some (snd kv)
  | None => None
  end.

Definition keys (o : Obj) : list string := map fst o.

Inductive result (A : Type) :=
| Ok (a : A)
| Throw (message : text).
Arguments Ok {A} a.
Arguments Throw {A} message.

(** ** The dictionary database

    [entries(id)], and one table per field, [kanji(entry_id, kanji)],
    [readings(entry_id, reading)], [meanings(entry_id, meaning)], each with
    its rowid and each shadowed by a full-text index ([kanji_fts], ...).
    The schema and the index are built elsewhere; what a [MATCH] answers,
    when a statement fails and which row SQLite reads a bare column from are
    fields of the store. *)

Inductive Table := kanji_table | readings_table | meanings_table.

Record Row := { rowid : Z; entry_id : Z; value : text }.

Inductive Pass := Primary | Fallback.

(** A row of [entries e LEFT JOIN kanji k LEFT JOIN readings r LEFT JOIN
    meanings m]; [None] is NULL. *)
Record Joined := {
  e_id : Z;
  k_kanji : option text;
  r_reading : option text;
  m_meaning : option text }.

Record Store := {
  entries : list Z;
  rows : Table -> list Row;
  (** [SELECT rowid FROM t_fts WHERE t_fts MATCH ?] *)
  fts_match : Table -> text -> result (list Z);
  (** a statement of this pass fails for a reason of the store's own *)
  failure : Pass -> option text;
  (** the row of a group from which a bare column is read *)
  bare_row : list Joined -> Joined }.

(** ** SQL scalar operators *)

Definition text_eqb (a b : text) : bool :=
  if list_eq_dec Z.eq_dec a b then true else false.

(** Binary collation: code-point order, a proper prefix first. *)
Fixpoint text_leb (a b : text) : bool :=
  match a, b with
  | [], _ => true
  | _ :: _, [] => false
  | x :: a', y :: b' => (x <? y) || ((x =? y) && text_leb a' b')
  end.

(** LIKE folds the case of ASCII letters only. *)
Definition lower (c : Z) : Z := if between 65 90 c then c + 32 else c.

(** One pattern character other than [%] against one character: [_] is 95. *)
Definition like_char (p c : Z) : bool := (p =? 95) || (lower p =? lower c).

(** [s LIKE pat], no ESCAPE: [%] (37) stands for any run of characters. *)
Fixpoint like (pat s : text) {struct pat} : bool :=
  match pat with
  | [] => match s with [] => true | _ :: _ => false end
  | p :: pat' =>
      if p =? 37 then
        (fix skip (s : text) : bool :=
           like pat' s || match s with [] => false | _ :: s' => skip s' end) s
      else
        match s with
        | [] => false
        | c :: s' => like_char p c && like pat' s'
        end
  end.

(** A comparison with NULL is NULL, which no WHEN or WHERE accepts. *)
Definition sql_eq (x : option text) (v : text) : bool :=
  match x with Some s => text_eqb s v | None => false end.

Definition sql_like (x : option text) (pat : text) : bool :=
  match x with Some s => like pat s | None => false end.

Definition LENGTH (x : option text) : option Z :=
  match x with Some s => Some (Z.of_nat (List.length s)) | None => None end.

(** ** SQL aggregates: NULLs are skipped, an empty input gives NULL *)

Definition non_null {A : Type} (l : list (option A)) : list A :=
  flat_map (fun o => match o with Some v => [v] | None => [] end) l.

Definition MIN_int (l : list Z) : option Z :=
  match l with
  | [] => None
  | x :: l' => Some (fold_left Z.min l' x)
  end.

Definition text_min (a b : text) : text := if text_leb a b then a else b.

Definition MIN_text (l : list (option text)) : option text :=
  match non_null l with
  | [] => None
  | x :: l' => Some (fold_left text_min l' x)
  end.

Fixpoint join (sep : text) (l : list text) : text :=
  match l with
  | [] => []
  | x :: l' => match l' with [] => x | _ :: _ => x ++ sep ++ join sep l' end
  end.

Definition distinct (l : list text) : list text := nodup (list_eq_dec Z.eq_dec) l.

(** [GROUP_CONCAT(DISTINCT x)]: the separator is a comma. *)
Definition GROUP_CONCAT_DISTINCT (l : list (option text)) : option text :=
  match distinct (non_null l) with
  | [] => None
  | vs => Some (join [44] vs)
  end.

(** ** ORDER BY and LIMIT *)

Section Sorting.
Context {A : Type} (leb : A -> A -> bool).

Fixpoint insert_sorted (x : A) (l : list A) : list A :=
  match l with
  | [] => [x]
  | y :: l' => if leb x y then x :: l else y :: insert_sorted x l'
  end.

(** Rows with equal keys keep the order in which they were produced. *)
Fixpoint sort (l : list A) : list A :=
  match l with
  | [] => []
  | x :: l' => insert_sorted x (sort l')
  end.
End Sorting.

(** Ascending order of a sort term: NULL before every number. *)
Definition term_leb (a b : option Z) : bool :=
  match a, b with
  | None, _ => true
  | Some _, None => false
  | Some x, Some y => x <=? y
  end.

Definition term_eqb (a b : option Z) : bool :=
  match a, b with
  | None, None => true
  | Some x, Some y => x =? y
  | _, _ => false
  end.

Definition SortKey := (option Z * option Z)%type.

Definition key_leb (a b : SortKey) : bool :=
  if term_eqb (fst a) (fst b) then term_leb (snd a) (snd b)
  else term_leb (fst a) (fst b).

Definition LIMIT {A : Type} (n : nat) (l : list A) : list A := firstn n l.

(** ** FROM entries e LEFT JOIN ... WHERE e.id IN (...) GROUP BY e.id *)

(** The [t] side of [LEFT JOIN t ON e.id = t.entry_id]: an entry without a
    row in [t] is kept, with NULL in the column. *)
Definition left_join (db : Store) (t : Table) (e : Z) : list (option text) :=
  match filter (fun r => entry_id r =? e) (rows db t) with
  | [] => [None]
  | rs => map (fun r => Some (value r)) rs
  end.

Definition joined (db : Store) (e : Z) : list Joined :=
  flat_map (fun k =>
    flat_map (fun r =>
      map (fun m => {| e_id := e; k_kanji := k; r_reading := r; m_meaning := m |})
          (left_join db meanings_table e))
      (left_join db readings_table e))
    (left_join db kanji_table e).

Definition mem (x : Z) (l : list Z) : bool := existsb (Z.eqb x) l.

(** [SELECT entry_id FROM t WHERE <column> LIKE ?] *)
Definition entry_ids_like (db : Store) (t : Table) (pat : text) : list Z :=
  map entry_id (filter (fun r => like pat (value r)) (rows db t)).

(** [SELECT entry_id FROM t WHERE rowid IN (SELECT rowid FROM t_fts WHERE
    t_fts MATCH ?)] *)
Definition entry_ids_match (db : Store) (t : Table) (pat : text) : result (list Z) :=
  match fts_match db t pat with
  | Ok rowids => Ok (map entry_id (filter (fun r => mem (rowid r) rowids) (rows db t)))
  | Throw e => Throw e
  end.

(** The entries that pass [WHERE e.id IN ids], each once, in ascending id. *)
Definition selected_ids (db : Store) (ids : list Z) : list Z :=
  sort Z.leb (nodup Z.eq_dec (filter (fun e => mem e ids) (entries db))).

(** One group per selected entry, with its joined rows. *)
Definition group_by_id (db : Store) (ids : list Z) : list (Z * list Joined) :=
  map (fun e => (e, joined db e)) (selected_ids db ids).

(** The table a one-field category searches; [all] searches the three. *)
Definition searched (c : QueryType) : option Table :=
  match c with
  | kanji => Some kanji_table
  | kana => Some readings_table
  | english => Some meanings_table
  | all => None
  end.

Definition column (t : Table) (j : Joined) : option text :=
  match t with
  | kanji_table => k_kanji j
  | readings_table => r_reading j
  | meanings_table => m_meaning j
  end.

Definition nullable (x : option text) : JValue :=
  match x with Some s => JStr s | None => JNull end.

Definition nullable_int (x : option Z) : JValue :=
  match x with Some n => JNum n | None => JNull end.

(** [SELECT e.id, GROUP_CONCAT(DISTINCT k.kanji) AS kanji,
    GROUP_CONCAT(DISTINCT r.reading) AS readings,
    GROUP_CONCAT(DISTINCT m.meaning) AS meanings] *)
Definition entry_columns (g : Z * list Joined) : Obj :=
  [ ("id"%string, JNum (fst g));
    ("kanji"%string, nullable (GROUP_CONCAT_DISTINCT (map k_kanji (snd g))));
    ("readings"%string, nullable (GROUP_CONCAT_DISTINCT (map r_reading (snd g))));
    ("meanings"%string, nullable (GROUP_CONCAT_DISTINCT (map m_meaning (snd g)))) ].

(** [CASE WHEN col = ? THEN 1 WHEN col LIKE ? THEN 2 ELSE 3 END] *)
Definition match_case (t : Table) (p_eq p_like : text) (j : Joined) : Z :=
  if sql_eq (column t j) p_eq then 1
  else if sql_like (column t j) p_like then 2
  else 3.

(** [CASE WHEN k.kanji = ? OR r.reading = ? OR m.meaning = ? THEN 1
         WHEN k.kanji LIKE ? OR r.reading LIKE ? OR m.meaning LIKE ? THEN 2
         ELSE 3 END] *)
Definition match_case_all (e1 e2 e3 l1 l2 l3 : text) (j : Joined) : Z :=
  if sql_eq (k_kanji j) e1 || sql_eq (r_reading j) e2 || sql_eq (m_meaning j) e3 then 1
  else if sql_like (k_kanji j) l1 || sql_like (r_reading j) l2 || sql_like (m_meaning j) l3 then 2
  else 3.

(** [CASE WHEN k.kanji LIKE ? THEN LENGTH(MIN(k.kanji))
         WHEN r.reading LIKE ? THEN LENGTH(MIN(r.reading))
         ELSE LENGTH(MIN(m.meaning)) END]: the columns outside the
    aggregates are read from the group's bare row. *)
Definition order_case_all (db : Store) (o1 o2 : text) (g : list Joined) : option Z :=
  if sql_like (k_kanji (bare_row db g)) o1 then LENGTH (MIN_text (map k_kanji g))
  else if sql_like (r_reading (bare_row db g)) o2 then LENGTH (MIN_text (map r_reading g))
  else LENGTH (MIN_text (map m_meaning g)).

(** A row of a ranked statement together with its two ORDER BY terms. *)
Record Ranked := { sort_key : SortKey; row : Obj }.

Definition ranked_row (g : Z * list Joined) (match_type len : option Z) : Ranked :=
  {| sort_key := (match_type, len);
     row := entry_columns g ++ [("match_type"%string, nullable_int match_type)] |}.

Definition ORDER_BY (l : list Ranked) : list Ranked :=
  sort (fun a b => key_leb (sort_key a) (sort_key b)) l.

(** The one-field ranked statement, its WHERE already evaluated to [ids]:
    [MIN(CASE ...) AS match_type ... ORDER BY match_type, LENGTH(MIN(col))
    LIMIT 50]. *)
Definition select_ranked (db : Store) (t : Table) (p_eq p_like : text)
    (ids : list Z) : list Ranked :=
  LIMIT 50 (ORDER_BY (map (fun g =>
    ranked_row g (MIN_int (map (match_case t p_eq p_like) (snd g)))
                 (LENGTH (MIN_text (map (column t) (snd g)))))
    (group_by_id db ids))).

Definition select_ranked_all (db : Store) (e1 e2 e3 l1 l2 l3 o1 o2 : text)
    (ids : list Z) : list Ranked :=
  LIMIT 50 (ORDER_BY (map (fun g =>
    ranked_row g (MIN_int (map (match_case_all e1 e2 e3 l1 l2 l3) (snd g)))
                 (order_case_all db o1 o2 (snd g)))
    (group_by_id db ids))).

(** The statements of the earlier revision: no match_type, no ORDER BY. *)
Definition select_plain (db : Store) (ids : list Z) : list Obj :=
  LIMIT 50 (map entry_columns (group_by_id db ids)).

(** ** Request values and parameter binding

    [req.query.q] is absent, a string, or, for a repeated or bracketed [q],
    an array or an object of such values.  The handler uses it as a string
    (the regular expressions and the template literals apply ToString) and,
    in [src/index2.js], also hands it to the statement as it is. *)

Inductive QValue :=
| QStr (s : text)
| QArr (items : list QValue)
| QObj (fields : list (text * QValue)).

(** ToString: an array joins the strings of its items with commas. *)
Fixpoint to_string (v : QValue) : text :=
  match v with
  | QStr s => s
  | QArr items => join [44] (map to_string items)
  | QObj _ => codes "[object Object]"
  end.

(** [!query] *)
Definition falsy (q : option QValue) : bool :=
  match q with
  | None => true
  | Some (QStr []) => true
  | Some _ => false
  end.

(** The driver's messages. *)
Definition too_few : text := codes "Too few parameter values were provided".
Definition too_many : text := codes "Too many parameter values were provided".
Definition cannot_bind : text :=
  codes "SQLite3 can only bind numbers, strings, bigints, buffers, and null".
Definition two_objects : text :=
  codes "You cannot specify named parameters in two different objects".

(** One value bound at the next index of a statement with [n] question
    marks, [k] of them bound already: the driver looks at the type first,
    and SQLite refuses an index beyond [n]. *)
Definition bind_value (n k : nat) (v : QValue) : result text :=
  match v with
  | QStr s => if (k <? n)%nat then Ok s else Throw too_many
  | _ => Throw cannot_bind
  end.

(** The items of an array argument are bound one by one. *)
Fixpoint bind_array (n k : nat) (items : list QValue) : result (list text) :=
  match items with
  | [] => Ok []
  | v :: rest =>
      match bind_value n k v with
      | Throw e => Throw e
      | Ok s =>
          match bind_array n (S k) rest with
          | Ok l => Ok (s :: l)
          | Throw e => Throw e
          end
      end
  end.

(** The arguments of [stmt.all(...)], left to right: a string is one
    parameter, an array is spread, an object names parameters (the
    statements have none, so it binds nothing) and may come once only;
    [named] tells that an object has been seen. *)
Fixpoint bind_arguments (n k : nat) (named : bool) (args : list QValue)
    : result (list text) :=
  match args with
  | [] => Ok []
  | QArr items :: rest =>
      match bind_array n k items with
      | Throw e => Throw e
      | Ok l =>
          match bind_arguments n (k + List.length l) named rest with
          | Ok l' => Ok (l ++ l')
          | Throw e => Throw e
          end
      end
  | QObj _ :: rest =>
      if named then Throw two_objects else bind_arguments n k true rest
  | v :: rest =>
      match bind_value n k v with
      | Throw e => Throw e
      | Ok s =>
          match bind_arguments n (S k) named rest with
          | Ok l => Ok (s :: l)
          | Throw e => Throw e
          end
      end
  end.

(** Binding against a statement with [n] question marks; what is left
    unbound is reported at the end. *)
Definition bind_parameters (n : nat) (args : list QValue) : result (list text) :=
  match bind_arguments n 0 false args with
  | Throw e => Throw e
  | Ok params =>
      if (List.length params <? n)%nat then Throw too_few else Ok params
  end.

(** ** The prepared statements *)

Inductive Revision := index2 | part_000.

(** The SQL text prepared in the branch of category [c], pass [p]. *)
Inductive Sql := Select (v : Revision) (c : QueryType) (p : Pass).

Definition range_error : text := codes "Too few parameter values were provided".

(** The subquery of [WHERE e.id IN (...)], with its bound parameters. *)
Definition where_in (db : Store) (c : QueryType) (p : Pass) (w : list text)
    : result (list Z) :=
  match searched c, p, w with
  | Some t, Primary, [w1] => Ok (entry_ids_like db t w1)
  | Some t, Fallback, [w1] => entry_ids_match db t w1
  | None, Primary, [w1; w2; w3] =>
      Ok (entry_ids_like db kanji_table w1 ++ entry_ids_like db readings_table w2
          ++ entry_ids_like db meanings_table w3)
  | None, Fallback, [w1; w2; w3] =>
      match entry_ids_match db kanji_table w1 with
      | Throw e => Throw e
      | Ok a =>
          match entry_ids_match db readings_table w2 with
          | Throw e => Throw e
          | Ok b =>
              match entry_ids_match db meanings_table w3 with
              | Throw e => Throw e
              | Ok c' => Ok (a ++ b ++ c')
              end
          end
      end
  | _, _, _ => Throw range_error
  end.

(** The rows of a ranked statement, parameters bound in the order of the
    question marks: SELECT list, WHERE, ORDER BY. *)
Definition ranked_rows (db : Store) (c : QueryType) (p : Pass) (params : list text)
    : result (list Ranked) :=
  match searched c, params with
  | Some t, [p_eq; p_like; w1] =>
      match where_in db c p [w1] with
      | Ok ids => Ok (select_ranked db t p_eq p_like ids)
      | Throw e => Throw e
      end
  | None, [e1; e2; e3; l1; l2; l3; w1; w2; w3; o1; o2] =>
      match where_in db c p [w1; w2; w3] with
      | Ok ids => Ok (select_ranked_all db e1 e2 e3 l1 l2 l3 o1 o2 ids)
      | Throw e => Throw e
      end
  | _, _ => Throw range_error
  end.

Definition plain_rows (db : Store) (c : QueryType) (p : Pass) (params : list text)
    : result (list Obj) :=
  match where_in db c p params with
  | Ok ids => Ok (select_plain db ids)
  | Throw e => Throw e
  end.

(** The number of question marks of a statement. *)
Definition parameter_count (s : Sql) : nat :=
  match s with
  | Select index2 all _ => 11
  | Select index2 _ _ => 3
  | Select part_000 all _ => 3
  | Select part_000 _ _ => 1
  end.

(** The statement run on its bound parameters. *)
Definition run (db : Store) (s : Sql) (params : list text) : result (list Obj) :=
  match s with
  | Select index2 c p =>
      match ranked_rows db c p params with
      | Ok rs => Ok (map row rs)
      | Throw e => Throw e
      end
  | Select part_000 c p => plain_rows db c p params
  end.

(** [db.prepare(sql).all(...args)]: a failure of the store shows when the
    statement is prepared, before any argument is looked at. *)
Definition execute (db : Store) (s : Sql) (args : list QValue) : result (list Obj) :=
  match s with
  | Select v c p =>
      match failure db p with
      | Some e => Throw e
      | None =>
          match bind_parameters (parameter_count s) args with
          | Ok params => run db s params
          | Throw e => Throw e
          end
      end
  end.

(** ** The request handler

    A handler runs against a log of what it has done so far: every call of
    [detectQueryType] and every statement sent to the store is recorded, and
    an exception keeps the log.  What the handler writes to the console is
    left out. *)

Inductive Event :=
| Classified (query : text)
| Executed (s : Sql) (args : list QValue).

Definition M (A : Type) : Type := list Event -> result A * list Event.

Definition ret {A : Type} (a : A) : M A := fun log => (Ok a, log).

Definition bind {A B : Type} (m : M A) (k : A -> M B) : M B :=
  fun log =>
    match m log with
    | (Ok a, log') => k a log'
    | (Throw e, log') => (Throw e, log')
    end.

(** [try { m } catch (error) { h error.message }] *)
Definition try_catch {A : Type} (m : M A) (h : text -> M A) : M A :=
  fun log =>
    match m log with
    | (Ok a, log') => (Ok a, log')
    | (Throw e, log') => h e log'
    end.

Notation "x <- m ;; k" := (bind m (fun x => k))
  (at level 61, m at next level, right associativity).

(** [detectQueryType(query)]: [test] applies ToString to its argument. *)
Definition classify (query : QValue) : M QueryType :=
  fun log => (Ok (detectQueryType (to_string query)),
              log ++ [Classified (to_string query)]).

Definition all_rows (db : Store) (s : Sql) (args : list QValue) : M (list Obj) :=
  fun log => (execute db s args, log ++ [Executed s args]).

Record Response := { status : Z; body : JValue }.

(** [`%${query}%`] *)
Definition contains (query : text) : text := [37] ++ query ++ [37].

(** [`${query}*`] *)
Definition prefix (query : text) : text := query ++ [42].

(** The two template literals as arguments of a statement. *)
Definition percent (query : QValue) : QValue := QStr (contains (to_string query)).

Definition star (query : QValue) : QValue := QStr (prefix (to_string query)).

(** [const { match_type, ...rest } = result; return rest;] *)
Definition strip (result : Obj) : Obj :=
  filter (fun kv => negb (String.eqb (fst kv) "match_type")) result.

Definition missing_query : Response :=
  {| status := 400;
     body := JObj [("error"%string, JStr (codes "Missing query parameter: q"))] |}.

Definition search_error (message : text) : Response :=
  {| status := 500;
     body := JObj [("error"%string, JStr (codes "Database search error"));
                   ("details"%string, JStr message)] |}.

Definition json (results : list Obj) : Response :=
  {| status := 200; body := JArr (map JObj results) |}.

Module Index2.

(** [app.get('/search', ...)] of [src/index2.js]; [q] is [req.query.q],
    [None] when the parameter is absent. *)
Definition search (db : Store) (q : option QValue) : M Response :=
  match q with
  | None | Some (QStr []) => ret missing_query
  | Some query =>
      queryType <- classify query ;;
      try_catch
        (results <-
           match queryType with
           | kanji =>
               results <- all_rows db (Select index2 kanji Primary)
                            [query; percent query; percent query] ;;
               if (List.length results =? 0)%nat then
                 all_rows db (Select index2 kanji Fallback)
                   [query; percent query; star query]
               else ret results
           | kana =>
               results <- all_rows db (Select index2 kana Primary)
                            [query; percent query; percent query] ;;
               if (List.length results =? 0)%nat then
                 all_rows db (Select index2 kana Fallback)
                   [query; percent query; star query]
               else ret results
           | english =>
               results <- all_rows db (Select index2 english Primary)
                            [query; percent query; percent query] ;;
               if (List.length results =? 0)%nat then
                 all_rows db (Select index2 english Fallback)
                   [query; percent query; star query]
               else ret results
           | all =>
               results <- all_rows db (Select index2 all Primary)
                            [query; query; query;
                             percent query; percent query; percent query;
                             percent query; percent query; percent query;
                             percent query; percent query] ;;
               if (List.length results =? 0)%nat then
                 all_rows db (Select index2 all Fallback)
                   [query; query; query;
                    percent query; percent query; percent query;
                    star query; star query; star query;
                    percent query; percent query]
               else ret results
           end ;;
         ret (json (map strip results)))
        (fun message => ret (search_error message))
  end.

End Index2.

Module Part000.

(** The same route in the earlier revision ([src/unnamed/part_000]), which
    hands the statements template literals only. *)
Definition search (db : Store) (q : option QValue) : M Response :=
  match q with
  | None | Some (QStr []) => ret missing_query
  | Some query =>
      queryType <- classify query ;;
      try_catch
        (results <-
           match queryType with
           | kanji =>
               results <- all_rows db (Select part_000 kanji Primary) [percent query] ;;
               if (List.length results =? 0)%nat then
                 all_rows db (Select part_000 kanji Fallback) [star query]
               else ret results
           | kana =>
               results <- all_rows db (Select part_000 kana Primary) [percent query] ;;
               if (List.length results =? 0)%nat then
                 all_rows db (Select part_000 kana Fallback) [star query]
               else ret results
           | english =>
               results <- all_rows db (Select part_000 english Primary) [percent query] ;;
               if (List.length results =? 0)%nat then
                 all_rows db (Select part_000 english Fallback) [star query]
               else ret results
           | all =>
               results <- all_rows db (Select part_000 all Primary)
                            [percent query; percent query; percent query] ;;
               if (List.length results =? 0)%nat then
                 all_rows db (Select part_000 all Fallback)
                   [star query; star query; star query]
               else ret results
           end ;;
         ret (json results))
        (fun message => ret (search_error message))
  end.

End Part000.

(** The response to a request, and the log of the run. *)
Definition respond (handler : Store -> option QValue -> M Response)
    (db : Store) (q : option QValue) : result Response * list Event :=
  handler db q [].

(** ** Notions used to state the properties *)

(** The arguments each branch of the ranked handler hands to its statement. *)
Definition primary_args (c : QueryType) (query : QValue) : list QValue :=
  match c with
  | all => [query; query; query;
            percent query; percent query; percent query;
            percent query; percent query; percent query;
            percent query; percent query]
  | _ => [query; percent query; percent query]
  end.

Definition fallback_args (c : QueryType) (query : QValue) : list QValue :=
  match c with
  | all => [query; query; query;
            percent query; percent query; percent query;
            star query; star query; star query;
            percent query; percent query]
  | _ => [query; percent query; star query]
  end.

Definition pass_args (p : Pass) (c : QueryType) (query : QValue) : list QValue :=
  match p with
  | Primary => primary_args c query
  | Fallback => fallback_args c query
  end.

(** The same for a query that is a string. *)
Definition primary_params (c : QueryType) (query : text) : list QValue :=
  primary_args c (QStr query).

Definition fallback_params (c : QueryType) (query : text) : list QValue :=
  fallback_args c (QStr query).

Definition pass_params (p : Pass) (c : QueryType) (query : text) : list QValue :=
  pass_args p c (QStr query).

(** The parameters a string query is bound to. *)
Definition pass_texts (p : Pass) (c : QueryType) (query : text) : list text :=
  let w := match p with Primary => contains query | Fallback => prefix query end in
  match c with
  | all => [query; query; query;
            contains query; contains query; contains query;
            w; w; w;
            contains query; contains query]
  | _ => [query; contains query; w]
  end.

(** The pattern a pass hands to its WHERE subquery, once per searched table. *)
Definition where_pattern (p : Pass) (query : text) : text :=
  match p with Primary => contains query | Fallback => prefix query end.

Definition where_params (c : QueryType) (w : text) : list text :=
  match c with all => [w; w; w] | _ => [w] end.

(** The arguments each branch of the unranked handler hands over. *)
Definition where_args (c : QueryType) (w : text) : list QValue :=
  match c with all => [QStr w; QStr w; QStr w] | _ => [QStr w] end.

(** The ranked SELECT of category [c] as the handler binds it, its WHERE
    already evaluated to [ids]. *)
Definition ranked_select (db : Store) (c : QueryType) (query : text)
    (ids : list Z) : list Ranked :=
  match searched c with
  | Some t => select_ranked db t query (contains query) ids
  | None =>
      select_ranked_all db query query query
        (contains query) (contains query) (contains query)
        (contains query) (contains query) ids
  end.

(** The CASE of [match_type] as the handler binds it. *)
Definition rank_case (c : QueryType) (query : text) (j : Joined) : Z :=
  match searched c with
  | Some t => match_case t query (contains query) j
  | None =>
      match_case_all query query query
        (contains query) (contains query) (contains query) j
  end.

(** The second ORDER BY term as the handler binds it. *)
Definition order_term (db : Store) (c : QueryType) (query : text)
    (g : list Joined) : option Z :=
  match searched c with
  | Some t => LENGTH (MIN_text (map (column t) g))
  | None => order_case_all db (contains query) (contains query) g
  end.

(** The ranked row of entry [e]. *)
Definition ranked_group (db : Store) (c : QueryType) (query : text) (e : Z) : Ranked :=
  ranked_row (e, joined db e)
    (MIN_int (map (rank_case c query) (joined db e)))
    (order_term db c query (joined db e)).

(** [v] is the comma-joined list of [values], each taken once, or NULL when
    there is none. *)
Definition joined_once (values : list text) (v : JValue) : Prop :=
  exists vs, NoDup vs /\ (forall x, In x vs <-> In x values)
    /\ v = match vs with [] => JNull | _ :: _ => JStr (join [44] vs) end.

(** The tables a category searches. *)
Definition tables (c : QueryType) : list Table :=
  match searched c with
  | Some t => [t]
  | None => [kanji_table; readings_table; meanings_table]
  end.

(** The values an entry owns in a table. *)
Definition field_values (db : Store) (t : Table) (e : Z) : list text :=
  map value (filter (fun r => entry_id r =? e) (rows db t)).

(** The values an entry owns in the tables its category searches. *)
Definition owned_values (db : Store) (c : QueryType) (e : Z) : list text :=
  flat_map (fun t => field_values db t e) (tables c).

(** Rank 1: some value equals the query; rank 2: none does, but some value
    matches [%query%]; rank 3: neither. *)
Definition rank_of_values (query : text) (values : list text) : Z :=
  if existsb (fun v => text_eqb v query) values then 1
  else if existsb (like (contains query)) values then 2
  else 3.

Definition column_name (t : Table) : string :=
  match t with
  | kanji_table => "kanji"
  | readings_table => "readings"
  | meanings_table => "meanings"
  end.

Definition id_of (o : Obj) : option Z :=
  match get "id" o with Some (JNum e) => Some e | _ => None end.

Definition match_type_of (o : Obj) : option Z :=
  match get "match_type" o with Some (JNum n) => Some n | _ => None end.

(** The array of a response body. *)
Definition results_of (r : Response) : list JValue :=
  match body r with JArr items => items | _ => [] end.

(** The ids of the objects of an answer, in order. *)
Definition returned_ids (answer : result Response * list Event) : list Z :=
  match fst answer with
  | Ok resp =>
      flat_map (fun v =>
                  match v with
                  | JObj o => match id_of o with Some e => [e] | None => [] end
                  | _ => []
                  end)
               (results_of resp)
  | Throw _ => []
  end.

(** The entries the WHERE of the primary pass selects, before ORDER BY and
    LIMIT. *)
Definition primary_candidates (db : Store) (c : QueryType) (query : text) : list Z :=
  selected_ids db
    (flat_map (fun t => entry_ids_like db t (contains query)) (tables c)).

(** A value owned by [e] in [t] matches the LIKE pattern. *)
Definition owns_like (db : Store) (t : Table) (pat : text) (e : Z) : Prop :=
  exists r, In r (rows db t) /\ entry_id r = e /\ like pat (value r) = true.

(** Ascending order of two ORDER BY terms: first term, then second. *)
Definition key_le (a b : SortKey) : Prop := key_leb a b = true.

(** [q] occurs in [s] character for character. *)
Fixpoint starts_with (q s : text) : bool :=
  match q, s with
  | [], _ => true
  | _ :: _, [] => false
  | x :: q', y :: s' => (x =? y) && starts_with q' s'
  end.

Fixpoint substring (q s : text) : bool :=
  starts_with q s || match s with [] => false | _ :: s' => substring q s' end.

(** [q] occurs in [s] in the sense of LIKE: letter case of ASCII ignored,
    [_] in [q] standing for any one character. *)
Definition like_substring (q s : text) : Prop :=
  exists pre mid post, s = pre ++ mid ++ post
    /\ Forall2 (fun p c => like_char p c = true) q mid.

(** The length of the shortest value of [e] in [t] that matches the pattern. *)
Definition shortest_match_length (db : Store) (t : Table) (pat : text) (e : Z)
    : option Z :=
  MIN_int (map (fun v => Z.of_nat (List.length v))
               (filter (like pat) (field_values db t e))).

(** The Unicode block CJK Unified Ideographs, U+4E00..U+9FFF. *)
Definition cjk_unified_ideograph (c : Z) : bool := between 0x4E00 0x9FFF c.

(** Two responses agree up to the order of the result rows. *)
Definition same_up_to_order (r1 r2 : Response) : Prop :=
  status r1 = status r2 /\
  match body r1, body r2 with
  | JArr a, JArr b => Permutation a b
  | x, y => x = y
  end.

(** ** Sample stores *)

Module Sample.

Definition null_row : Joined :=
  {| e_id := 0; k_kanji := None; r_reading := None; m_meaning := None |}.

Definition last_row (g : list Joined) : Joined := last g null_row.

Definition no_hit (t : Table) (pat : text) : result (list Z) := Ok [].

Definition healthy (p : Pass) : option text := None.

Definition tbl (k r m : list Row) (t : Table) : list Row :=
  match t with
  | kanji_table => k
  | readings_table => r
  | meanings_table => m
  end.

Definition mk (i e : Z) (v : text) : Row := {| rowid := i; entry_id := e; value := v |}.

(** Entry 1: 食べ物 / たべもの / food.  Entry 2: 外食産業, 飲食 / eating out. *)
Definition eating : Store :=
  {| entries := [1; 2];
     rows := tbl [ mk 1 1 [0x98DF; 0x3079; 0x7269];
                   mk 2 2 [0x5916; 0x98DF; 0x7523; 0x696D];
                   mk 3 2 [0x98F2; 0x98DF] ]
                 [ mk 1 1 [0x305F; 0x3079; 0x3082; 0x306E] ]
                 [ mk 1 1 (codes "food"); mk 2 2 (codes "eating out") ];
     fts_match := no_hit;
     failure := healthy;
     bare_row := last_row |}.

(** 食 *)
Definition shoku : text := [0x98DF].

(** Entries 1 and 2 both have the kanji form 食; entry 2 also has 一番. *)
Definition two_owners : Store :=
  {| entries := [1; 2];
     rows := tbl [ mk 1 1 shoku; mk 2 2 shoku; mk 3 2 [0x4E00; 0x756A] ] [] [];
     fts_match := no_hit;
     failure := healthy;
     bare_row := last_row |}.

(** Entries 1 to 51; entry [n] has the kanji forms 食 and 一 repeated [n]
    times, so that its least form is [n] characters long. *)
Definition many_owners : Store :=
  {| entries := map Z.of_nat (seq 1 51);
     rows := tbl (flat_map (fun n =>
                    [ mk (Z.of_nat (2 * n - 1)) (Z.of_nat n) shoku;
                      mk (Z.of_nat (2 * n)) (Z.of_nat n) (repeat 0x4E00 n) ])
                    (seq 1 51))
                 [] [];
     fts_match := no_hit;
     failure := healthy;
     bare_row := last_row |}.

(** One meaning, "to eat"; the index answers the two-token query
    [eat to*] with its row, which no LIKE '%eat to%' finds. *)
Definition word_order : Store :=
  {| entries := [1];
     rows := tbl [] [] [ mk 1 1 (codes "to eat") ];
     fts_match := fun t pat =>
       match t with
       | meanings_table => if text_eqb pat (codes "eat to*") then Ok [1] else Ok []
       | _ => Ok []
       end;
     failure := healthy;
     bare_row := last_row |}.

(** Two meanings, "to eat" and "to drink"; the index answers [eat to*]
    with the row of the first only. *)
Definition two_words : Store :=
  {| entries := [1; 2];
     rows := tbl [] [] [ mk 1 1 (codes "to eat"); mk 2 2 (codes "to drink") ];
     fts_match := fun t pat =>
       match t with
       | meanings_table => if text_eqb pat (codes "eat to*") then Ok [1] else Ok []
       | _ => Ok []
       end;
     failure := healthy;
     bare_row := last_row |}.

(** An index that rejects every MATCH expression. *)
Definition broken_index : Store :=
  {| entries := [1];
     rows := tbl [] [] [ mk 1 1 (codes "to eat") ];
     fts_match := fun _ _ => Throw (codes "fts5: syntax error");
     failure := healthy;
     bare_row := last_row |}.

(** One meaning with a comma in it. *)
Definition proverb : Store :=
  {| entries := [1];
     rows := tbl [] [] [ mk 1 1 (codes "eat, drink and be merry") ];
     fts_match := no_hit;
     failure := healthy;
     bare_row := last_row |}.

(** A store whose file cannot be read. *)
Definition unreadable : Store :=
  {| entries := [1];
     rows := tbl [] [] [ mk 1 1 (codes "to eat") ];
     fts_match := no_hit;
     failure := fun _ => Some (codes "disk I/O error");
     bare_row := last_row |}.

End Sample.

(** ** The application around the handler

    [app.use] and [app.get] register layers that Express tries in order.
    Whether a route accepts a request (method and path) is Express's
    matching and is left as the parameter [route]; a request no layer
    answers is left to Express, [answer] staying [None].  Of the response
    headers, only those the code sets itself are kept. *)

Record Request := { method : string; path : string; q_param : option QValue }.

Record Reply := { headers : list (string * text); answer : option Response }.

Inductive Layer :=
| use (middleware : Request -> Reply -> (Reply -> M Reply) -> M Reply)
| get_route (pattern : string) (handler : Request -> Reply -> M Reply).

Fixpoint dispatch (route : string -> Request -> bool) (layers : list Layer)
    (req : Request) (res : Reply) {struct layers} : M Reply :=
  match layers with
  | [] => ret res
  | use middleware :: rest => middleware req res (dispatch route rest req)
  | get_route pattern handler :: rest =>
      if route pattern req then handler req res
      else dispatch route rest req res
  end.

(** [res.setHeader(name, value)] *)
Definition setHeader (name : string) (v : text) (res : Reply) : Reply :=
  {| headers := (name, v)
                :: filter (fun kv => negb (String.eqb (fst kv) name)) (headers res);
     answer := answer res |}.

Definition header (name : string) (res : Reply) : option text :=
  match find (fun kv => String.eqb (fst kv) name) (headers res) with
  | Some kv => Some (snd kv)
  | None => None
  end.

Definition send (r : Response) (res : Reply) : Reply :=
  {| headers := headers res; answer := Some r |}.

Definition PORT : Z := 3000.

(** The flag of Japan, two regional indicators, and the text after it. *)
Definition running : Response :=
  {| status := 200;
     body := JStr ([0x1F1EF; 0x1F1F5] ++ codes " Japanese Dictionary API is running!") |}.

(** The layers in the order the file registers them; [search] is the
    handler of the revision at hand. *)
Definition app (search : Store -> option QValue -> M Response) (db : Store)
    : list Layer :=
  [ use (fun req res next =>
           next (setHeader "Access-Control-Allow-Origin" (codes "*") res));
    get_route "/" (fun req res => ret (send running res));
    get_route "/search" (fun req res =>
      r <- search db (q_param req) ;; ret (send r res)) ].

(** A request served from a fresh response object and an empty log. *)
Definition serve (route : string -> Request -> bool)
    (search : Store -> option QValue -> M Response) (db : Store) (req : Request)
    : result Reply * list Event :=
  dispatch route (app search db) req {| headers := []; answer := None |} [].

(** ** Further notions *)

(** [q] occurs in [v] up to the case of ASCII letters. *)
Definition caseless_substring (q v : text) : Prop :=
  exists pre mid post, v = pre ++ mid ++ post /\ map lower mid = map lower q.

(** The store with another full-text index. *)
Definition with_index (db : Store) (fts : Table -> text -> result (list Z)) : Store :=
  {| entries := entries db;
     rows := rows db;
     fts_match := fts;
     failure := failure db;
     bare_row := bare_row db |}.

(** The index of [t] answers [pat] with the rowid of a row of entry [e]. *)
Definition owns_hit (db : Store) (t : Table) (pat : text) (e : Z) : Prop :=
  exists rowids r,
    fts_match db t pat = Ok rowids
    /\ In r (rows db t) /\ entry_id r = e /\ In (rowid r) rowids.

(** The statements in a log, in order. *)
Definition executed (log : list Event) : list (Sql * list QValue) :=
  flat_map (fun ev => match ev with
                      | Executed s args => [(s, args)]
                      | Classified _ => []
                      end) log.

(** * Properties *)

(** ** Sorting *)

Section SortingFacts.
Context {A : Type} (leb : A -> A -> bool).
Hypothesis leb_total : forall a b, leb a b = true \/ leb b a = true.
Hypothesis leb_trans : forall a b c, leb a b = true -> leb b c = true -> leb a c = true.

Let le (a b : A) : Prop := leb a b = true.

Lemma insert_sorted_perm (x : A) (l : list A) :
  Permutation (insert_sorted leb x l) (x :: l).
Proof.
  induction l as [|y l IH]; simpl.
  - apply Permutation_refl.
  - destruct (leb x y).
    + apply Permutation_refl.
    + eapply perm_trans; [apply perm_skip, IH | apply perm_swap].
Qed.

Lemma sort_perm (l : list A) : Permutation (sort leb l) l.
Proof.
  induction l as [|x l IH]; simpl.
  - constructor.
  - eapply perm_trans; [apply insert_sorted_perm | now apply perm_skip].
Qed.

Lemma insert_sorted_ok (x : A) (l : list A) :
  StronglySorted le l -> StronglySorted le (insert_sorted leb x l).
Proof.
  induction 1 as [|y l Hs IH Hall]; simpl.
  - repeat constructor.
  - destruct (leb x y) eqn:Hxy.
    + constructor; [now constructor|].
      constructor; [exact Hxy|].
      eapply Forall_impl; [|exact Hall].
      intros z Hz. now apply leb_trans with y.
    + constructor; [exact IH|].
      assert (Hyx : leb y x = true).
      { destruct (leb_total x y) as [H|H]; [congruence | exact H]. }
      eapply Permutation_Forall.
      * apply Permutation_sym, insert_sorted_perm.
      * now constructor.
Qed.

Lemma sort_ok (l : list A) : StronglySorted le (sort leb l).
Proof.
  induction l as [|x l IH]; simpl.
  - constructor.
  - now apply insert_sorted_ok.
Qed.
End SortingFacts.

Lemma In_firstn {A : Type} (n : nat) (l : list A) (x : A) :
  In x (firstn n l) -> In x l.
Proof.
  revert l. induction n as [|n IH]; intros [|y l]; simpl; try tauto.
  intros [H|H]; [now left | right; now apply IH].
Qed.

Lemma StronglySorted_firstn {A : Type} (R : A -> A -> Prop) (n : nat) (l : list A) :
  StronglySorted R l -> StronglySorted R (firstn n l).
Proof.
  intros H. revert n. induction H as [|x l Hs IH Hall]; intros [|n]; simpl;
    try constructor.
  - apply IH.
  - rewrite Forall_forall in *. intros y Hy. apply Hall.
    revert Hy. apply In_firstn.
Qed.

Lemma LIMIT_length {A : Type} (n : nat) (l : list A) : (List.length (LIMIT n l) <= n)%nat.
Proof. unfold LIMIT. apply firstn_le_length. Qed.

Lemma LIMIT_all {A : Type} (n : nat) (l : list A) :
  (List.length l <= n)%nat -> LIMIT n l = l.
Proof. unfold LIMIT. apply firstn_all2. Qed.

(** ** The classifier *)

Lemma utf16_bmp (q : text) (c : Z) : In c q -> c < 0x10000 -> In c (utf16 q).
Proof.
  intros Hin Hlt. unfold utf16. apply in_flat_map. exists c. split; [exact Hin|].
  unfold code_units. destruct (c <? 0x10000) eqn:E.
  - now left.
  - apply Z.ltb_ge in E. lia.
Qed.

Lemma between_spec (lo hi u : Z) : between lo hi u = true <-> lo <= u <= hi.
Proof. unfold between. rewrite andb_true_iff, !Z.leb_le. tauto. Qed.

(** ** Binding *)

Lemma bind_arguments_strings (n k : nat) (named : bool) (l : list text) :
  (k + List.length l <= n)%nat ->
  bind_arguments n k named (map QStr l) = Ok l.
Proof.
  revert k. induction l as [|x l IH]; intros k H; [reflexivity|].
  simpl in *. rewrite (proj2 (Nat.ltb_lt k n)) by lia.
  rewrite IH by lia. reflexivity.
Qed.

Lemma bind_arguments_strings_inv (n k : nat) (named : bool) (l ps : list text) :
  bind_arguments n k named (map QStr l) = Ok ps -> ps = l.
Proof.
  revert k ps. induction l as [|x l IH]; intros k ps H; simpl in H.
  - now inversion H.
  - destruct (k <? n)%nat; [|discriminate].
    destruct (bind_arguments n (S k) named (map QStr l)) as [l'|] eqn:E;
      [|discriminate].
    inversion H. f_equal. now apply (IH (S k)).
Qed.

Lemma bind_array_strings (n k : nat) (items : list QValue) (l : list text) :
  bind_array n k items = Ok l -> items = map QStr l.
Proof.
  revert k l. induction items as [|[x| |] items IH]; intros k l H; simpl in H;
    try discriminate.
  - inversion H. reflexivity.
  - destruct (k <? n)%nat; [|discriminate].
    destruct (bind_array n (S k) items) as [l'|] eqn:E; [|discriminate].
    inversion H. simpl. f_equal. now apply (IH (S k)).
Qed.

Lemma bind_array_bound (n k : nat) (items : list QValue) (l : list text) :
  (k <= n)%nat -> bind_array n k items = Ok l -> (k + List.length l <= n)%nat.
Proof.
  revert k l. induction items as [|[x| |] items IH]; intros k l Hk H; simpl in H;
    try discriminate.
  - inversion H. simpl. lia.
  - destruct (Nat.ltb_spec k n) as [Hlt|]; [|discriminate].
    destruct (bind_array n (S k) items) as [l'|] eqn:E; [|discriminate].
    inversion H. simpl. specialize (IH (S k) l' Hlt E). lia.
Qed.

Lemma bind_arguments_bound (n k : nat) (named : bool) (args : list QValue)
    (ps : list text) :
  (k <= n)%nat -> bind_arguments n k named args = Ok ps ->
  (k + List.length ps <= n)%nat.
Proof.
  revert k named ps.
  induction args as [|[x|items|fields] args IH]; intros k named ps Hk H;
    simpl in H.
  - inversion H. simpl. lia.
  - destruct (Nat.ltb_spec k n) as [Hlt|]; [|discriminate].
    destruct (bind_arguments n (S k) named args) as [l|] eqn:E; [|discriminate].
    inversion H. simpl. specialize (IH (S k) named l Hlt E). lia.
  - destruct (bind_array n k items) as [l|] eqn:Ea; [|discriminate].
    pose proof (bind_array_bound n k items l Hk Ea) as Hl.
    destruct (bind_arguments n (k + List.length l) named args) as [l'|] eqn:E;
      [|discriminate].
    inversion H. rewrite length_app. specialize (IH _ named l' Hl E). lia.
  - destruct named; [discriminate|]. now apply (IH k true).
Qed.

Lemma bind_parameters_length (n : nat) (args : list QValue) (ps : list text) :
  bind_parameters n args = Ok ps ->
  bind_arguments n 0 false args = Ok ps /\ List.length ps = n.
Proof.
  unfold bind_parameters.
  destruct (bind_arguments n 0 false args) as [l|] eqn:E; [|discriminate].
  destruct (Nat.ltb_spec (List.length l) n) as [|H1]; [discriminate|].
  intros H. inversion H; subst. split; [reflexivity|].
  pose proof (bind_arguments_bound n 0 false args ps (Nat.le_0_l n) E). lia.
Qed.

Lemma bind_parameters_strings (n : nat) (l : list text) :
  List.length l = n -> bind_parameters n (map QStr l) = Ok l.
Proof.
  intros H. unfold bind_parameters. rewrite bind_arguments_strings by (simpl; lia).
  rewrite (proj2 (Nat.ltb_ge (List.length l) n)) by lia.
  reflexivity.
Qed.

Lemma strings_injective (l1 l2 : list text) : map QStr l1 = map QStr l2 -> l1 = l2.
Proof.
  intros H. apply (f_equal (map to_string)) in H.
  rewrite !map_map in H. cbn [to_string] in H. now rewrite !map_id in H.
Qed.

(** A one-item list of strings is the only array whose items take the
    room of one parameter; its string is that of its item. *)
Lemma one_item (n k : nat) (items : list QValue) (l : list text) :
  bind_array n k items = Ok l -> List.length l = 1%nat ->
  l = [to_string (QArr items)].
Proof.
  intros H Hl. apply bind_array_strings in H. subst items.
  destruct l as [|x [|y l]]; try discriminate. reflexivity.
Qed.

(** The raw value in first place, strings after it: binding succeeds only
    with the value in the room of one parameter, as its string. *)
Lemma bind_value_once (v : QValue) (rest ps : list text) :
  bind_parameters (S (List.length rest)) (v :: map QStr rest) = Ok ps ->
  ps = to_string v :: rest.
Proof.
  intros H. apply bind_parameters_length in H as [H Hlen].
  destruct v as [x|items|fields]; cbn [bind_arguments bind_value Nat.ltb Nat.leb] in H.
  - destruct (bind_arguments _ _ _ (map QStr rest)) as [l|] eqn:E; [|discriminate].
    apply bind_arguments_strings_inv in E. inversion H. now subst.
  - destruct (bind_array _ _ items) as [l|] eqn:E; [|discriminate].
    destruct (bind_arguments _ _ _ (map QStr rest)) as [l'|] eqn:E'; [|discriminate].
    apply bind_arguments_strings_inv in E'. inversion H; subst ps l'.
    rewrite length_app in Hlen.
    rewrite (one_item _ _ items l E) by lia. reflexivity.
  - apply bind_arguments_strings_inv in H. subst ps. lia.
Qed.

Lemma bind_value_thrice (v : QValue) (rest ps : list text) :
  bind_parameters (3 + List.length rest) (v :: v :: v :: map QStr rest) = Ok ps ->
  ps = to_string v :: to_string v :: to_string v :: rest.
Proof.
  intros H. apply bind_parameters_length in H as [H Hlen].
  destruct v as [x|items|fields];
    cbn [bind_arguments bind_value Nat.ltb Nat.leb Nat.add] in H.
  - destruct (bind_arguments _ _ _ (map QStr rest)) as [l|] eqn:E; [|discriminate].
    apply bind_arguments_strings_inv in E. inversion H. now subst.
  - destruct (bind_array _ 0 items) as [l1|] eqn:E1; [|discriminate].
    destruct (bind_array _ _ items) as [l2|] eqn:E2 in H; [|discriminate].
    destruct (bind_array _ _ items) as [l3|] eqn:E3 in H; [|discriminate].
    destruct (bind_arguments _ _ _ (map QStr rest)) as [l'|] eqn:E'; [|discriminate].
    apply bind_arguments_strings_inv in E'. inversion H; subst ps l'.
    pose proof (bind_array_strings _ _ _ _ E1) as I1.
    pose proof (bind_array_strings _ _ _ _ E2) as I2.
    pose proof (bind_array_strings _ _ _ _ E3) as I3.
    assert (l2 = l1) by (apply strings_injective; congruence).
    assert (l3 = l1) by (apply strings_injective; congruence).
    subst l2 l3. rewrite !length_app in Hlen.
    rewrite (one_item _ _ items l1 E1) by lia. reflexivity.
  - discriminate H.
Qed.

(** ** The handler, one pass at a time *)

Lemma search_unfold_value (db : Store) (v : QValue) :
  falsy (Some v) = false ->
  respond Index2.search db (Some v) =
  let c := detectQueryType (to_string v) in
  let e1 := Executed (Select index2 c Primary) (primary_args c v) in
  let e2 := Executed (Select index2 c Fallback) (fallback_args c v) in
  match execute db (Select index2 c Primary) (primary_args c v) with
  | Throw m => (Ok (search_error m), [Classified (to_string v); e1])
  | Ok [] =>
      match execute db (Select index2 c Fallback) (fallback_args c v) with
      | Throw m => (Ok (search_error m), [Classified (to_string v); e1; e2])
      | Ok rs => (Ok (json (map strip rs)), [Classified (to_string v); e1; e2])
      end
  | Ok (r :: rs) => (Ok (json (map strip (r :: rs))), [Classified (to_string v); e1])
  end.
Proof.
  intros Hv. unfold respond, Index2.search.
  destruct v as [[|ch s]|items|fields]; [discriminate Hv| | |];
    unfold bind, try_catch, classify, all_rows, ret; cbv zeta;
    destruct (detectQueryType _);
    cbn [primary_args fallback_args];
    match goal with
    | |- context [execute db (Select index2 ?c Primary) ?ps] =>
        destruct (execute db (Select index2 c Primary) ps) as [[|r rs]|m]
    end; cbn [List.length Nat.eqb]; try reflexivity;
    match goal with
    | |- context [execute db (Select index2 ?c Fallback) ?ps] =>
        destruct (execute db (Select index2 c Fallback) ps) as [rs'|m']
    end; reflexivity.
Qed.

Lemma plain_unfold_value (db : Store) (v : QValue) :
  falsy (Some v) = false ->
  respond Part000.search db (Some v) =
  let c := detectQueryType (to_string v) in
  let e1 := Executed (Select part_000 c Primary)
              (where_args c (contains (to_string v))) in
  let e2 := Executed (Select part_000 c Fallback)
              (where_args c (prefix (to_string v))) in
  match execute db (Select part_000 c Primary)
          (where_args c (contains (to_string v))) with
  | Throw m => (Ok (search_error m), [Classified (to_string v); e1])
  | Ok [] =>
      match execute db (Select part_000 c Fallback)
              (where_args c (prefix (to_string v))) with
      | Throw m => (Ok (search_error m), [Classified (to_string v); e1; e2])
      | Ok rs => (Ok (json rs), [Classified (to_string v); e1; e2])
      end
  | Ok (r :: rs) => (Ok (json (r :: rs)), [Classified (to_string v); e1])
  end.
Proof.
  intros Hv. unfold respond, Part000.search.
  destruct v as [[|ch s]|items|fields]; [discriminate Hv| | |];
    unfold bind, try_catch, classify, all_rows, ret; cbv zeta;
    destruct (detectQueryType _);
    cbn [where_args]; unfold percent, star;
    match goal with
    | |- context [execute db (Select part_000 ?c Primary) ?ps] =>
        destruct (execute db (Select part_000 c Primary) ps) as [[|r rs]|m]
    end; cbn [List.length Nat.eqb]; try reflexivity;
    match goal with
    | |- context [execute db (Select part_000 ?c Fallback) ?ps] =>
        destruct (execute db (Select part_000 c Fallback) ps) as [rs'|m']
    end; reflexivity.
Qed.

(** The same for a query that is a string. *)
Lemma search_unfold (db : Store) (query : text) :
  query <> [] ->
  respond Index2.search db (Some (QStr query)) =
  let c := detectQueryType query in
  let e1 := Executed (Select index2 c Primary) (primary_params c query) in
  let e2 := Executed (Select index2 c Fallback) (fallback_params c query) in
  match execute db (Select index2 c Primary) (primary_params c query) with
  | Throw m => (Ok (search_error m), [Classified query; e1])
  | Ok [] =>
      match execute db (Select index2 c Fallback) (fallback_params c query) with
      | Throw m => (Ok (search_error m), [Classified query; e1; e2])
      | Ok rs => (Ok (json (map strip rs)), [Classified query; e1; e2])
      end
  | Ok (r :: rs) => (Ok (json (map strip (r :: rs))), [Classified query; e1])
  end.
Proof.
  intros Hq. apply (search_unfold_value db (QStr query)).
  destruct query; [congruence | reflexivity].
Qed.

Lemma plain_unfold (db : Store) (query : text) :
  query <> [] ->
  respond Part000.search db (Some (QStr query)) =
  let c := detectQueryType query in
  let e1 := Executed (Select part_000 c Primary) (where_args c (contains query)) in
  let e2 := Executed (Select part_000 c Fallback) (where_args c (prefix query)) in
  match execute db (Select part_000 c Primary) (where_args c (contains query)) with
  | Throw m => (Ok (search_error m), [Classified query; e1])
  | Ok [] =>
      match execute db (Select part_000 c Fallback) (where_args c (prefix query)) with
      | Throw m => (Ok (search_error m), [Classified query; e1; e2])
      | Ok rs => (Ok (json rs), [Classified query; e1; e2])
      end
  | Ok (r :: rs) => (Ok (json (r :: rs)), [Classified query; e1])
  end.
Proof.
  intros Hq. apply (plain_unfold_value db (QStr query)).
  destruct query; [congruence | reflexivity].
Qed.

Lemma falsy_cases (q : option QValue) :
  falsy q = true <-> q = None \/ q = Some (QStr []).
Proof.
  destruct q as [[[|ch s]|items|fields]|]; simpl; split; auto;
    try discriminate; intros [H|H]; discriminate H.
Qed.

Lemma respond_falsy (handler : Store -> option QValue -> M Response)
    (db : Store) (q : option QValue) :
  handler = Index2.search \/ handler = Part000.search ->
  falsy q = true -> respond handler db q = (Ok missing_query, []).
Proof.
  intros [-> | ->] H; apply falsy_cases in H as [-> | ->]; reflexivity.
Qed.

Lemma ranked_rows_length (db : Store) (c : QueryType) (p : Pass)
    (params : list text) (rs : list Ranked) :
  ranked_rows db c p params = Ok rs -> (List.length rs <= 50)%nat.
Proof.
  unfold ranked_rows. intros H.
  destruct (searched c) as [t|].
  - destruct params as [|? [|? [|? [|]]]]; try discriminate.
    destruct (where_in db c p _); inversion H; subst.
    apply LIMIT_length.
  - do 11 (destruct params as [|? params]; try discriminate).
    destruct params; try discriminate.
    destruct (where_in db c p _); inversion H; subst.
    apply LIMIT_length.
Qed.

Lemma plain_rows_length (db : Store) (c : QueryType) (p : Pass)
    (params : list text) (rs : list Obj) :
  plain_rows db c p params = Ok rs -> (List.length rs <= 50)%nat.
Proof.
  unfold plain_rows. intros H.
  destruct (where_in db c p params); inversion H; subst.
  apply LIMIT_length.
Qed.

Lemma run_length (db : Store) (s : Sql) (params : list text) (rs : list Obj) :
  run db s params = Ok rs -> (List.length rs <= 50)%nat.
Proof.
  destruct s as [[|] c p]; unfold run.
  - destruct (ranked_rows db c p params) as [rr|] eqn:E; intros H; inversion H; subst.
    rewrite length_map. eapply ranked_rows_length, E.
  - apply plain_rows_length.
Qed.

Lemma execute_length (db : Store) (s : Sql) (args : list QValue) (rs : list Obj) :
  execute db s args = Ok rs -> (List.length rs <= 50)%nat.
Proof.
  destruct s as [v c p]. unfold execute.
  destruct (failure db p); [discriminate|].
  destruct (bind_parameters _ args); [|discriminate].
  apply run_length.
Qed.

Lemma results_of_json (rs : list Obj) : results_of (json rs) = map JObj rs.
Proof. reflexivity. Qed.

Lemma ranked_rows_pass (db : Store) (c : QueryType) (p : Pass) (query : text) :
  ranked_rows db c p (pass_texts p c query) =
  match where_in db c p (where_params c (where_pattern p query)) with
  | Ok ids => Ok (ranked_select db c query ids)
  | Throw e => Throw e
  end.
Proof. destruct c, p; reflexivity. Qed.

Lemma plain_rows_pass (db : Store) (c : QueryType) (p : Pass) (query : text) :
  plain_rows db c p (where_params c (where_pattern p query)) =
  match where_in db c p (where_params c (where_pattern p query)) with
  | Ok ids => Ok (select_plain db ids)
  | Throw e => Throw e
  end.
Proof. reflexivity. Qed.

(** A statement of the ranked handler that answers was bound to the
    string of the value. *)
Lemma execute_value (db : Store) (c : QueryType) (p : Pass) (v : QValue)
    (rs : list Obj) :
  execute db (Select index2 c p) (pass_args p c v) = Ok rs ->
  failure db p = None
  /\ run db (Select index2 c p) (pass_texts p c (to_string v)) = Ok rs.
Proof.
  unfold execute. destruct (failure db p); [discriminate|].
  destruct (bind_parameters _ _) as [ps|] eqn:E; [|discriminate].
  intros H. split; [reflexivity|].
  assert (Hps : ps = pass_texts p c (to_string v)); [|now rewrite <- Hps].
  destruct c, p;
    first [ apply (bind_value_once v [_; _] ps E)
          | apply (bind_value_thrice v [_; _; _; _; _; _; _; _] ps E) ].
Qed.

Lemma execute_string (db : Store) (c : QueryType) (p : Pass) (query : text) :
  execute db (Select index2 c p) (pass_params p c query) =
  match failure db p with
  | Some e => Throw e
  | None => run db (Select index2 c p) (pass_texts p c query)
  end.
Proof. destruct c, p; reflexivity. Qed.

Lemma execute_plain (db : Store) (c : QueryType) (p : Pass) (w : text) :
  execute db (Select part_000 c p) (where_args c w) =
  match failure db p with
  | Some e => Throw e
  | None => plain_rows db c p (where_params c w)
  end.
Proof. destruct c, p; reflexivity. Qed.

(** ** C7: the kanji rule of the classifier *)

(** C7, as stated, fails at the end of the block: U+9FB0 is a CJK Unified
    Ideograph, and the one-character query made of it is classified [all]. *)
Lemma detect_block_end_not_kanji :
  In 0x9FB0 [0x9FB0]
  /\ cjk_unified_ideograph 0x9FB0 = true
  /\ detectQueryType [0x9FB0] = all.
Proof. repeat split. now left. Qed.

(** C7 (amended): every query containing a character in U+4E00..U+9FAF, the
    range the source writes, is classified [kanji], whatever else it
    contains; the rule is tried first, so none of the other three applies. *)
Theorem detect_kanji_precedence (query : text) (c : Z) :
  In c query -> 0x4E00 <= c <= 0x9FAF -> detectQueryType query = kanji.
Proof.
  intros Hin Hr. unfold detectQueryType, test_some.
  assert (H : existsb kanji_class (utf16 query) = true).
  { apply existsb_exists. exists c. split.
    - apply utf16_bmp; [exact Hin | lia].
    - apply between_spec. lia. }
  now rewrite H.
Qed.

(** 食べる123 *)
Lemma detect_kanji_precedence_witness :
  detectQueryType [0x98DF; 0x3079; 0x308B; 49; 50; 51] = kanji.
Proof. apply (detect_kanji_precedence _ 0x98DF); [simpl; auto | lia]. Defined.

(** ** C9: the error boundary *)

(** C9: without [q], or with an empty one, the answer is 400 with the body
    [{error: "Missing query parameter: q"}] and the log is empty (nothing
    classified, nothing executed); whenever a statement the handler
    executed threw [message], the answer is 500 with the body
    [{error: "Database search error", details: message}], and that
    statement is the last entry of the log: nothing is run after it; and
    the handler answers every request, no exception leaves it. *)
Theorem search_error_boundary (db : Store) (q : option QValue) :
  ((q = None \/ q = Some (QStr [])) ->
     respond Index2.search db q =
     (Ok {| status := 400;
            body := JObj [("error"%string,
                           JStr (codes "Missing query parameter: q"))] |}, []))
  /\ (forall s args message,
        In (Executed s args) (snd (respond Index2.search db q)) ->
        execute db s args = Throw message ->
        exists before,
          respond Index2.search db q =
          (Ok {| status := 500;
                 body := JObj [("error"%string,
                                JStr (codes "Database search error"));
                               ("details"%string, JStr message)] |},
           before ++ [Executed s args]))
  /\ exists resp, fst (respond Index2.search db q) = Ok resp.
Proof.
  split; [|split].
  - intros [-> | ->]; reflexivity.
  - intros s args message Hin Hthrow.
    destruct (falsy q) eqn:Hf.
    { apply falsy_cases in Hf as [-> | ->]; destruct Hin. }
    destruct q as [v|]; [|discriminate Hf].
    rewrite (search_unfold_value db v Hf) in *. cbv zeta in *.
    set (c := detectQueryType (to_string v)) in *.
    destruct (execute db (Select index2 c Primary) _) as [[|r rs]|m] eqn:E1.
    + destruct (execute db (Select index2 c Fallback) _) as [rs'|m'] eqn:E2;
        simpl in Hin; destruct Hin as [H|[H|[H|[]]]]; try discriminate;
        inversion H; subst; try congruence.
      exists [Classified (to_string v);
              Executed (Select index2 c Primary) (primary_args c v)].
      injection (eq_trans (eq_sym Hthrow) E2) as <-. reflexivity.
    + simpl in Hin; destruct Hin as [H|[H|[]]]; try discriminate;
        inversion H; subst; congruence.
    + simpl in Hin; destruct Hin as [H|[H|[]]]; try discriminate.
      inversion H; subst.
      exists [Classified (to_string v)].
      injection (eq_trans (eq_sym Hthrow) E1) as <-. reflexivity.
  - destruct (falsy q) eqn:Hf.
    { apply falsy_cases in Hf as [-> | ->]; now exists missing_query. }
    destruct q as [v|]; [|discriminate Hf].
    rewrite (search_unfold_value db v Hf). cbv zeta.
    destruct (execute db _ _) as [[|r rs]|m];
      [|eexists; reflexivity|eexists; reflexivity].
    destruct (execute db _ _) as [rs'|m']; eexists; reflexivity.
Qed.

Lemma search_error_boundary_witness :
  respond Index2.search Sample.unreadable None =
  (Ok {| status := 400;
         body := JObj [("error"%string,
                        JStr (codes "Missing query parameter: q"))] |}, [])
  /\ (exists before,
        respond Index2.search Sample.unreadable (Some (QStr (codes "ate"))) =
        (Ok {| status := 500;
               body := JObj [("error"%string,
                              JStr (codes "Database search error"));
                             ("details"%string, JStr (codes "disk I/O error"))] |},
         before ++ [Executed (Select index2 english Primary)
                      [QStr (codes "ate"); QStr (codes "%ate%");
                       QStr (codes "%ate%")]]))
  /\ exists before,
       respond Index2.search Sample.broken_index (Some (QStr (codes "ate"))) =
       (Ok {| status := 500;
              body := JObj [("error"%string,
                             JStr (codes "Database search error"));
                            ("details"%string, JStr (codes "fts5: syntax error"))] |},
        before ++ [Executed (Select index2 english Fallback)
                     [QStr (codes "ate"); QStr (codes "%ate%");
                      QStr (codes "ate*")]]).
Proof.
  split; [|split].
  - apply (proj1 (search_error_boundary Sample.unreadable None)). now left.
  - apply (proj1 (proj2 (search_error_boundary Sample.unreadable
                           (Some (QStr (codes "ate")))))).
    + vm_compute. right; left. reflexivity.
    + reflexivity.
  - apply (proj1 (proj2 (search_error_boundary Sample.broken_index
                           (Some (QStr (codes "ate")))))).
    + vm_compute. right; right; left. reflexivity.
    + reflexivity.
Defined.

(** ** C3: the cap on the result list *)

(** C3: every statement of the handler, in each category and in both passes,
    returns at most 50 rows, and the array of any response holds at most 50
    entries. *)
Theorem result_list_at_most_50 (db : Store) :
  (forall c p params rs,
     execute db (Select index2 c p) params = Ok rs -> (List.length rs <= 50)%nat)
  /\ (forall q resp log,
        respond Index2.search db q = (Ok resp, log) ->
        (List.length (results_of resp) <= 50)%nat).
Proof.
  split.
  - intros c p params rs. apply execute_length.
  - intros q resp log H.
    destruct (falsy q) eqn:Hf.
    { apply falsy_cases in Hf as [-> | ->]; inversion H; subst; simpl; lia. }
    destruct q as [v|]; [|discriminate Hf].
    rewrite (search_unfold_value db v Hf) in H. cbv zeta in H.
    set (c := detectQueryType (to_string v)) in *.
    destruct (execute db (Select index2 c Primary) _) as [[|r rs]|m] eqn:E1.
    + destruct (execute db (Select index2 c Fallback) _) as [rs'|m'] eqn:E2;
        apply (f_equal fst) in H; cbn [fst] in H; injection H as <-;
        [|simpl; lia].
      rewrite results_of_json, !length_map. eapply execute_length, E2.
    + apply (f_equal fst) in H; cbn [fst] in H; injection H as <-.
      apply execute_length in E1. unfold results_of. simpl in *.
      rewrite !length_map. exact E1.
    + inversion H; subst. simpl. lia.
Qed.

Lemma result_list_at_most_50_witness :
  (List.length (results_of (json (map strip
      [ [("id"%string, JNum 1); ("kanji"%string, JNull);
         ("readings"%string, JNull);
         ("meanings"%string, JStr (codes "to eat"));
         ("match_type"%string, JNum 2)] ]))) <= 50)%nat.
Proof.
  apply (proj2 (result_list_at_most_50 Sample.word_order)
           (Some (QStr (codes "eat")))
           _ [Classified (codes "eat");
              Executed (Select index2 english Primary)
                (primary_params english (codes "eat"))]).
  reflexivity.
Defined.

(** ** Binary collation is a total order *)

Lemma text_leb_refl (a : text) : text_leb a a = true.
Proof.
  induction a as [|x a IH]; simpl; [reflexivity|].
  rewrite Z.eqb_refl, IH. simpl. apply orb_true_r.
Qed.

Lemma text_leb_total (a b : text) : text_leb a b = true \/ text_leb b a = true.
Proof.
  revert b. induction a as [|x a IH]; intros [|y b]; simpl; auto.
  destruct (Z.ltb_spec x y); [now left|].
  destruct (Z.ltb_spec y x); [now right|].
  assert (x = y) by lia. subst. rewrite Z.eqb_refl. simpl. apply IH.
Qed.

Lemma text_leb_trans (a b c : text) :
  text_leb a b = true -> text_leb b c = true -> text_leb a c = true.
Proof.
  revert b c. induction a as [|x a IH]; intros [|y b] [|z c]; simpl; auto;
    try discriminate.
  rewrite !orb_true_iff, !andb_true_iff, !Z.ltb_lt, !Z.eqb_eq.
  intros [H1|[H1 H1']] [H2|[H2 H2']].
  - left. lia.
  - left. lia.
  - left. lia.
  - right. split; [lia|]. eapply IH; eassumption.
Qed.

Lemma text_leb_antisym (a b : text) :
  text_leb a b = true -> text_leb b a = true -> a = b.
Proof.
  revert b. induction a as [|x a IH]; intros [|y b]; simpl; auto;
    try discriminate.
  rewrite !orb_true_iff, !andb_true_iff, !Z.ltb_lt, !Z.eqb_eq.
  intros [H1|[H1 H1']] [H2|[H2 H2']]; try lia.
  subst. f_equal. now apply IH.
Qed.

(** ** Aggregates *)

Lemma fold_min_spec (l : list Z) (x : Z) :
  In (fold_left Z.min l x) (x :: l)
  /\ forall y, In y (x :: l) -> fold_left Z.min l x <= y.
Proof.
  revert x. induction l as [|a l IH]; intros x; simpl.
  - split; [now left|]. intros y [<-|[]]. lia.
  - destruct (IH (Z.min x a)) as [Hin Hle]. split.
    + destruct Hin as [H|H]; [|now right; right].
      rewrite <- H. destruct (Z.min_spec x a) as [[_ ->]|[_ ->]]; auto.
    + intros y Hy.
      assert (Hm : fold_left Z.min l (Z.min x a) <= Z.min x a)
        by (apply Hle; now left).
      destruct Hy as [<-|[<-|Hy]]; [lia | lia |].
      apply Hle. now right.
Qed.

Lemma MIN_int_spec (l : list Z) (m : Z) :
  MIN_int l = Some m <-> In m l /\ forall y, In y l -> m <= y.
Proof.
  destruct l as [|x l]; simpl.
  - split; [discriminate | intros [[] _]].
  - destruct (fold_min_spec l x) as [Hin Hle]. split.
    + intros H. inversion H; subst. split; assumption.
    + intros [Hm Hall]. f_equal.
      specialize (Hle m Hm). specialize (Hall _ Hin). lia.
Qed.

Lemma MIN_int_some (l : list Z) : l <> [] -> exists m, MIN_int l = Some m.
Proof. destruct l; [congruence|]. intros _. eexists. reflexivity. Qed.

Lemma fold_text_min_spec (l : list text) (x : text) :
  In (fold_left text_min l x) (x :: l)
  /\ forall y, In y (x :: l) -> text_leb (fold_left text_min l x) y = true.
Proof.
  revert x. induction l as [|a l IH]; intros x; simpl.
  - split; [now left|]. intros y [<-|[]]. apply text_leb_refl.
  - destruct (IH (text_min x a)) as [Hin Hle]. split.
    + destruct Hin as [H|H]; [|now right; right].
      rewrite <- H. unfold text_min. destruct (text_leb x a); auto.
    + intros y Hy.
      assert (Hm : text_leb (fold_left text_min l (text_min x a)) (text_min x a) = true)
        by (apply Hle; now left).
      destruct Hy as [<-|[<-|Hy]].
      * eapply text_leb_trans; [exact Hm|]. unfold text_min.
        destruct (text_leb x a) eqn:E; [apply text_leb_refl|].
        destruct (text_leb_total x a); congruence.
      * eapply text_leb_trans; [exact Hm|]. unfold text_min.
        destruct (text_leb x a) eqn:E; [exact E | apply text_leb_refl].
      * apply Hle. now right.
Qed.

Lemma In_non_null {A : Type} (l : list (option A)) (v : A) :
  In v (non_null l) <-> In (Some v) l.
Proof.
  unfold non_null. rewrite in_flat_map. split.
  - intros [[x|] [Hin Hv]]; simpl in Hv; [|tauto].
    destruct Hv as [<-|[]]. exact Hin.
  - intros H. exists (Some v). split; [exact H | now left].
Qed.

Lemma MIN_text_spec (l : list (option text)) (m : text) :
  MIN_text l = Some m <->
  In (Some m) l /\ forall y, In (Some y) l -> text_leb m y = true.
Proof.
  unfold MIN_text.
  assert (Hn : forall v, In v (non_null l) <-> In (Some v) l) by apply In_non_null.
  destruct (non_null l) as [|x l'].
  - split; [discriminate|]. intros [H _]. apply Hn in H. destruct H.
  - destruct (fold_text_min_spec l' x) as [Hin Hle]. split.
    + intros H. inversion H; subst. split.
      * now apply Hn.
      * intros y Hy. apply Hle. now apply Hn.
    + intros [Hm Hall]. f_equal. apply text_leb_antisym.
      * apply Hle. now apply Hn.
      * apply Hall. now apply Hn.
Qed.

Lemma MIN_text_none (l : list (option text)) :
  MIN_text l = None <-> forall v, ~ In (Some v) l.
Proof.
  unfold MIN_text.
  assert (Hn : forall v, In v (non_null l) <-> In (Some v) l) by apply In_non_null.
  destruct (non_null l) as [|x l'].
  - split; [|reflexivity]. intros _ v H. apply Hn in H. destruct H.
  - split; [discriminate|]. intros H. exfalso. apply (H x), Hn. now left.
Qed.

(** The minimum depends on the values only, not on how often each occurs. *)
Lemma MIN_text_ext (l1 l2 : list (option text)) :
  (forall v, In (Some v) l1 <-> In (Some v) l2) -> MIN_text l1 = MIN_text l2.
Proof.
  intros H.
  destruct (MIN_text l1) as [m|] eqn:E1.
  - symmetry. apply MIN_text_spec. apply MIN_text_spec in E1 as [Hin Hle]. split.
    + now apply H.
    + intros y Hy. apply Hle. now apply H.
  - symmetry. apply MIN_text_none. intros v Hv.
    apply (proj1 (MIN_text_none l1) E1 v). now apply H.
Qed.

Lemma GROUP_CONCAT_DISTINCT_spec (l : list (option text)) (values : list text) :
  (forall v, In (Some v) l <-> In v values) ->
  joined_once values (nullable (GROUP_CONCAT_DISTINCT l)).
Proof.
  intros H. exists (distinct (non_null l)). repeat split.
  - apply NoDup_nodup.
  - intros Hx. apply H, In_non_null. unfold distinct in Hx.
    now apply nodup_In in Hx.
  - intros Hx. unfold distinct. apply nodup_In, In_non_null. now apply H.
  - unfold GROUP_CONCAT_DISTINCT. destruct (distinct (non_null l)); reflexivity.
Qed.

(** ** Joins and groups *)

Lemma field_values_In (db : Store) (t : Table) (e : Z) (v : text) :
  In v (field_values db t e) <->
  exists r, In r (rows db t) /\ entry_id r = e /\ value r = v.
Proof.
  unfold field_values. rewrite in_map_iff. split.
  - intros [r [Hv Hr]]. apply filter_In in Hr as [Hr He].
    apply Z.eqb_eq in He. now exists r.
  - intros [r [Hr [He Hv]]]. exists r. split; [exact Hv|].
    apply filter_In. split; [exact Hr | now apply Z.eqb_eq].
Qed.

Lemma left_join_In (db : Store) (t : Table) (e : Z) (v : text) :
  In (Some v) (left_join db t e) <-> In v (field_values db t e).
Proof.
  unfold left_join, field_values.
  destruct (filter (fun r => entry_id r =? e) (rows db t)) as [|r rs].
  - simpl. split; [intros [H|[]]; discriminate | tauto].
  - rewrite !in_map_iff. split.
    + intros [x [Hx Hin]]. exists x. split; [congruence | exact Hin].
    + intros [x [Hx Hin]]. exists x. split; [congruence | exact Hin].
Qed.

Lemma left_join_inhabited (db : Store) (t : Table) (e : Z) :
  exists x, In x (left_join db t e).
Proof.
  unfold left_join.
  destruct (filter (fun r => entry_id r =? e) (rows db t)) as [|r rs].
  - exists None. now left.
  - exists (Some (value r)). now left.
Qed.

Lemma joined_In (db : Store) (e : Z) (j : Joined) :
  In j (joined db e) <->
  e_id j = e
  /\ In (k_kanji j) (left_join db kanji_table e)
  /\ In (r_reading j) (left_join db readings_table e)
  /\ In (m_meaning j) (left_join db meanings_table e).
Proof.
  unfold joined. rewrite in_flat_map. split.
  - intros [k [Hk H]]. apply in_flat_map in H as [r [Hr H]].
    apply in_map_iff in H as [m [Hj Hm]]. subst j. simpl. auto.
  - intros [He [Hk [Hr Hm]]]. exists (k_kanji j). split; [exact Hk|].
    apply in_flat_map. exists (r_reading j). split; [exact Hr|].
    apply in_map_iff. exists (m_meaning j). split; [|exact Hm].
    destruct j; simpl in *. now subst.
Qed.

Lemma joined_inhabited (db : Store) (e : Z) : joined db e <> [].
Proof.
  destruct (left_join_inhabited db kanji_table e) as [k Hk].
  destruct (left_join_inhabited db readings_table e) as [r Hr].
  destruct (left_join_inhabited db meanings_table e) as [m Hm].
  assert (H : In {| e_id := e; k_kanji := k; r_reading := r; m_meaning := m |}
                 (joined db e)) by (apply joined_In; simpl; auto).
  intros E. rewrite E in H. destruct H.
Qed.

(** Over the joined rows of an entry, a column takes the values the entry
    owns in that table, and NULL only when it owns none. *)
Lemma column_values (db : Store) (t : Table) (e : Z) (v : text) :
  In (Some v) (map (column t) (joined db e)) <-> In v (field_values db t e).
Proof.
  rewrite in_map_iff. split.
  - intros [j [Hc Hj]]. apply joined_In in Hj as [_ [Hk [Hr Hm]]].
    apply left_join_In. destruct t; simpl in Hc; now rewrite <- Hc.
  - intros Hv. apply left_join_In in Hv.
    destruct (left_join_inhabited db kanji_table e) as [k Hk].
    destruct (left_join_inhabited db readings_table e) as [r Hr].
    destruct (left_join_inhabited db meanings_table e) as [m Hm].
    destruct t.
    + exists {| e_id := e; k_kanji := Some v; r_reading := r; m_meaning := m |}.
      split; [reflexivity | apply joined_In; simpl; auto].
    + exists {| e_id := e; k_kanji := k; r_reading := Some v; m_meaning := m |}.
      split; [reflexivity | apply joined_In; simpl; auto].
    + exists {| e_id := e; k_kanji := k; r_reading := r; m_meaning := Some v |}.
      split; [reflexivity | apply joined_In; simpl; auto].
Qed.

Lemma mem_spec (x : Z) (l : list Z) : mem x l = true <-> In x l.
Proof.
  unfold mem. rewrite existsb_exists. split.
  - intros [y [Hy He]]. apply Z.eqb_eq in He. now subst.
  - intros H. exists x. split; [exact H | apply Z.eqb_refl].
Qed.

Lemma selected_ids_perm (db : Store) (ids : list Z) :
  Permutation (selected_ids db ids)
    (nodup Z.eq_dec (filter (fun e => mem e ids) (entries db))).
Proof. apply sort_perm. Qed.

Lemma selected_ids_In (db : Store) (ids : list Z) (e : Z) :
  In e (selected_ids db ids) <-> In e (entries db) /\ In e ids.
Proof.
  split.
  - intros H. apply (Permutation_in _ (selected_ids_perm db ids)) in H.
    apply nodup_In, filter_In in H. now rewrite mem_spec in H.
  - intros [H1 H2].
    apply (Permutation_in _ (Permutation_sym (selected_ids_perm db ids))).
    apply nodup_In, filter_In. now rewrite mem_spec.
Qed.

Lemma selected_ids_NoDup (db : Store) (ids : list Z) : NoDup (selected_ids db ids).
Proof.
  eapply Permutation_NoDup.
  - apply Permutation_sym, selected_ids_perm.
  - apply NoDup_nodup.
Qed.

Lemma entry_ids_like_In (db : Store) (t : Table) (pat : text) (e : Z) :
  In e (entry_ids_like db t pat) <-> owns_like db t pat e.
Proof.
  unfold entry_ids_like, owns_like. rewrite in_map_iff. split.
  - intros [r [He Hr]]. apply filter_In in Hr as [Hr Hl]. now exists r.
  - intros [r [Hr [He Hl]]]. exists r. split; [exact He|].
    apply filter_In. now split.
Qed.

Lemma where_in_primary (db : Store) (c : QueryType) (query : text) :
  where_in db c Primary (where_params c (contains query)) =
  Ok (flat_map (fun t => entry_ids_like db t (contains query)) (tables c)).
Proof. destruct c; simpl; rewrite ?app_nil_r; reflexivity. Qed.

Lemma primary_ids_In (db : Store) (c : QueryType) (query : text) (e : Z) :
  In e (flat_map (fun t => entry_ids_like db t (contains query)) (tables c)) <->
  exists t, In t (tables c) /\ owns_like db t (contains query) e.
Proof.
  rewrite in_flat_map. split; intros [t [Ht H]]; exists t; split; auto;
    now apply entry_ids_like_In.
Qed.

Lemma ranked_select_eq (db : Store) (c : QueryType) (query : text) (ids : list Z) :
  ranked_select db c query ids =
  LIMIT 50 (ORDER_BY (map (ranked_group db c query) (selected_ids db ids))).
Proof.
  unfold ranked_select, select_ranked, select_ranked_all, group_by_id,
    ranked_group, rank_case, order_term.
  destruct (searched c); rewrite map_map; reflexivity.
Qed.

Lemma ORDER_BY_perm (l : list Ranked) : Permutation (ORDER_BY l) l.
Proof. apply sort_perm. Qed.

Lemma ranked_select_In (db : Store) (c : QueryType) (query : text)
    (ids : list Z) (r : Ranked) :
  In r (ranked_select db c query ids) ->
  exists e, In e (entries db) /\ In e ids /\ r = ranked_group db c query e.
Proof.
  rewrite ranked_select_eq. intros H. apply In_firstn in H.
  apply (Permutation_in _ (ORDER_BY_perm _)) in H.
  apply in_map_iff in H as [e [Hr He]].
  apply selected_ids_In in He as [H1 H2]. now exists e.
Qed.

Lemma ranked_select_all (db : Store) (c : QueryType) (query : text) (ids : list Z) :
  (List.length (selected_ids db ids) <= 50)%nat ->
  Permutation (ranked_select db c query ids)
    (map (ranked_group db c query) (selected_ids db ids)).
Proof.
  intros H. rewrite ranked_select_eq, LIMIT_all.
  - apply ORDER_BY_perm.
  - rewrite (Permutation_length (ORDER_BY_perm _)), length_map. exact H.
Qed.

(** ** The rank of an entry *)

Lemma text_eqb_eq (a b : text) : text_eqb a b = true <-> a = b.
Proof.
  unfold text_eqb. destruct (list_eq_dec Z.eq_dec a b); split; congruence.
Qed.

Lemma rank_case_tables (c : QueryType) (query : text) (j : Joined) :
  rank_case c query j =
  if existsb (fun t => sql_eq (column t j) query) (tables c) then 1
  else if existsb (fun t => sql_like (column t j) (contains query)) (tables c) then 2
  else 3.
Proof.
  destruct c; unfold rank_case, match_case, match_case_all, tables; simpl;
    rewrite ?orb_false_r, ?orb_assoc; reflexivity.
Qed.

Lemma owned_values_In (db : Store) (c : QueryType) (e : Z) (v : text) :
  In v (owned_values db c e) <->
  exists t, In t (tables c) /\ In v (field_values db t e).
Proof. unfold owned_values. apply in_flat_map. Qed.

(** Some joined row of [e] shows [v] in column [t], for each owned [v]. *)
Lemma column_shows (db : Store) (t : Table) (e : Z) (v : text) :
  In v (field_values db t e) ->
  exists j, In j (joined db e) /\ column t j = Some v.
Proof.
  intros H. apply column_values in H. apply in_map_iff in H as [j [Hc Hj]].
  now exists j.
Qed.

Lemma column_owned (db : Store) (t : Table) (e : Z) (j : Joined) (v : text) :
  In j (joined db e) -> column t j = Some v -> In v (field_values db t e).
Proof.
  intros Hj Hc. apply column_values. apply in_map_iff. now exists j.
Qed.

Lemma exists_eq_row (db : Store) (c : QueryType) (query : text) (e : Z) (j : Joined) :
  In j (joined db e) ->
  existsb (fun t => sql_eq (column t j) query) (tables c) = true ->
  existsb (fun v => text_eqb v query) (owned_values db c e) = true.
Proof.
  intros Hj H. apply existsb_exists in H as [t [Ht H]].
  unfold sql_eq in H. destruct (column t j) as [v|] eqn:Ec; [|discriminate].
  apply existsb_exists. exists v. split; [|exact H].
  apply owned_values_In. exists t. split; [exact Ht|].
  eapply column_owned; eassumption.
Qed.

Lemma exists_like_row (db : Store) (c : QueryType) (query : text) (e : Z) (j : Joined) :
  In j (joined db e) ->
  existsb (fun t => sql_like (column t j) (contains query)) (tables c) = true ->
  existsb (like (contains query)) (owned_values db c e) = true.
Proof.
  intros Hj H. apply existsb_exists in H as [t [Ht H]].
  unfold sql_like in H. destruct (column t j) as [v|] eqn:Ec; [|discriminate].
  apply existsb_exists. exists v. split; [|exact H].
  apply owned_values_In. exists t. split; [exact Ht|].
  eapply column_owned; eassumption.
Qed.

Lemma rank_case_range (c : QueryType) (query : text) (j : Joined) :
  1 <= rank_case c query j <= 3.
Proof.
  rewrite rank_case_tables.
  destruct (existsb _ _); [lia|]. destruct (existsb _ _); lia.
Qed.

(** [MIN(CASE ...)] over the joined rows of an entry is the rank of the
    values the entry owns. *)
Lemma entry_rank_spec (db : Store) (c : QueryType) (query : text) (e : Z) :
  MIN_int (map (rank_case c query) (joined db e)) =
  Some (rank_of_values query (owned_values db c e)).
Proof.
  apply MIN_int_spec. unfold rank_of_values.
  destruct (existsb (fun v => text_eqb v query) (owned_values db c e)) eqn:E1.
  - split.
    + apply existsb_exists in E1 as [v [Hv He]].
      apply owned_values_In in Hv as [t [Ht Hv]].
      destruct (column_shows db t e v Hv) as [j [Hj Hc]].
      apply in_map_iff. exists j. split; [|exact Hj].
      rewrite rank_case_tables.
      assert (H : existsb (fun t => sql_eq (column t j) query) (tables c) = true).
      { apply existsb_exists. exists t. split; [exact Ht|].
        unfold sql_eq. now rewrite Hc. }
      now rewrite H.
    + intros y Hy. apply in_map_iff in Hy as [j [<- _]].
      apply rank_case_range.
  - destruct (existsb (like (contains query)) (owned_values db c e)) eqn:E2.
    + split.
      * apply existsb_exists in E2 as [v [Hv Hl]].
        apply owned_values_In in Hv as [t [Ht Hv]].
        destruct (column_shows db t e v Hv) as [j [Hj Hc]].
        apply in_map_iff. exists j. split; [|exact Hj].
        rewrite rank_case_tables.
        destruct (existsb (fun t => sql_eq (column t j) query) (tables c)) eqn:E.
        { apply (exists_eq_row db c query e j Hj) in E. congruence. }
        assert (H : existsb (fun t => sql_like (column t j) (contains query))
                      (tables c) = true).
        { apply existsb_exists. exists t. split; [exact Ht|].
          unfold sql_like. now rewrite Hc. }
        now rewrite H.
      * intros y Hy. apply in_map_iff in Hy as [j [<- Hj]].
        rewrite rank_case_tables.
        destruct (existsb (fun t => sql_eq (column t j) query) (tables c)) eqn:E.
        { apply (exists_eq_row db c query e j Hj) in E. congruence. }
        cbv iota.
        destruct (existsb (fun t => sql_like (column t j) (contains query)) (tables c));
          lia.
    + assert (Hall : forall j, In j (joined db e) -> rank_case c query j = 3).
      { intros j Hj. rewrite rank_case_tables.
        destruct (existsb (fun t => sql_eq (column t j) query) (tables c)) eqn:E.
        { apply (exists_eq_row db c query e j Hj) in E. congruence. }
        destruct (existsb (fun t => sql_like (column t j) (contains query))
                    (tables c)) eqn:E'.
        { apply (exists_like_row db c query e j Hj) in E'. congruence. }
        reflexivity. }
      split.
      * destruct (joined db e) as [|j js] eqn:Ej.
        { exfalso. now apply (joined_inhabited db e). }
        apply in_map_iff. exists j. split; [|now left].
        apply Hall. now left.
      * intros y Hy. apply in_map_iff in Hy as [j [<- Hj]].
        rewrite (Hall j Hj). lia.
Qed.

Lemma rank_of_values_range (query : text) (values : list text) :
  1 <= rank_of_values query values <= 3.
Proof.
  unfold rank_of_values. destruct (existsb _ _); [lia|].
  destruct (existsb _ _); lia.
Qed.

(** ** From a response back to the statement that produced it *)

Lemma execute_value_ok (db : Store) (c : QueryType) (p : Pass) (v : QValue)
    (rs : list Obj) :
  execute db (Select index2 c p) (pass_args p c v) = Ok rs ->
  failure db p = None
  /\ exists ids,
       where_in db c p (where_params c (where_pattern p (to_string v))) = Ok ids
       /\ rs = map row (ranked_select db c (to_string v) ids).
Proof.
  intros H. apply execute_value in H as [Hf H]. split; [exact Hf|].
  unfold run in H. rewrite ranked_rows_pass in H.
  destruct (where_in db c p _) as [ids|]; [|discriminate].
  inversion H. now exists ids.
Qed.

Lemma execute_pass_ok (db : Store) (c : QueryType) (p : Pass) (query : text)
    (rs : list Obj) :
  execute db (Select index2 c p) (pass_params p c query) = Ok rs ->
  failure db p = None
  /\ exists ids,
       where_in db c p (where_params c (where_pattern p query)) = Ok ids
       /\ rs = map row (ranked_select db c query ids).
Proof. apply (execute_value_ok db c p (QStr query)). Qed.

Lemma search_cases (db : Store) (q : option QValue) (resp : Response)
    (log : list Event) :
  respond Index2.search db q = (Ok resp, log) ->
  results_of resp = []
  \/ exists v p ids,
       q = Some v /\ falsy q = false
       /\ failure db p = None
       /\ where_in db (detectQueryType (to_string v)) p
            (where_params (detectQueryType (to_string v))
               (where_pattern p (to_string v))) = Ok ids
       /\ results_of resp =
          map JObj (map strip (map row
            (ranked_select db (detectQueryType (to_string v)) (to_string v) ids))).
Proof.
  intros H.
  destruct (falsy q) eqn:Hf.
  { apply falsy_cases in Hf as [-> | ->]; inversion H; subst; now left. }
  destruct q as [v|]; [|discriminate Hf].
  rewrite (search_unfold_value db v Hf) in H. cbv zeta in H.
  set (c := detectQueryType (to_string v)) in *.
  destruct (execute db (Select index2 c Primary) _) as [[|r rs]|m] eqn:E1.
  - destruct (execute db (Select index2 c Fallback) _) as [rs'|m'] eqn:E2;
      apply (f_equal fst) in H; cbn [fst] in H; injection H as <-;
      [|now left].
    apply (execute_value_ok db c Fallback) in E2 as [Hfl [ids [Hw ->]]].
    right. exists v, Fallback, ids. auto.
  - apply (f_equal fst) in H; cbn [fst] in H; injection H as <-.
    apply (execute_value_ok db c Primary) in E1 as [Hfl [ids [Hw E1]]].
    right. exists v, Primary, ids.
    repeat split; auto.
    change (strip r :: map strip rs) with (map strip (r :: rs)).
    rewrite results_of_json, E1. reflexivity.
  - inversion H; subst. now left.
Qed.

Lemma strip_ranked_group (db : Store) (c : QueryType) (query : text) (e : Z) :
  strip (row (ranked_group db c query e)) = entry_columns (e, joined db e).
Proof. reflexivity. Qed.

(** ** C8: what a result object holds *)

(** C8: every object of a response array has exactly the four fields [id],
    [kanji], [readings], [meanings], in that order and without
    [match_type]; [id] is an entry of the store, and each of the other
    three is the comma-joined list of the values the entry owns in that
    table, each value once (null when it owns none). *)
Theorem response_objects (db : Store) (q : option QValue) (resp : Response)
    (log : list Event) (o : JValue) :
  respond Index2.search db q = (Ok resp, log) ->
  In o (results_of resp) ->
  exists e kv rv mv,
    o = JObj [("id"%string, JNum e); ("kanji"%string, kv);
              ("readings"%string, rv); ("meanings"%string, mv)]
    /\ In e (entries db)
    /\ joined_once (field_values db kanji_table e) kv
    /\ joined_once (field_values db readings_table e) rv
    /\ joined_once (field_values db meanings_table e) mv.
Proof.
  intros H Ho.
  destruct (search_cases db q resp log H) as [E|[query [p [ids [_ [_ [_ [_ E]]]]]]]];
    rewrite E in Ho; [destruct Ho|].
  rewrite !map_map in Ho. apply in_map_iff in Ho as [r [<- Hr]].
  apply ranked_select_In in Hr as [e [He [_ ->]]].
  rewrite strip_ranked_group.
  exists e. do 3 eexists. split; [reflexivity|]. split; [exact He|].
  repeat split; apply GROUP_CONCAT_DISTINCT_spec; intros v.
  - apply (column_values db kanji_table).
  - apply (column_values db readings_table).
  - apply (column_values db meanings_table).
Qed.

Lemma response_objects_witness :
  exists e kv rv mv,
    JObj [("id"%string, JNum 2);
          ("kanji"%string, JStr [0x5916; 0x98DF; 0x7523; 0x696D; 44; 0x98F2; 0x98DF]);
          ("readings"%string, JNull);
          ("meanings"%string, JStr (codes "eating out"))] =
    JObj [("id"%string, JNum e); ("kanji"%string, kv);
          ("readings"%string, rv); ("meanings"%string, mv)]
    /\ In e (entries Sample.eating)
    /\ joined_once (field_values Sample.eating kanji_table e) kv
    /\ joined_once (field_values Sample.eating readings_table e) rv
    /\ joined_once (field_values Sample.eating meanings_table e) mv.
Proof.
  eapply (response_objects Sample.eating (Some (QStr Sample.shoku))).
  - reflexivity.
  - right. left. reflexivity.
Defined.

(** ** The ORDER BY comparison is a total preorder *)

Ltac split_keys :=
  unfold key_leb, term_eqb, term_leb; simpl;
  repeat match goal with
         | |- context [?x =? ?y] => destruct (Z.eqb_spec x y)
         end;
  rewrite ?Z.leb_le; try tauto; try discriminate; try lia.

Lemma key_leb_total (a b : SortKey) : key_leb a b = true \/ key_leb b a = true.
Proof.
  destruct a as [[a1|] [a2|]], b as [[b1|] [b2|]]; split_keys.
Qed.

Lemma key_leb_trans (a b c : SortKey) :
  key_leb a b = true -> key_leb b c = true -> key_leb a c = true.
Proof.
  destruct a as [[a1|] [a2|]], b as [[b1|] [b2|]], c as [[c1|] [c2|]];
    split_keys.
Qed.

Lemma ORDER_BY_sorted (l : list Ranked) :
  StronglySorted (fun a b => key_le (sort_key a) (sort_key b)) (ORDER_BY l).
Proof.
  unfold ORDER_BY, key_le. apply sort_ok.
  - intros a b. apply key_leb_total.
  - intros a b c. apply key_leb_trans.
Qed.

Lemma ranked_select_sorted (db : Store) (c : QueryType) (query : text) (ids : list Z) :
  StronglySorted (fun a b => key_le (sort_key a) (sort_key b))
    (ranked_select db c query ids).
Proof.
  rewrite ranked_select_eq. apply StronglySorted_firstn, ORDER_BY_sorted.
Qed.

(** What the two sort terms of an entry's row are. *)
Lemma ranked_group_key (db : Store) (c : QueryType) (query : text) (e : Z) :
  let r := ranked_group db c query e in
  id_of (row r) = Some e
  /\ match_type_of (row r) = fst (sort_key r)
  /\ fst (sort_key r) = Some (rank_of_values query (owned_values db c e))
  /\ forall t, searched c = Some t ->
       snd (sort_key r) = LENGTH (MIN_text (map Some (field_values db t e))).
Proof.
  cbv zeta. unfold ranked_group, ranked_row. cbn [row sort_key fst snd].
  rewrite entry_rank_spec. repeat split.
  intros t Ht. unfold order_term. rewrite Ht. f_equal.
  apply MIN_text_ext. intros v. rewrite column_values.
  rewrite in_map_iff. split.
  - intros H. now exists v.
  - intros [x [Hx Hin]]. congruence.
Qed.

(** ** C1: the order of the result list *)

(** C1, as stated, fails: for the query 食 the store [Sample.eating] returns
    entry 1 before entry 2, both of rank 2, although the shortest matching
    kanji form of entry 1 has 3 characters (食べ物) and that of entry 2 has
    2 (飲食). *)
Lemma shortest_match_is_not_the_tie_break :
  detectQueryType Sample.shoku = kanji
  /\ execute Sample.eating (Select index2 kanji Primary)
       (primary_params kanji Sample.shoku) =
     Ok [ [("id"%string, JNum 1);
           ("kanji"%string, JStr [0x98DF; 0x3079; 0x7269]);
           ("readings"%string, JStr [0x305F; 0x3079; 0x3082; 0x306E]);
           ("meanings"%string, JStr (codes "food"));
           ("match_type"%string, JNum 2)];
          [("id"%string, JNum 2);
           ("kanji"%string, JStr [0x5916; 0x98DF; 0x7523; 0x696D; 44; 0x98F2; 0x98DF]);
           ("readings"%string, JNull);
           ("meanings"%string, JStr (codes "eating out"));
           ("match_type"%string, JNum 2)] ]
  /\ shortest_match_length Sample.eating kanji_table (contains Sample.shoku) 1 = Some 3
  /\ shortest_match_length Sample.eating kanji_table (contains Sample.shoku) 2 = Some 2.
Proof. repeat split. Qed.

Lemma StronglySorted_among {A : Type} (R R' : A -> A -> Prop) (l : list A) :
  (forall a b, In a l -> In b l -> R a b -> R' a b) ->
  StronglySorted R l -> StronglySorted R' l.
Proof.
  intros H Hs. induction Hs as [|x l Hs IH Hall]; constructor.
  - apply IH. intros a b Ha Hb. apply H; now right.
  - rewrite Forall_forall in *. intros y Hy.
    apply H; [now left | now right | now apply Hall].
Qed.

(** What the comparison of ORDER BY says of two rows with a rank. *)
Lemma key_le_ranks (m n : Z) (x y : option Z) :
  key_le (Some m, x) (Some n, y) ->
  m < n \/ m = n /\ match x, y with
                    | Some a, Some b => a <= b
                    | None, _ => True
                    | Some _, None => False
                    end.
Proof.
  unfold key_le, key_leb, term_eqb, term_leb. cbn [fst snd].
  destruct (Z.eqb_spec m n) as [->|Hne].
  - intros H. right. split; [reflexivity|].
    destruct x, y; try rewrite Z.leb_le in H; auto; discriminate.
  - rewrite Z.leb_le. lia.
Qed.

(** The aggregate [MIN(col)] of a group sees the values the entry owns. *)
Lemma least_of_column (db : Store) (t : Table) (e : Z) :
  MIN_text (map (column t) (joined db e)) =
  MIN_text (map Some (field_values db t e)).
Proof.
  apply MIN_text_ext. intros v. rewrite column_values.
  rewrite in_map_iff. split.
  - intros H. now exists v.
  - intros [x [Hx Hin]]. congruence.
Qed.

(** The second sort term of an entry's row in the Mixed category. *)
Lemma ranked_group_key_all (db : Store) (query : text) (e : Z) :
  snd (sort_key (ranked_group db all query e)) =
  if sql_like (k_kanji (bare_row db (joined db e))) (37 :: query ++ [37])
  then LENGTH (MIN_text (map Some (field_values db kanji_table e)))
  else if sql_like (r_reading (bare_row db (joined db e))) (37 :: query ++ [37])
  then LENGTH (MIN_text (map Some (field_values db readings_table e)))
  else LENGTH (MIN_text (map Some (field_values db meanings_table e))).
Proof.
  unfold ranked_group, ranked_row, order_term, order_case_all.
  cbn [sort_key snd searched].
  rewrite <- (least_of_column db kanji_table e),
          <- (least_of_column db readings_table e),
          <- (least_of_column db meanings_table e).
  reflexivity.
Qed.

(** C1 (amended): the result list is the image of a list of ranked rows
    that is sorted by non-decreasing rank ([match_type]: 1 when a searched
    value of the entry equals the query, 2 when one matches [%query%], 3
    otherwise) and, among rows of equal rank, by non-decreasing second
    ORDER BY term, NULL before every number.  In the Kanji, Kana and
    English categories that term is the length of the least value, in
    binary string order, among all the values the entry owns in the
    searched table, matching or not.  In the Mixed category it is the
    length of the least kanji form of the entry when the kanji column of
    the group's bare row matches [%query%], else the length of its least
    reading when the reading column of that row matches, else the length
    of its least meaning.  The query is the string of [q]. *)
Theorem results_ordered (db : Store) (q : option QValue) (resp : Response)
    (log : list Event) :
  respond Index2.search db q = (Ok resp, log) ->
  exists rs : list Ranked,
    results_of resp = map (fun r => JObj (strip (row r))) rs
    /\ StronglySorted
         (fun a b =>
            exists m n,
              fst (sort_key a) = Some m /\ fst (sort_key b) = Some n
              /\ (m < n
                  \/ m = n /\ match snd (sort_key a), snd (sort_key b) with
                              | Some x, Some y => x <= y
                              | None, _ => True
                              | Some _, None => False
                              end)) rs
    /\ forall r, In r rs ->
         exists v e,
           q = Some v
           /\ id_of (row r) = Some e
           /\ match_type_of (row r) = fst (sort_key r)
           /\ fst (sort_key r) =
              Some (rank_of_values (to_string v)
                      (owned_values db (detectQueryType (to_string v)) e))
           /\ (forall t, searched (detectQueryType (to_string v)) = Some t ->
                 snd (sort_key r) =
                 LENGTH (MIN_text (map Some (field_values db t e))))
           /\ (detectQueryType (to_string v) = all ->
                 snd (sort_key r) =
                 if sql_like (k_kanji (bare_row db (joined db e)))
                      (37 :: to_string v ++ [37])
                 then LENGTH (MIN_text (map Some (field_values db kanji_table e)))
                 else if sql_like (r_reading (bare_row db (joined db e)))
                           (37 :: to_string v ++ [37])
                 then LENGTH (MIN_text (map Some (field_values db readings_table e)))
                 else LENGTH (MIN_text (map Some (field_values db meanings_table e)))).
Proof.
  intros H.
  destruct (search_cases db q resp log H)
    as [E|[v [p [ids [Hq [_ [_ [_ E]]]]]]]].
  - exists []. rewrite E. repeat split; [constructor | intros r []].
  - set (query := to_string v) in *. set (c := detectQueryType query) in *.
    exists (ranked_select db c query ids). split; [|split].
    + rewrite E, !map_map. reflexivity.
    + apply (StronglySorted_among
               (fun a b => key_le (sort_key a) (sort_key b)));
        [|apply ranked_select_sorted].
      intros a b Ha Hb Hab.
      apply ranked_select_In in Ha as [ea [_ [_ ->]]].
      apply ranked_select_In in Hb as [eb [_ [_ ->]]].
      destruct (ranked_group_key db c query ea) as [_ [_ [Ka _]]].
      destruct (ranked_group_key db c query eb) as [_ [_ [Kb _]]].
      exists (rank_of_values query (owned_values db c ea)),
             (rank_of_values query (owned_values db c eb)).
      split; [exact Ka|]. split; [exact Kb|].
      apply key_le_ranks.
      rewrite <- Ka, <- Kb, <- !surjective_pairing. exact Hab.
    + intros r Hr. apply ranked_select_In in Hr as [e [_ [_ ->]]].
      exists v, e. split; [exact Hq|].
      destruct (ranked_group_key db c query e) as [K1 [K2 [K3 K4]]].
      repeat split; auto.
      intros Hall. change (c = all) in Hall. rewrite Hall.
      apply ranked_group_key_all.
Qed.

Lemma results_ordered_witness :
  exists rs : list Ranked,
    results_of
      {| status := 200;
         body := JArr
           [ JObj [("id"%string, JNum 1);
                   ("kanji"%string, JStr [0x98DF; 0x3079; 0x7269]);
                   ("readings"%string, JStr [0x305F; 0x3079; 0x3082; 0x306E]);
                   ("meanings"%string, JStr (codes "food"))];
             JObj [("id"%string, JNum 2);
                   ("kanji"%string,
                    JStr [0x5916; 0x98DF; 0x7523; 0x696D; 44; 0x98F2; 0x98DF]);
                   ("readings"%string, JNull);
                   ("meanings"%string, JStr (codes "eating out"))] ] |} =
    map (fun r => JObj (strip (row r))) rs
    /\ StronglySorted
         (fun a b =>
            exists m n,
              fst (sort_key a) = Some m /\ fst (sort_key b) = Some n
              /\ (m < n
                  \/ m = n /\ match snd (sort_key a), snd (sort_key b) with
                              | Some x, Some y => x <= y
                              | None, _ => True
                              | Some _, None => False
                              end)) rs
    /\ forall r, In r rs ->
         exists v e,
           Some (QStr Sample.shoku) = Some v
           /\ id_of (row r) = Some e
           /\ match_type_of (row r) = fst (sort_key r)
           /\ fst (sort_key r) =
              Some (rank_of_values (to_string v)
                      (owned_values Sample.eating (detectQueryType (to_string v)) e))
           /\ (forall t, searched (detectQueryType (to_string v)) = Some t ->
                 snd (sort_key r) =
                 LENGTH (MIN_text (map Some (field_values Sample.eating t e))))
           /\ (detectQueryType (to_string v) = all ->
                 snd (sort_key r) =
                 if sql_like (k_kanji (bare_row Sample.eating (joined Sample.eating e)))
                      (37 :: to_string v ++ [37])
                 then LENGTH (MIN_text (map Some
                        (field_values Sample.eating kanji_table e)))
                 else if sql_like
                           (r_reading (bare_row Sample.eating (joined Sample.eating e)))
                           (37 :: to_string v ++ [37])
                 then LENGTH (MIN_text (map Some
                        (field_values Sample.eating readings_table e)))
                 else LENGTH (MIN_text (map Some
                        (field_values Sample.eating meanings_table e)))).
Proof.
  apply (results_ordered Sample.eating (Some (QStr Sample.shoku)) _
           [Classified Sample.shoku;
            Executed (Select index2 kanji Primary)
              (primary_params kanji Sample.shoku)]).
  reflexivity.
Defined.

(** ** LIKE *)

Lemma like_percent (pat s : text) :
  like (37 :: pat) s =
  like pat s || match s with [] => false | _ :: s' => like (37 :: pat) s' end.
Proof. destruct s; reflexivity. Qed.

Lemma like_char_refl (c : Z) : like_char c c = true.
Proof. unfold like_char. rewrite Z.eqb_refl. apply orb_true_r. Qed.

Lemma like_cons (p : Z) (pat : text) (c : Z) (s : text) :
  p <> 37 -> like (p :: pat) (c :: s) = like_char p c && like pat s.
Proof.
  intros Hp. simpl. destruct (Z.eqb_spec p 37); [contradiction | reflexivity].
Qed.

Lemma like_cons_nil (p : Z) (pat : text) : p <> 37 -> like (p :: pat) [] = false.
Proof.
  intros Hp. simpl. destruct (Z.eqb_spec p 37); [contradiction | reflexivity].
Qed.

(** A value matches the pattern made of itself followed by [%]. *)
Lemma like_self_percent (q : text) : like (q ++ [37]) q = true.
Proof.
  induction q as [|c q IH].
  - reflexivity.
  - destruct (Z.eq_dec c 37) as [->|Hc].
    + change ((37 :: q) ++ [37]) with (37 :: (q ++ [37])).
      rewrite like_percent, (like_percent (q ++ [37]) q), IH.
      simpl. apply orb_true_r.
    + change ((c :: q) ++ [37]) with (c :: (q ++ [37])).
      rewrite like_cons by exact Hc. now rewrite like_char_refl, IH.
Qed.

(** Every value matches [%value%]. *)
Lemma like_contains_self (q : text) : like (contains q) q = true.
Proof.
  unfold contains. change ([37] ++ q ++ [37]) with (37 :: (q ++ [37])).
  rewrite like_percent, like_self_percent. reflexivity.
Qed.

Lemma like_percent_iff (pat s : text) :
  like (37 :: pat) s = true <->
  exists pre post, s = pre ++ post /\ like pat post = true.
Proof.
  induction s as [|c s IH]; rewrite like_percent.
  - rewrite orb_false_r. split.
    + intros H. now exists [], [].
    + intros [pre [post [E H]]].
      symmetry in E. apply app_eq_nil in E as [-> ->]. exact H.
  - rewrite orb_true_iff, IH. split.
    + intros [H|[pre [post [-> H]]]].
      * now exists [], (c :: s).
      * now exists (c :: pre), post.
    + intros [[|d pre] [post [E H]]].
      * left. simpl in E. now subst.
      * right. simpl in E. inversion E; subst. now exists pre, post.
Qed.

Lemma like_plain_percent (q s : text) :
  ~ In 37 q ->
  (like (q ++ [37]) s = true <->
   exists mid post, s = mid ++ post
     /\ Forall2 (fun p c => like_char p c = true) q mid).
Proof.
  revert s. induction q as [|p q IH]; intros s Hq.
  - split.
    + intros _. exists [], s. split; [reflexivity | constructor].
    + intros _. apply like_percent_iff. exists s, [].
      split; [now rewrite app_nil_r | reflexivity].
  - assert (Hp : p <> 37) by (intros ->; apply Hq; now left).
    assert (Hq' : ~ In 37 q) by (intros H; apply Hq; now right).
    change ((p :: q) ++ [37]) with (p :: (q ++ [37])).
    destruct s as [|c s].
    + rewrite like_cons_nil by exact Hp. split; [discriminate|].
      intros [mid [post [E H]]]. inversion H; subst. discriminate.
    + rewrite like_cons by exact Hp. rewrite andb_true_iff, (IH s Hq'). split.
      * intros [Hc [mid [post [-> H]]]]. exists (c :: mid), post.
        split; [reflexivity | now constructor].
      * intros [mid [post [E H]]]. inversion H; subst.
        simpl in E. inversion E; subst. split; [assumption|].
        now exists l', post.
Qed.

(** For a query without [%], [v LIKE '%query%'] says that the query occurs
    in [v] up to the case of ASCII letters and the wildcard [_]. *)
Lemma like_contains_iff (q v : text) :
  ~ In 37 q -> (like (contains q) v = true <-> like_substring q v).
Proof.
  intros Hq. unfold contains, like_substring.
  change ([37] ++ q ++ [37]) with (37 :: (q ++ [37])).
  rewrite like_percent_iff. split.
  - intros [pre [rest [-> H]]].
    apply (like_plain_percent q rest Hq) in H as [mid [post [-> H]]].
    now exists pre, mid, post.
  - intros [pre [mid [post [-> H]]]]. exists pre, (mid ++ post).
    split; [reflexivity|]. apply (like_plain_percent q _ Hq). now exists mid, post.
Qed.

(** ** The primary pass *)

Lemma execute_primary_ok (db : Store) (c : QueryType) (query : text) (rs : list Obj) :
  execute db (Select index2 c Primary) (primary_params c query) = Ok rs ->
  rs = map row (ranked_select db c query
         (flat_map (fun t => entry_ids_like db t (contains query)) (tables c))).
Proof.
  intros H. apply (execute_pass_ok db c Primary) in H as [_ [ids [Hw ->]]].
  simpl where_pattern in Hw. rewrite where_in_primary in Hw.
  inversion Hw. reflexivity.
Qed.

Lemma execute_primary_runs (db : Store) (c : QueryType) (query : text) :
  failure db Primary = None ->
  execute db (Select index2 c Primary) (primary_params c query) =
  Ok (map row (ranked_select db c query
        (flat_map (fun t => entry_ids_like db t (contains query)) (tables c)))).
Proof.
  intros Hf.
  change (primary_params c query) with (pass_params Primary c query).
  rewrite execute_string, Hf. unfold run.
  rewrite (ranked_rows_pass db c Primary query).
  simpl where_pattern. rewrite where_in_primary. reflexivity.
Qed.

Lemma LIMIT_short {A : Type} (n : nat) (l : list A) :
  (List.length (LIMIT n l) < n)%nat -> LIMIT n l = l.
Proof.
  unfold LIMIT. rewrite length_firstn. intros H.
  apply firstn_all2. lia.
Qed.

(** A selected entry has rank 1 or 2 in the primary pass. *)
Lemma primary_rank (db : Store) (c : QueryType) (query : text) (e : Z) :
  (exists t, In t (tables c) /\ owns_like db t (contains query) e) ->
  rank_of_values query (owned_values db c e) = 1
  \/ rank_of_values query (owned_values db c e) = 2.
Proof.
  intros [t [Ht [r [Hr [He Hl]]]]]. unfold rank_of_values.
  destruct (existsb (fun v => text_eqb v query) _); [now left|].
  assert (H : existsb (like (contains query)) (owned_values db c e) = true).
  { apply existsb_exists. exists (value r). split; [|exact Hl].
    apply owned_values_In. exists t. split; [exact Ht|].
    apply field_values_In. now exists r. }
  rewrite H. now right.
Qed.

(** ** C6: where rank 3 can arise *)

(** C6, as stated, fails in the fallback pass of the English category: for
    the query [eat to] no meaning matches [%eat to%], the full-text index
    answers [eat to*] with the row "to eat", and the entry is returned with
    [match_type] 3. *)
Lemma fallback_assigns_rank_3 :
  detectQueryType (codes "eat to") = english
  /\ execute Sample.word_order (Select index2 english Primary)
       (primary_params english (codes "eat to")) = Ok []
  /\ execute Sample.word_order (Select index2 english Fallback)
       (fallback_params english (codes "eat to")) =
     Ok [ [("id"%string, JNum 1); ("kanji"%string, JNull);
           ("readings"%string, JNull);
           ("meanings"%string, JStr (codes "to eat"));
           ("match_type"%string, JNum 3)] ].
Proof. repeat split. Qed.

(** C6 (amended): in the primary pass of every category, the Kanji, Kana and
    English ones included, each returned row has [match_type] 1 or 2; rank
    3 is left to the full-text fallback pass. *)
Theorem primary_rank_is_1_or_2 (db : Store) (c : QueryType) (query : text)
    (rs : list Obj) (o : Obj) :
  execute db (Select index2 c Primary) (primary_params c query) = Ok rs ->
  In o rs ->
  match_type_of o = Some 1 \/ match_type_of o = Some 2.
Proof.
  intros H Ho. apply execute_primary_ok in H. subst rs.
  apply in_map_iff in Ho as [r [<- Hr]].
  apply ranked_select_In in Hr as [e [_ [He ->]]].
  apply primary_ids_In in He.
  destruct (ranked_group_key db c query e) as [_ [Hm [Hk _]]].
  rewrite Hm, Hk.
  destruct (primary_rank db c query e He) as [-> | ->]; auto.
Qed.

Lemma primary_rank_is_1_or_2_witness :
  match_type_of
    [("id"%string, JNum 1); ("kanji"%string, JNull); ("readings"%string, JNull);
     ("meanings"%string, JStr (codes "to eat")); ("match_type"%string, JNum 2)]
  = Some 1
  \/ match_type_of
    [("id"%string, JNum 1); ("kanji"%string, JNull); ("readings"%string, JNull);
     ("meanings"%string, JStr (codes "to eat")); ("match_type"%string, JNum 2)]
  = Some 2.
Proof.
  eapply (primary_rank_is_1_or_2 Sample.word_order english (codes "eat")).
  - reflexivity.
  - left. reflexivity.
Defined.

(** ** C5: which entries the primary pass selects *)

(** C5, as stated, fails: LIKE is not case-sensitive containment.  No
    meaning of [Sample.eating] contains "Eat" with that capital, yet the
    primary pass of the English query [Eat] selects entry 2 ("eating out")
    and the fallback is not run; and no value of the store contains "e_t",
    yet the primary pass of the query [e_t] selects entry 2 as well, the
    [_] standing for the "a" of "eating". *)
Lemma primary_pass_is_like_not_substring :
  detectQueryType (codes "Eat") = english
  /\ forallb (fun r => negb (substring (codes "Eat") (value r)))
       (rows Sample.eating meanings_table) = true
  /\ respond Index2.search Sample.eating (Some (QStr (codes "Eat"))) =
     (Ok (json [ [("id"%string, JNum 2);
                  ("kanji"%string,
                   JStr [0x5916; 0x98DF; 0x7523; 0x696D; 44; 0x98F2; 0x98DF]);
                  ("readings"%string, JNull);
                  ("meanings"%string, JStr (codes "eating out"))] ]),
      [Classified (codes "Eat");
       Executed (Select index2 english Primary) (primary_params english (codes "Eat"))])
  /\ detectQueryType (codes "e_t") = all
  /\ forallb (fun t =>
        forallb (fun r => negb (substring (codes "e_t") (value r)))
                (rows Sample.eating t))
       [kanji_table; readings_table; meanings_table] = true
  /\ returned_ids (respond Index2.search Sample.eating (Some (QStr (codes "e_t")))) = [2]
  /\ snd (respond Index2.search Sample.eating (Some (QStr (codes "e_t")))) =
     [Classified (codes "e_t");
      Executed (Select index2 all Primary) (primary_params all (codes "e_t"))].
Proof. repeat split. Qed.

(** C5 (amended): the primary pass selects exactly the entries of the store
    that own, in a searched table, a value matching [%query%] under LIKE;
    its rows are the first 50 of these entries in ORDER BY order, so all of
    them when fewer than 50 rows come back; and for a query without [%], a
    value matches exactly when the query occurs in it up to the case of
    ASCII letters, an [_] of the query standing for any one character. *)
Theorem primary_pass_selects_like (db : Store) (c : QueryType) (query : text)
    (rs : list Obj) :
  execute db (Select index2 c Primary) (primary_params c query) = Ok rs ->
  (forall e, In e (primary_candidates db c query) <->
     In e (entries db)
     /\ exists t, In t (tables c) /\ owns_like db t (contains query) e)
  /\ rs = map row (LIMIT 50 (ORDER_BY
             (map (ranked_group db c query) (primary_candidates db c query))))
  /\ (forall o, In o rs ->
        exists e, id_of o = Some e /\ In e (primary_candidates db c query))
  /\ ((List.length rs < 50)%nat ->
      forall e, In e (primary_candidates db c query) ->
        exists o, In o rs /\ id_of o = Some e)
  /\ (~ In 37 query ->
      forall v, like (contains query) v = true <-> like_substring query v).
Proof.
  intros H. apply execute_primary_ok in H. subst rs.
  unfold primary_candidates.
  split; [|split; [|split; [|split]]].
  - intros e. rewrite selected_ids_In, primary_ids_In. reflexivity.
  - now rewrite ranked_select_eq.
  - intros o Ho. apply in_map_iff in Ho as [r [<- Hr]].
    apply ranked_select_In in Hr as [e [He [Hids ->]]].
    exists e. split; [reflexivity|]. now apply selected_ids_In.
  - rewrite length_map. intros Hlen e He.
    exists (row (ranked_group db c query e)). split; [|reflexivity].
    apply in_map. rewrite ranked_select_eq in *.
    rewrite (LIMIT_short _ _ Hlen).
    apply (Permutation_in _ (Permutation_sym (ORDER_BY_perm _))).
    now apply in_map.
  - intros Hq v. now apply like_contains_iff.
Qed.

Lemma primary_pass_selects_like_witness :
  exists o,
    In o [ [("id"%string, JNum 2);
            ("kanji"%string,
             JStr [0x5916; 0x98DF; 0x7523; 0x696D; 44; 0x98F2; 0x98DF]);
            ("readings"%string, JNull);
            ("meanings"%string, JStr (codes "eating out"));
            ("match_type"%string, JNum 2)] ]
    /\ id_of o = Some 2.
Proof.
  assert (H : execute Sample.eating (Select index2 english Primary)
                (primary_params english (codes "Eat")) =
              Ok [ [("id"%string, JNum 2);
                    ("kanji"%string,
                     JStr [0x5916; 0x98DF; 0x7523; 0x696D; 44; 0x98F2; 0x98DF]);
                    ("readings"%string, JNull);
                    ("meanings"%string, JStr (codes "eating out"));
                    ("match_type"%string, JNum 2)] ]) by reflexivity.
  apply (proj1 (proj2 (proj2 (proj2 (primary_pass_selects_like _ _ _ _ H))))
           ltac:(simpl; lia) 2).
  vm_compute. auto.
Defined.

(** ** C4: searching for a stored value *)

Lemma rank_one_iff (query : text) (values : list text) :
  rank_of_values query values = 1 <-> In query values.
Proof.
  unfold rank_of_values.
  destruct (existsb (fun v => text_eqb v query) values) eqn:E.
  - split; [|reflexivity]. intros _.
    apply existsb_exists in E as [v [Hv He]]. apply text_eqb_eq in He. now subst.
  - split.
    + destruct (existsb (like (contains query)) values); intros H; discriminate H.
    + intros H. assert (E' : existsb (fun v => text_eqb v query) values = true).
      { apply existsb_exists. exists query. split; [exact H|]. now apply text_eqb_eq. }
      congruence.
Qed.

Lemma owned_values_one_field (db : Store) (c : QueryType) (t : Table) (e : Z) (v : text) :
  searched c = Some t ->
  (In v (owned_values db c e) <-> In v (field_values db t e)).
Proof.
  intros H. rewrite owned_values_In. unfold tables. rewrite H. split.
  - intros [t' [[<-|[]] Hv]]. exact Hv.
  - intros Hv. exists t. split; [now left | exact Hv].
Qed.

(** A rank-1 key is below a key only if that key has rank 1 too. *)
Lemma key_le_rank_one (r : Z) (x y : option Z) :
  1 <= r -> key_le (Some r, x) (Some 1, y) -> r = 1.
Proof.
  unfold key_le, key_leb, term_eqb, term_leb. simpl. intros Hr.
  destruct (Z.eqb_spec r 1); [auto|]. rewrite Z.leb_le. lia.
Qed.

(** C4, as stated, fails when several entries own the value: each of the 51
    entries of [Sample.many_owners] has the kanji form 食, and the query 食
    is answered with entries 1 to 50 in that order.  Entry 2 owns the value
    and is listed second; entry 51 owns it and is not listed. *)
Lemma owners_not_first_or_not_listed :
  detectQueryType Sample.shoku = kanji
  /\ In (Sample.mk 3 2 Sample.shoku) (rows Sample.many_owners kanji_table)
  /\ In 2 (entries Sample.many_owners)
  /\ In (Sample.mk 101 51 Sample.shoku) (rows Sample.many_owners kanji_table)
  /\ In 51 (entries Sample.many_owners)
  /\ returned_ids (respond Index2.search Sample.many_owners (Some (QStr Sample.shoku))) =
     map Z.of_nat (seq 1 50).
Proof.
  split; [reflexivity|].
  split; [vm_compute; tauto|].
  split; [vm_compute; tauto|].
  split; [vm_compute; tauto|].
  split; [vm_compute; tauto|].
  vm_compute. reflexivity.
Qed.

Lemma NoDup_map_section {A B : Type} (f : A -> B) (g : B -> option A)
    (l : list A) :
  (forall a, g (f a) = Some a) -> NoDup l -> NoDup (map f l).
Proof.
  intros Hg H. induction H as [|a l Hnot Hnd IH]; simpl; constructor; auto.
  intros Hin. apply in_map_iff in Hin as [a' [E Ha']].
  apply (f_equal g) in E. rewrite !Hg in E. injection E as ->. contradiction.
Qed.

(** Cutting a sorted list without repetition after [n] items: an item of
    the list is kept, or [n] other items, each before it, are. *)
Lemma firstn_cut {A : Type} (R : A -> A -> Prop) (n : nat) (l : list A) (y : A) :
  StronglySorted R l -> NoDup l -> In y l ->
  In y (firstn n l)
  \/ (List.length (firstn n l) = n
      /\ forall x, In x (firstn n l) -> x <> y /\ R x y).
Proof.
  intros Hs. revert n. induction Hs as [|a l Hs IH Hall]; intros n Hnd Hy.
  - destruct Hy.
  - destruct n as [|n]; [right; split; [reflexivity | intros x []]|].
    apply NoDup_cons_iff in Hnd as [Hnot Hnd].
    destruct Hy as [->|Hy]; [left; now left|].
    destruct (IH n Hnd Hy) as [Hin|[Hlen Hbelow]].
    + left. now right.
    + right. split; [simpl; now rewrite Hlen|].
      intros x [<-|Hx]; [|now apply Hbelow].
      split; [intros ->; contradiction|].
      rewrite Forall_forall in Hall. now apply Hall.
Qed.

Lemma ranked_groups_NoDup (db : Store) (c : QueryType) (query : text) (ids : list Z) :
  NoDup (ORDER_BY (map (ranked_group db c query) (selected_ids db ids))).
Proof.
  eapply Permutation_NoDup; [apply Permutation_sym, ORDER_BY_perm|].
  apply (NoDup_map_section _ (fun r => id_of (row r)));
    [reflexivity | apply selected_ids_NoDup].
Qed.

(** C4 (amended): when the query equals a value stored in the table its
    category searches, for an entry of the store, the primary pass answers
    200 with a non-empty list; its first entry has rank 1 and owns a value
    equal to the query; the owning entry has rank 1 wherever it is listed;
    and it is listed unless the list holds 50 entries, each of them of rank
    1 and another entry of the store that owns a value equal to the query
    (so it is listed whenever fewer than 50 rows come back).  The owning
    entry itself need not be first: other entries may own the value too. *)
Theorem exact_match_ranks_first (db : Store) (query : text) (t : Table) (r : Row) :
  searched (detectQueryType query) = Some t ->
  In r (rows db t) -> value r = query -> In (entry_id r) (entries db) ->
  failure db Primary = None ->
  let c := detectQueryType query in
  let args := [QStr query; QStr (37 :: query ++ [37]); QStr (37 :: query ++ [37])] in
  exists first rest,
    execute db (Select index2 c Primary) args = Ok (first :: rest)
    /\ respond Index2.search db (Some (QStr query)) =
       (Ok {| status := 200; body := JArr (map JObj (map strip (first :: rest))) |},
        [Classified query; Executed (Select index2 c Primary) args])
    /\ match_type_of first = Some 1
    /\ (exists e, id_of first = Some e /\ In query (field_values db t e))
    /\ (forall o, In o (first :: rest) -> id_of o = Some (entry_id r) ->
          match_type_of o = Some 1)
    /\ ((List.length (first :: rest) < 50)%nat ->
        exists o, In o (first :: rest) /\ id_of o = Some (entry_id r))
    /\ ((exists o, In o (first :: rest) /\ id_of o = Some (entry_id r))
        \/ (List.length (first :: rest) = 50%nat
            /\ forall o, In o (first :: rest) ->
                 match_type_of o = Some 1
                 /\ exists e, id_of o = Some e /\ e <> entry_id r
                      /\ In e (entries db) /\ In query (field_values db t e))).
Proof.
  intros Hc Hr Hv He Hf c args. fold c in Hc.
  assert (Hne : query <> []).
  { intros ->. unfold c in Hc. discriminate. }
  assert (Hargs : args = primary_params c query).
  { unfold args. destruct c; try reflexivity. discriminate Hc. }
  rewrite Hargs. clear Hargs args.
  set (ids := flat_map (fun t => entry_ids_like db t (contains query)) (tables c)).
  set (e0 := entry_id r).
  assert (Hown : In query (field_values db t e0))
    by (apply field_values_In; now exists r).
  assert (Hrank0 : rank_of_values query (owned_values db c e0) = 1)
    by (apply rank_one_iff; now apply (owned_values_one_field db c t)).
  assert (Hsel : In e0 (selected_ids db ids)).
  { apply selected_ids_In. split; [exact He|].
    apply primary_ids_In. exists t. split.
    - unfold tables. rewrite Hc. now left.
    - exists r. repeat split; auto. rewrite Hv. apply like_contains_self. }
  pose proof (execute_primary_runs db c query Hf) as Hex. fold ids in Hex.
  pose proof (ranked_select_eq db c query ids) as Heq.
  pose proof (ORDER_BY_sorted (map (ranked_group db c query) (selected_ids db ids)))
    as Hsorted.
  pose proof (ORDER_BY_perm (map (ranked_group db c query) (selected_ids db ids)))
    as Hperm.
  pose proof (ranked_groups_NoDup db c query ids) as Hnodup.
  assert (Hin0 : In (ranked_group db c query e0)
                   (ORDER_BY (map (ranked_group db c query) (selected_ids db ids)))).
  { apply (Permutation_in _ (Permutation_sym Hperm)). now apply in_map. }
  destruct (ORDER_BY (map (ranked_group db c query) (selected_ids db ids)))
    as [|f tl] eqn:Efull; [destruct Hin0|].
  assert (Hf_in : In f (map (ranked_group db c query) (selected_ids db ids))).
  { apply (Permutation_in _ Hperm). now left. }
  apply in_map_iff in Hf_in as [ef [Hef _]].
  destruct (ranked_group_key db c query ef) as [Hid_f [Hm_f [Hk_f _]]].
  rewrite Hef in Hid_f, Hm_f, Hk_f.
  destruct (ranked_group_key db c query e0) as [_ [Hm_0 [Hk_0 _]]].
  assert (Hbelow1 : forall x e,
            x = ranked_group db c query e ->
            key_le (sort_key x) (sort_key (ranked_group db c query e0)) ->
            rank_of_values query (owned_values db c e) = 1).
  { intros x e -> Hle.
    destruct (ranked_group_key db c query e) as [_ [_ [Hk _]]].
    destruct (sort_key (ranked_group db c query e)) as [k1 k2],
             (sort_key (ranked_group db c query e0)) as [z1 z2].
    simpl in Hk, Hk_0. subst k1 z1. rewrite Hrank0 in Hle.
    eapply key_le_rank_one; [|exact Hle]. apply rank_of_values_range. }
  assert (Hrank_f : rank_of_values query (owned_values db c ef) = 1).
  { destruct Hin0 as [E|Hin0'].
    - rewrite <- E in Hk_0. rewrite Hk_f in Hk_0. congruence.
    - apply (Hbelow1 f ef (eq_sym Hef)).
      apply StronglySorted_inv in Hsorted as [_ Hall].
      rewrite Forall_forall in Hall. now apply Hall. }
  change (LIMIT 50 (f :: tl)) with (f :: LIMIT 49 tl) in Heq.
  rewrite Heq in Hex. cbn [map] in Hex.
  exists (row f), (map row (LIMIT 49 tl)). split; [exact Hex|].
  split; [|split; [|split; [|split; [|split]]]].
  - rewrite (search_unfold db query Hne). cbv zeta. fold c. rewrite Hex. reflexivity.
  - rewrite Hm_f, Hk_f, Hrank_f. reflexivity.
  - exists ef. split; [exact Hid_f|].
    apply (owned_values_one_field db c t ef query Hc). now apply rank_one_iff.
  - intros o Ho Hid.
    change (row f :: map row (LIMIT 49 tl)) with (map row (f :: LIMIT 49 tl)) in Ho.
    rewrite <- Heq in Ho. apply in_map_iff in Ho as [x [<- Hx]].
    apply ranked_select_In in Hx as [e [_ [_ ->]]].
    destruct (ranked_group_key db c query e) as [Hid' [Hm' [Hk' _]]].
    rewrite Hid' in Hid. injection Hid as ->.
    rewrite Hm', Hk'. fold e0. rewrite Hrank0. reflexivity.
  - intros Hlen.
    change (row f :: map row (LIMIT 49 tl)) with (map row (LIMIT 50 (f :: tl))) in *.
    rewrite length_map in Hlen. rewrite (LIMIT_short _ _ Hlen).
    exists (row (ranked_group db c query e0)). split.
    + now apply in_map.
    + reflexivity.
  - change (row f :: map row (LIMIT 49 tl)) with (map row (LIMIT 50 (f :: tl))).
    destruct (firstn_cut _ 50 (f :: tl) _ Hsorted Hnodup Hin0) as [Hin|[Hlen Hbelow]].
    + left. exists (row (ranked_group db c query e0)). split; [|reflexivity].
      now apply in_map.
    + right. split; [rewrite length_map; exact Hlen|].
      intros o Ho. apply in_map_iff in Ho as [x [<- Hx]].
      destruct (Hbelow x Hx) as [Hdiff Hle].
      apply In_firstn in Hx. apply (Permutation_in _ Hperm) in Hx.
      apply in_map_iff in Hx as [e [Hx He']].
      assert (Hrank : rank_of_values query (owned_values db c e) = 1)
        by (apply (Hbelow1 x e (eq_sym Hx) Hle)).
      destruct (ranked_group_key db c query e) as [Hid' [Hm' [Hk' _]]].
      rewrite Hx in Hid', Hm', Hk'.
      split; [rewrite Hm', Hk', Hrank; reflexivity|].
      exists e. split; [exact Hid'|]. split; [|split].
      * intros ->. apply Hdiff. now rewrite <- Hx.
      * now apply selected_ids_In in He'.
      * apply (owned_values_one_field db c t e query Hc). now apply rank_one_iff.
Qed.

Lemma exact_match_ranks_first_witness :
  exists first rest,
    execute Sample.two_owners (Select index2 kanji Primary)
      [QStr Sample.shoku; QStr (37 :: Sample.shoku ++ [37]);
       QStr (37 :: Sample.shoku ++ [37])] = Ok (first :: rest)
    /\ respond Index2.search Sample.two_owners (Some (QStr Sample.shoku)) =
       (Ok {| status := 200; body := JArr (map JObj (map strip (first :: rest))) |},
        [Classified Sample.shoku;
         Executed (Select index2 kanji Primary)
           [QStr Sample.shoku; QStr (37 :: Sample.shoku ++ [37]);
            QStr (37 :: Sample.shoku ++ [37])]])
    /\ match_type_of first = Some 1
    /\ (exists e, id_of first = Some e
          /\ In Sample.shoku (field_values Sample.two_owners kanji_table e))
    /\ (forall o, In o (first :: rest) -> id_of o = Some 2 ->
          match_type_of o = Some 1)
    /\ ((List.length (first :: rest) < 50)%nat ->
        exists o, In o (first :: rest) /\ id_of o = Some 2)
    /\ ((exists o, In o (first :: rest) /\ id_of o = Some 2)
        \/ (List.length (first :: rest) = 50%nat
            /\ forall o, In o (first :: rest) ->
                 match_type_of o = Some 1
                 /\ exists e, id_of o = Some e /\ e <> 2
                      /\ In e (entries Sample.two_owners)
                      /\ In Sample.shoku (field_values Sample.two_owners kanji_table e))).
Proof.
  apply (exact_match_ranks_first Sample.two_owners Sample.shoku kanji_table
           (Sample.mk 2 2 Sample.shoku)).
  - reflexivity.
  - simpl. auto.
  - reflexivity.
  - simpl. auto.
  - reflexivity.
Defined.

(** ** C10: the ranked handler against the unranked one *)

Lemma strip_rows (db : Store) (c : QueryType) (query : text) (l : list Z) :
  map strip (map row (map (ranked_group db c query) l)) =
  map entry_columns (map (fun e => (e, joined db e)) l).
Proof. rewrite !map_map. apply map_ext. intros e. apply strip_ranked_group. Qed.

(** One pass of the two revisions, for a query that is a string or a
    one-item array of a string: the same failure, or, when the limit does
    not cut, the columns of the same entries in two orders. *)
Lemma pass_refines (db : Store) (c : QueryType) (p : Pass) (v : QValue)
    (query : text) :
  v = QStr query \/ v = QArr [QStr query] ->
  match execute db (Select index2 c p) (pass_args p c v),
        execute db (Select part_000 c p) (where_args c (where_pattern p query)) with
  | Throw m1, Throw m2 => m1 = m2
  | Ok rs1, Ok rs2 =>
      exists ids,
        where_in db c p (where_params c (where_pattern p query)) = Ok ids
        /\ ((List.length (selected_ids db ids) <= 50)%nat ->
            exists l,
              Permutation l (selected_ids db ids)
              /\ map strip rs1 = map (fun e => entry_columns (e, joined db e)) l
              /\ rs2 = map (fun e => entry_columns (e, joined db e))
                         (selected_ids db ids))
        /\ (rs1 = [] -> selected_ids db ids = [])
  | _, _ => False
  end.
Proof.
  intros Hv.
  assert (E : execute db (Select index2 c p) (pass_args p c v) =
              execute db (Select index2 c p) (pass_params p c query)).
  { destruct Hv as [-> | ->]; [reflexivity|]. destruct c, p; reflexivity. }
  rewrite E, execute_string, execute_plain.
  destruct (failure db p); [reflexivity|].
  unfold run. rewrite ranked_rows_pass. unfold plain_rows.
  destruct (where_in db c p _) as [ids|m]; [|reflexivity].
  exists ids. split; [reflexivity|]. split.
  - intros Hlen.
    destruct (Permutation_map_inv _ _
                (ORDER_BY_perm (map (ranked_group db c query) (selected_ids db ids))))
      as [l [El Hperm]].
    exists l. split; [now apply Permutation_sym|]. split.
    + rewrite ranked_select_eq, LIMIT_all, El.
      * rewrite strip_rows. now rewrite map_map.
      * rewrite (Permutation_length (ORDER_BY_perm _)), length_map. exact Hlen.
    + unfold select_plain, group_by_id.
      rewrite LIMIT_all by (now rewrite !length_map). now rewrite map_map.
  - rewrite ranked_select_eq. intros H. apply map_eq_nil in H.
    destruct (selected_ids db ids) as [|e l]; [reflexivity|].
    exfalso.
    assert (Hin : In (ranked_group db c query e)
                    (ORDER_BY (map (ranked_group db c query) (e :: l)))).
    { apply (Permutation_in _ (Permutation_sym (ORDER_BY_perm _))). now left. }
    destruct (ORDER_BY (map (ranked_group db c query) (e :: l))); [destruct Hin|].
    discriminate H.
Qed.

Lemma same_up_to_order_json (a b : list Obj) :
  Permutation a b -> same_up_to_order (json a) (json b).
Proof.
  intros H. split; [reflexivity|]. simpl. now apply Permutation_map.
Qed.

Lemma same_up_to_order_error (m : text) :
  same_up_to_order (search_error m) (search_error m).
Proof. split; reflexivity. Qed.

(** C10, as stated, fails for a repeated [q]: Express hands the handler the
    array of the values.  The ranked handler passes the array itself to the
    statement, the driver spreads it over two parameters each time, and the
    answer is 500, too many parameter values; the unranked handler passes
    template strings only, searches for the items joined by a comma, and
    answers 200 with the entry.  The store holds one entry. *)
Lemma repeated_q_answers_differ :
  (List.length (entries Sample.proverb) <= 50)%nat
  /\ fst (respond Index2.search Sample.proverb
            (Some (QArr [QStr (codes "eat"); QStr (codes " drink")]))) =
     Ok {| status := 500;
           body := JObj [("error"%string, JStr (codes "Database search error"));
                         ("details"%string,
                          JStr (codes "Too many parameter values were provided"))] |}
  /\ fst (respond Part000.search Sample.proverb
            (Some (QArr [QStr (codes "eat"); QStr (codes " drink")]))) =
     Ok {| status := 200;
           body := JArr [JObj [("id"%string, JNum 1);
                               ("kanji"%string, JNull);
                               ("readings"%string, JNull);
                               ("meanings"%string,
                                JStr (codes "eat, drink and be merry"))]] |}.
Proof. split; [simpl; lia|]. split; reflexivity. Qed.

(** C10 (amended): for every [q] that is a string, or a one-item array of a
    string, when the primary pass's candidate entries, and the fallback
    pass's when the primary pass finds none, are at most 50, the handler of
    [src/index2.js] and the earlier unranked handler answer with the same
    status and, on success, with arrays that are permutations of each
    other: both hold the objects [{id, kanji, readings, meanings}] of the
    entries that the WHERE subquery of the pass that answered selects, the
    unranked handler in ascending id, the ranked one in its own order. *)
Theorem ranked_refines_unranked (db : Store) (v : QValue) (query : text) :
  v = QStr query \/ v = QArr [QStr query] ->
  let c := detectQueryType query in
  (forall ids,
     where_in db c Primary (where_params c (contains query)) = Ok ids ->
     (List.length (selected_ids db ids) <= 50)%nat) ->
  (forall ids ids',
     where_in db c Primary (where_params c (contains query)) = Ok ids ->
     selected_ids db ids = [] ->
     where_in db c Fallback (where_params c (prefix query)) = Ok ids' ->
     (List.length (selected_ids db ids') <= 50)%nat) ->
  exists r1 r2,
    fst (respond Index2.search db (Some v)) = Ok r1
    /\ fst (respond Part000.search db (Some v)) = Ok r2
    /\ same_up_to_order r1 r2
    /\ (status r1 = 200 ->
        exists p ids l,
          where_in db c p
            (where_params c match p with
                            | Primary => 37 :: query ++ [37]
                            | Fallback => query ++ [42]
                            end) = Ok ids
          /\ Permutation l (selected_ids db ids)
          /\ body r1 = JArr (map (fun e => JObj (entry_columns (e, joined db e))) l)
          /\ body r2 = JArr (map (fun e => JObj (entry_columns (e, joined db e)))
                               (selected_ids db ids))).
Proof.
  intros Hv c H1 H2.
  assert (Hs : to_string v = query) by (destruct Hv as [-> | ->]; reflexivity).
  destruct (falsy (Some v)) eqn:Hf.
  { apply falsy_cases in Hf as [Hf|Hf]; [discriminate Hf|]. rewrite Hf.
    exists missing_query, missing_query. repeat split. discriminate. }
  rewrite (search_unfold_value db v Hf), (plain_unfold_value db v Hf).
  cbv zeta. rewrite Hs. fold c.
  pose proof (pass_refines db c Primary v query Hv) as P1.
  pose proof (pass_refines db c Fallback v query Hv) as P2.
  cbn [pass_args where_pattern] in P1, P2.
  destruct (execute db (Select index2 c Primary) _) as [rs1|m1];
    destruct (execute db (Select part_000 c Primary) _) as [rs2|m2];
    try contradiction.
  - destruct P1 as [ids [Hw [Hsame Hnil]]].
    destruct (Hsame (H1 ids Hw)) as [l [Hperm [E1 E2]]].
    destruct rs1 as [|r rs1].
    + assert (Hsel : selected_ids db ids = []) by (now apply Hnil).
      rewrite Hsel in E2. subst rs2.
      specialize (H2 ids).
      destruct (execute db (Select index2 c Fallback) _) as [fs1|n1];
        destruct (execute db (Select part_000 c Fallback) _) as [fs2|n2];
        try contradiction.
      * destruct P2 as [ids' [Hw' [Hsame' _]]].
        destruct (Hsame' (H2 ids' Hw Hsel Hw')) as [l' [Hperm' [F1 F2]]].
        do 2 eexists. split; [reflexivity|]. split; [reflexivity|]. split.
        -- apply same_up_to_order_json. rewrite F1, F2.
           now apply Permutation_map.
        -- intros _. exists Fallback, ids', l'.
           split; [exact Hw'|]. split; [exact Hperm'|].
           split; cbn [json body]; [rewrite F1 | rewrite F2];
             now rewrite map_map.
      * subst n2. do 2 eexists. split; [reflexivity|]. split; [reflexivity|].
        split; [apply same_up_to_order_error | discriminate].
    + destruct rs2 as [|r2 rs2].
      { symmetry in E2. apply map_eq_nil in E2. rewrite E2 in Hperm.
        apply Permutation_sym, Permutation_nil in Hperm. subst l.
        discriminate E1. }
      do 2 eexists. split; [reflexivity|]. split; [reflexivity|]. split.
      * apply same_up_to_order_json. rewrite E1, E2.
        now apply Permutation_map.
      * intros _. exists Primary, ids, l.
        split; [exact Hw|]. split; [exact Hperm|].
        split; cbn [json body]; [rewrite E1 | rewrite E2];
          now rewrite map_map.
  - subst m2. do 2 eexists. split; [reflexivity|]. split; [reflexivity|].
    split; [apply same_up_to_order_error | discriminate].
Qed.

Lemma ranked_refines_unranked_witness :
  exists r1 r2,
    fst (respond Index2.search Sample.eating (Some (QStr Sample.shoku))) = Ok r1
    /\ fst (respond Part000.search Sample.eating (Some (QStr Sample.shoku))) = Ok r2
    /\ same_up_to_order r1 r2
    /\ (status r1 = 200 ->
        exists p ids l,
          where_in Sample.eating kanji p
            (where_params kanji match p with
                                | Primary => 37 :: Sample.shoku ++ [37]
                                | Fallback => Sample.shoku ++ [42]
                                end) = Ok ids
          /\ Permutation l (selected_ids Sample.eating ids)
          /\ body r1 =
             JArr (map (fun e => JObj (entry_columns (e, joined Sample.eating e))) l)
          /\ body r2 =
             JArr (map (fun e => JObj (entry_columns (e, joined Sample.eating e)))
                     (selected_ids Sample.eating ids))).
Proof.
  apply (ranked_refines_unranked Sample.eating (QStr Sample.shoku) Sample.shoku).
  - now left.
  - intros ids H. injection H as <-. vm_compute. lia.
  - intros ids ids' H E. injection H as <-. discriminate E.
Defined.

(** ** C2: when the full-text fallback runs *)

Lemma entry_ids_match_In (db : Store) (t : Table) (pat : text) (ids : list Z) :
  entry_ids_match db t pat = Ok ids ->
  (exists rowids, fts_match db t pat = Ok rowids)
  /\ forall e, In e ids <-> owns_hit db t pat e.
Proof.
  unfold entry_ids_match, owns_hit.
  destruct (fts_match db t pat) as [rowids|m]; [|discriminate].
  intros H. inversion H; subst. split; [now exists rowids|].
  intros e. rewrite in_map_iff. split.
  - intros [r [He Hr]]. apply filter_In in Hr as [Hr Hm]. apply mem_spec in Hm.
    exists rowids, r. auto.
  - intros [rowids' [r [E [Hr [He Hm]]]]]. inversion E; subst rowids'.
    exists r. split; [exact He|]. apply filter_In. split; [exact Hr|].
    now apply mem_spec.
Qed.

Lemma where_in_fallback (db : Store) (c : QueryType) (w : text) (ids : list Z) :
  where_in db c Fallback (where_params c w) = Ok ids ->
  (forall t, In t (tables c) -> exists rowids, fts_match db t w = Ok rowids)
  /\ forall e, In e ids <-> exists t, In t (tables c) /\ owns_hit db t w e.
Proof.
  assert (One : forall t, entry_ids_match db t w = Ok ids ->
    (forall t', In t' [t] -> exists rowids, fts_match db t' w = Ok rowids)
    /\ forall e, In e ids <-> exists t', In t' [t] /\ owns_hit db t' w e).
  { intros t H. apply entry_ids_match_In in H as [Hok Hin]. split.
    - intros t' [<-|[]]. exact Hok.
    - intros e. rewrite Hin. split.
      + intros Ho. exists t. split; [now left | exact Ho].
      + intros [t' [[<-|[]] Ho]]. exact Ho. }
  destruct c; try (apply One).
  unfold where_in, where_params, tables. cbn [searched].
  destruct (entry_ids_match db kanji_table w) as [a|] eqn:Ea; [|discriminate].
  destruct (entry_ids_match db readings_table w) as [b|] eqn:Eb; [|discriminate].
  destruct (entry_ids_match db meanings_table w) as [d|] eqn:Ed; [|discriminate].
  intros H. inversion H; subst.
  apply entry_ids_match_In in Ea as [Hka Ha].
  apply entry_ids_match_In in Eb as [Hkb Hb].
  apply entry_ids_match_In in Ed as [Hkd Hd].
  split.
  - intros t [<-|[<-|[<-|[]]]]; assumption.
  - intros e. rewrite !in_app_iff, Ha, Hb, Hd. split.
    + intros [H1|[H1|H1]].
      * exists kanji_table. simpl. auto.
      * exists readings_table. simpl. auto.
      * exists meanings_table. simpl. auto.
    + intros [t [[<-|[<-|[<-|[]]]] H1]]; auto.
Qed.

(** C2: for a present query, the fallback statement is in the log exactly
    when the primary statement returned no row.  When the primary pass
    returns rows, it is the only statement executed and its rows, stripped,
    are the 200 response.  When it returns none, the log is the primary
    statement followed by one fallback statement, and the response is what
    that statement gives: its rows as a 200, or the 500 of its failure.
    The fallback statement is handed the query with [*] appended for its
    MATCH; when it answers, the index of every searched table accepted
    that expression, and its rows are the ranked rows of the entries that
    own a row the index of a searched table answered with.  The query is
    the string of [q]. *)
Theorem fallback_iff_primary_empty (db : Store) (v : QValue) :
  falsy (Some v) = false ->
  let query := to_string v in
  let c := detectQueryType query in
  let like_query := QStr (37 :: query ++ [37]) in
  let match_query := QStr (query ++ [42]) in
  let args1 :=
    match c with
    | all => [v; v; v; like_query; like_query; like_query;
              like_query; like_query; like_query; like_query; like_query]
    | _ => [v; like_query; like_query]
    end in
  let args2 :=
    match c with
    | all => [v; v; v; like_query; like_query; like_query;
              match_query; match_query; match_query; like_query; like_query]
    | _ => [v; like_query; match_query]
    end in
  let primary := Executed (Select index2 c Primary) args1 in
  let fallback := Executed (Select index2 c Fallback) args2 in
  let first := execute db (Select index2 c Primary) args1 in
  let second := execute db (Select index2 c Fallback) args2 in
  let answer rs := {| status := 200; body := JArr (map JObj (map strip rs)) |} in
  let error m :=
    {| status := 500;
       body := JObj [("error"%string, JStr (codes "Database search error"));
                     ("details"%string, JStr m)] |} in
  (In fallback (snd (respond Index2.search db (Some v))) <-> first = Ok [])
  /\ (forall rs, first = Ok rs -> rs <> [] ->
        respond Index2.search db (Some v) =
        (Ok (answer rs), [Classified query; primary]))
  /\ (first = Ok [] ->
        respond Index2.search db (Some v) =
        (Ok match second with
            | Ok rs => answer rs
            | Throw m => error m
            end,
         [Classified query; primary; fallback]))
  /\ (forall rs, second = Ok rs ->
        exists ids,
          where_in db c Fallback
            match c with
            | all => [query ++ [42]; query ++ [42]; query ++ [42]]
            | _ => [query ++ [42]]
            end = Ok ids
          /\ rs = map row (ranked_select db c query ids)
          /\ (forall t, In t (tables c) ->
                exists rowids, fts_match db t (query ++ [42]) = Ok rowids)
          /\ (forall e, In e ids <->
                exists t, In t (tables c) /\ owns_hit db t (query ++ [42]) e)).
Proof.
  intros Hv query c like_query match_query args1 args2 primary fallback
    first second answer error.
  pose proof (search_unfold_value db v Hv) as U. cbv zeta in U.
  change (Executed (Select index2 (detectQueryType (to_string v)) Primary)
            (primary_args (detectQueryType (to_string v)) v)) with primary in U.
  change (Executed (Select index2 (detectQueryType (to_string v)) Fallback)
            (fallback_args (detectQueryType (to_string v)) v)) with fallback in U.
  change (execute db (Select index2 (detectQueryType (to_string v)) Primary)
            (primary_args (detectQueryType (to_string v)) v)) with first in U.
  change (execute db (Select index2 (detectQueryType (to_string v)) Fallback)
            (fallback_args (detectQueryType (to_string v)) v)) with second in U.
  change (to_string v) with query in U.
  rewrite U. clear U.
  assert (Hdiff : primary <> fallback) by (unfold primary, fallback; congruence).
  assert (Hcls : Classified query <> fallback) by (unfold fallback; congruence).
  split; [split|split; [|split]].
  - destruct first as [[|r rs]|m]; [reflexivity| |];
      simpl; intros [H|[H|[]]]; congruence.
  - intros H. rewrite H. destruct second; simpl; auto.
  - intros rs H Hrs. rewrite H. destruct rs; [congruence | reflexivity].
  - intros H. rewrite H. destruct second; reflexivity.
  - intros rs H.
    change second with (execute db (Select index2 c Fallback) (pass_args Fallback c v))
      in H.
    apply execute_value_ok in H as [_ [ids [Hw ->]]].
    exists ids. split; [exact Hw|]. split; [reflexivity|].
    apply (where_in_fallback db c (prefix query) ids Hw).
Qed.

Lemma fallback_iff_primary_empty_witness :
  respond Index2.search Sample.two_words (Some (QStr (codes "eat to"))) =
  (Ok {| status := 200;
         body := JArr [JObj [("id"%string, JNum 1); ("kanji"%string, JNull);
                             ("readings"%string, JNull);
                             ("meanings"%string, JStr (codes "to eat"))]] |},
   [Classified (codes "eat to");
    Executed (Select index2 english Primary)
      [QStr (codes "eat to"); QStr (codes "%eat to%"); QStr (codes "%eat to%")];
    Executed (Select index2 english Fallback)
      [QStr (codes "eat to"); QStr (codes "%eat to%"); QStr (codes "eat to*")]]).
Proof.
  apply (proj1 (proj2 (proj2
           (fallback_iff_primary_empty Sample.two_words
              (QStr (codes "eat to")) eq_refl)))).
  reflexivity.
Defined.

(** * Further properties *)

(** ** The classifier, rule by rule *)

Lemma code_units_bmp (c : Z) : c < 0x10000 -> code_units c = [c].
Proof.
  intros H. unfold code_units. destruct (Z.ltb_spec c 0x10000); [reflexivity | lia].
Qed.

(** The two code units of a character beyond U+FFFF: the first is at least
    U+D800, the second lies in U+DC00..U+DFFF. *)
Lemma code_units_astral (c : Z) :
  0x10000 <= c ->
  exists hi lo, code_units c = [hi; lo] /\ 0xD800 <= hi /\ 0xDC00 <= lo <= 0xDFFF.
Proof.
  intros H. unfold code_units. destruct (Z.ltb_spec c 0x10000); [lia|].
  do 2 eexists. split; [reflexivity|]. split.
  - assert (0 <= Z.shiftr (c - 0x10000) 10) by (apply Z.shiftr_nonneg; lia). lia.
  - change 0x3FF with (Z.ones 10). rewrite Z.land_ones by lia.
    pose proof (Z.mod_pos_bound (c - 0x10000) (2 ^ 10) ltac:(lia)). lia.
Qed.

Lemma utf16_nil (q : text) : utf16 q = [] <-> q = [].
Proof.
  split; [|intros ->; reflexivity].
  destruct q as [|c q]; [reflexivity|]. unfold utf16. simpl.
  destruct (Z.ltb_spec c 0x10000) as [H|H].
  - rewrite (code_units_bmp c H). discriminate.
  - destruct (code_units_astral c H) as [hi [lo [-> _]]]. discriminate.
Qed.

(** A class of characters below U+D800 is met by a code unit of the string
    exactly when it is met by a character of the string. *)
Lemma test_some_iff (cls : Z -> bool) (q : text) :
  (forall u, cls u = true -> u < 0xD800) ->
  (test_some cls q = true <-> exists c, In c q /\ cls c = true).
Proof.
  intros Hcls. unfold test_some, utf16. rewrite existsb_exists. split.
  - intros [u [Hu Hc]]. apply in_flat_map in Hu as [c [Hin Hu]].
    destruct (Z.ltb_spec c 0x10000) as [H|H].
    + rewrite (code_units_bmp c H) in Hu. destruct Hu as [<-|[]]. now exists c.
    + destruct (code_units_astral c H) as [hi [lo [E [Hhi Hlo]]]].
      rewrite E in Hu. apply Hcls in Hc.
      destruct Hu as [<-|[<-|[]]]; lia.
  - intros [c [Hin Hc]]. exists c. split; [|exact Hc].
    apply in_flat_map. exists c. split; [exact Hin|].
    rewrite code_units_bmp; [now left|]. apply Hcls in Hc. lia.
Qed.

(** A class of characters of the BMP outside U+DC00..U+DFFF holds of every
    code unit of the string exactly when it holds of every character. *)
Lemma test_only_iff (cls : Z -> bool) (q : text) :
  (forall u, cls u = true -> u < 0x10000 /\ (u < 0xDC00 \/ 0xDFFF < u)) ->
  (test_only cls q = true <-> q <> [] /\ forall c, In c q -> cls c = true).
Proof.
  intros Hcls. unfold test_only.
  assert (Hall : forallb cls (utf16 q) = true <-> forall c, In c q -> cls c = true).
  { rewrite forallb_forall. unfold utf16. split.
    - intros H c Hin.
      destruct (Z.ltb_spec c 0x10000) as [Hc|Hc].
      + apply H. apply in_flat_map. exists c. split; [exact Hin|].
        rewrite code_units_bmp by exact Hc. now left.
      + destruct (code_units_astral c Hc) as [hi [lo [E [Hhi Hlo]]]].
        assert (Hl : cls lo = true).
        { apply H. apply in_flat_map. exists c. split; [exact Hin|].
          rewrite E. right. now left. }
        apply Hcls in Hl. lia.
    - intros H u Hu. apply in_flat_map in Hu as [c [Hin Hu]].
      specialize (H c Hin). destruct (Hcls c H) as [Hc _].
      rewrite code_units_bmp in Hu by exact Hc. destruct Hu as [<-|[]]. exact H. }
  destruct (utf16 q) as [|u us] eqn:E.
  - apply (proj1 (utf16_nil q)) in E. subst q. split; [discriminate | intros [H _]; congruence].
  - rewrite Hall. split.
    + intros H. split; [|exact H]. intros ->. discriminate E.
    + intros [_ H]. exact H.
Qed.

Lemma kanji_class_range (u : Z) : kanji_class u = true <-> 0x4E00 <= u <= 0x9FAF.
Proof. apply between_spec. Qed.

Lemma kana_class_range (u : Z) : kana_class u = true <-> 0x3040 <= u <= 0x30FF.
Proof.
  unfold kana_class. rewrite orb_true_iff, between_spec, Z.eqb_eq. lia.
Qed.

Lemma english_class_bound (u : Z) :
  english_class u = true -> u < 0x10000 /\ (u < 0xDC00 \/ 0xDFFF < u).
Proof.
  unfold english_class, regexp_space.
  rewrite !orb_true_iff, !between_spec, !Z.eqb_eq. lia.
Qed.

(** X1: a query is classified [kanji] exactly when one of its characters
    lies in U+4E00..U+9FAF. *)
Theorem detect_kanji_iff (query : text) :
  detectQueryType query = kanji <->
  exists c, In c query /\ 0x4E00 <= c <= 0x9FAF.
Proof.
  assert (H : test_some kanji_class query = true <->
              exists c, In c query /\ 0x4E00 <= c <= 0x9FAF).
  { rewrite test_some_iff.
    - split; intros [c [Hin Hc]]; exists c; split; auto; now apply kanji_class_range.
    - intros u Hu. apply kanji_class_range in Hu. lia. }
  unfold detectQueryType. destruct (test_some kanji_class query).
  - split; [intros _; now apply H | reflexivity].
  - split.
    + destruct (test_only kana_class query); [discriminate|].
      destruct (test_only english_class query); discriminate.
    + intros Hc. apply H in Hc. discriminate.
Qed.

Lemma no_kanji_iff (query : text) :
  test_some kanji_class query = false <->
  forall c, In c query -> ~ 0x4E00 <= c <= 0x9FAF.
Proof.
  assert (H : test_some kanji_class query = true <->
              exists c, In c query /\ kanji_class c = true).
  { apply test_some_iff. intros u Hu. apply kanji_class_range in Hu. lia. }
  split.
  - intros E c Hin Hc. rewrite E in H.
    assert (false = true); [|discriminate].
    apply H. exists c. split; [exact Hin | now apply kanji_class_range].
  - intros Hno. destruct (test_some kanji_class query); [|reflexivity].
    destruct (proj1 H eq_refl) as [c [Hin Hc]].
    apply kanji_class_range in Hc. now apply Hno in Hc.
Qed.

Lemma only_kana_iff (query : text) :
  test_only kana_class query = true <->
  query <> [] /\ forall c, In c query -> 0x3040 <= c <= 0x30FF.
Proof.
  rewrite test_only_iff.
  - split; intros [Hne H]; split; auto; intros c Hc; now apply kana_class_range, H.
  - intros u Hu. apply kana_class_range in Hu. lia.
Qed.

Lemma english_class_chars (c : Z) :
  english_class c = true ->
  c <> 37 /\ c <> 95 /\ ~ 0x3040 <= c <= 0x30FF /\ ~ 0x4E00 <= c <= 0x9FAF.
Proof.
  unfold english_class, regexp_space.
  rewrite !orb_true_iff, !between_spec, !Z.eqb_eq. lia.
Qed.

(** What the classifier's answer says of the characters of the query. *)
Lemma kana_query_chars (query : text) :
  detectQueryType query = kana ->
  query <> [] /\ forall c, In c query -> 0x3040 <= c <= 0x30FF.
Proof.
  unfold detectQueryType.
  destruct (test_some kanji_class query); [discriminate|].
  destruct (test_only kana_class query) eqn:E.
  - intros _. now apply only_kana_iff.
  - destruct (test_only english_class query); discriminate.
Qed.

Lemma english_query_chars (query : text) :
  detectQueryType query = english ->
  query <> [] /\ forall c, In c query -> english_class c = true.
Proof.
  unfold detectQueryType.
  destruct (test_some kanji_class query); [discriminate|].
  destruct (test_only kana_class query); [discriminate|].
  destruct (test_only english_class query) eqn:E; [|discriminate].
  intros _. now apply (test_only_iff english_class query english_class_bound).
Qed.

(** X2: a query is classified [kana] exactly when it is not empty and all
    its characters lie in U+3040..U+30FF, the hiragana and katakana blocks
    (the prolonged sound mark is one of them). *)
Theorem detect_kana_iff (query : text) :
  detectQueryType query = kana <->
  query <> [] /\ forall c, In c query -> 0x3040 <= c <= 0x30FF.
Proof.
  split; [apply kana_query_chars|].
  intros [Hne Hall]. unfold detectQueryType.
  assert (Ek : test_some kanji_class query = false).
  { apply no_kanji_iff. intros c Hin. specialize (Hall c Hin). lia. }
  assert (Ea : test_only kana_class query = true) by now apply only_kana_iff.
  now rewrite Ek, Ea.
Qed.

(** X3: a query is classified [english] exactly when it is not empty and
    each of its characters is an ASCII letter or a white-space character of
    [\s]; a query of blanks only is therefore [english]. *)
Theorem detect_english_iff (query : text) :
  detectQueryType query = english <->
  query <> [] /\ forall c, In c query -> english_class c = true.
Proof.
  split; [apply english_query_chars|].
  intros [Hne Hall]. unfold detectQueryType.
  assert (Ek : test_some kanji_class query = false).
  { apply no_kanji_iff. intros c Hin. apply Hall, english_class_chars in Hin. tauto. }
  assert (Ea : test_only kana_class query = false).
  { destruct (test_only kana_class query) eqn:E; [|reflexivity].
    apply only_kana_iff in E as [_ Hk].
    destruct query as [|c query]; [congruence|].
    specialize (Hk c (or_introl eq_refl)).
    specialize (Hall c (or_introl eq_refl)). apply english_class_chars in Hall. tauto. }
  assert (Ee : test_only english_class query = true)
    by now apply (test_only_iff english_class query english_class_bound).
  now rewrite Ek, Ea, Ee.
Qed.

(** ** What LIKE amounts to for kana and for English queries *)

Lemma like_percent_any (s : text) : like [37] s = true.
Proof.
  apply like_percent_iff. exists s, []. split; [now rewrite app_nil_r | reflexivity].
Qed.

(** A pattern character that is neither a wildcard nor an ASCII letter
    matches itself only. *)
Lemma like_char_exact (p c : Z) :
  p <> 95 -> ~ 65 <= p <= 90 -> ~ 97 <= p <= 122 ->
  like_char p c = (p =? c).
Proof.
  intros H95 Hup Hlo. unfold like_char, lower.
  destruct (Z.eqb_spec p 95); [contradiction|]. simpl.
  destruct (between 65 90 p) eqn:Ep; [apply between_spec in Ep; lia|].
  destruct (between 65 90 c) eqn:Ec.
  - apply between_spec in Ec.
    destruct (Z.eqb_spec p (c + 32)); destruct (Z.eqb_spec p c); try reflexivity; lia.
  - reflexivity.
Qed.

Lemma like_exact_prefix (q s : text) :
  (forall p, In p q ->
     p <> 37 /\ p <> 95 /\ ~ 65 <= p <= 90 /\ ~ 97 <= p <= 122) ->
  like (q ++ [37]) s = starts_with q s.
Proof.
  revert s. induction q as [|p q IH]; intros s Hq.
  - simpl app. rewrite like_percent_any. reflexivity.
  - destruct (Hq p (or_introl eq_refl)) as [H37 [H95 [Hup Hlo]]].
    change ((p :: q) ++ [37]) with (p :: (q ++ [37])).
    destruct s as [|c s].
    + now rewrite like_cons_nil.
    + rewrite like_cons by exact H37.
      rewrite like_char_exact by assumption.
      rewrite IH; [reflexivity|]. intros p' Hp'. apply Hq. now right.
Qed.

Lemma like_contains_exact (q v : text) :
  (forall p, In p q ->
     p <> 37 /\ p <> 95 /\ ~ 65 <= p <= 90 /\ ~ 97 <= p <= 122) ->
  like (contains q) v = substring q v.
Proof.
  intros Hq. unfold contains.
  change ([37] ++ q ++ [37]) with (37 :: (q ++ [37])).
  induction v as [|c v IH]; rewrite like_percent, like_exact_prefix by exact Hq.
  - reflexivity.
  - rewrite IH. reflexivity.
Qed.

Lemma like_chars_caseless (q mid : text) :
  ~ In 95 q ->
  (Forall2 (fun p c => like_char p c = true) q mid <-> map lower mid = map lower q).
Proof.
  revert mid. induction q as [|p q IH]; intros mid Hq.
  - split.
    + intros H. inversion H. reflexivity.
    + intros H. destruct mid; [constructor | discriminate].
  - assert (Hp : p <> 95) by (intros ->; apply Hq; now left).
    assert (Hq' : ~ In 95 q) by (intros H; apply Hq; now right).
    assert (Hc : forall c, like_char p c = true <-> lower c = lower p).
    { intros c. unfold like_char. destruct (Z.eqb_spec p 95); [contradiction|].
      simpl. rewrite Z.eqb_eq. split; congruence. }
    split.
    + intros H. inversion H as [|? c ? mid' Hpc Hrest]; subst. simpl.
      f_equal; [now apply Hc | now apply IH].
    + intros H. destruct mid as [|c mid]; [discriminate|].
      simpl in H. inversion H. constructor; [now apply Hc | now apply IH].
Qed.

Lemma like_contains_caseless (q v : text) :
  ~ In 37 q -> ~ In 95 q ->
  (like (contains q) v = true <-> caseless_substring q v).
Proof.
  intros H37 H95. rewrite (like_contains_iff q v H37).
  unfold like_substring, caseless_substring.
  split; intros [pre [mid [post [E H]]]]; exists pre, mid, post; split; auto;
    now apply (like_chars_caseless q mid H95).
Qed.

Lemma primary_candidates_one_field (db : Store) (c : QueryType) (t : Table)
    (query : text) (e : Z) :
  searched c = Some t ->
  (In e (primary_candidates db c query) <->
   In e (entries db) /\ owns_like db t (contains query) e).
Proof.
  intros Hc. unfold primary_candidates.
  rewrite selected_ids_In, primary_ids_In. unfold tables. rewrite Hc. split.
  - intros [He [t' [[<-|[]] H]]]. now split.
  - intros [He H]. split; [exact He|]. exists t. split; [now left | exact H].
Qed.

(** X4: a kana query is searched for as it stands.  For a query classified
    [kana], LIKE '%query%' is plain containment character for character,
    and the primary pass selects exactly the entries of the store with a
    reading that contains the query. *)
Theorem kana_search_is_containment (db : Store) (query : text) :
  detectQueryType query = kana ->
  (forall v, like (contains query) v = substring query v)
  /\ (forall e, In e (primary_candidates db kana query) <->
        In e (entries db)
        /\ exists r, In r (rows db readings_table) /\ entry_id r = e
                     /\ substring query (value r) = true).
Proof.
  intros Hk. apply kana_query_chars in Hk as [_ Hall].
  assert (Hq : forall p, In p query ->
                 p <> 37 /\ p <> 95 /\ ~ 65 <= p <= 90 /\ ~ 97 <= p <= 122).
  { intros p Hp. specialize (Hall p Hp). lia. }
  split.
  - intros v. now apply like_contains_exact.
  - intros e. rewrite (primary_candidates_one_field db kana readings_table) by reflexivity.
    unfold owns_like. split.
    + intros [He [r [Hr [Hid Hl]]]]. split; [exact He|]. exists r.
      rewrite like_contains_exact in Hl by exact Hq. auto.
    + intros [He [r [Hr [Hid Hl]]]]. split; [exact He|]. exists r.
      rewrite like_contains_exact by exact Hq. auto.
Qed.

(** たべ in たべもの *)
Lemma kana_search_is_containment_witness :
  like (contains [0x305F; 0x3079]) [0x305F; 0x3079; 0x3082; 0x306E]
  = substring [0x305F; 0x3079] [0x305F; 0x3079; 0x3082; 0x306E].
Proof.
  apply (proj1 (kana_search_is_containment Sample.eating [0x305F; 0x3079] eq_refl)).
Defined.

(** X5: an English query is searched for without regard to the case of its
    letters.  For a query classified [english], a value matches
    LIKE '%query%' exactly when the query occurs in it up to the case of
    ASCII letters, and the primary pass selects exactly the entries of the
    store with such a meaning. *)
Theorem english_search_folds_case (db : Store) (query : text) :
  detectQueryType query = english ->
  (forall v, like (contains query) v = true <-> caseless_substring query v)
  /\ (forall e, In e (primary_candidates db english query) <->
        In e (entries db)
        /\ exists r, In r (rows db meanings_table) /\ entry_id r = e
                     /\ caseless_substring query (value r)).
Proof.
  intros He. apply english_query_chars in He as [_ Hall].
  assert (H37 : ~ In 37 query)
    by (intros H; apply Hall, english_class_chars in H; tauto).
  assert (H95 : ~ In 95 query)
    by (intros H; apply Hall, english_class_chars in H; tauto).
  split.
  - intros v. now apply like_contains_caseless.
  - intros e.
    rewrite (primary_candidates_one_field db english meanings_table) by reflexivity.
    unfold owns_like. split.
    + intros [Hin [r [Hr [Hid Hl]]]]. split; [exact Hin|]. exists r.
      apply (like_contains_caseless query _ H37 H95) in Hl. auto.
    + intros [Hin [r [Hr [Hid Hl]]]]. split; [exact Hin|]. exists r.
      apply (like_contains_caseless query _ H37 H95) in Hl. auto.
Qed.

Lemma english_search_folds_case_witness :
  like (contains (codes "Eat")) (codes "eating out") = true
  <-> caseless_substring (codes "Eat") (codes "eating out").
Proof.
  apply (proj1 (english_search_folds_case Sample.eating (codes "Eat") eq_refl)).
Defined.

(** ** The fallback pass *)

Lemma ranked_select_nil (db : Store) (c : QueryType) (query : text) (ids : list Z) :
  ranked_select db c query ids = [] -> selected_ids db ids = [].
Proof.
  rewrite ranked_select_eq. intros H.
  destruct (selected_ids db ids) as [|e l]; [reflexivity|]. exfalso.
  assert (Hin : In (ranked_group db c query e)
                  (ORDER_BY (map (ranked_group db c query) (e :: l)))).
  { apply (Permutation_in _ (Permutation_sym (ORDER_BY_perm _))). now left. }
  destruct (ORDER_BY (map (ranked_group db c query) (e :: l))); [destruct Hin|].
  discriminate H.
Qed.

(** An entry of rank 1 or 2 owns a value that matches [%query%]. *)
Lemma rank_below_3_owns_like (db : Store) (c : QueryType) (query : text) (e : Z) :
  rank_of_values query (owned_values db c e) <> 3 ->
  exists t, In t (tables c) /\ owns_like db t (contains query) e.
Proof.
  unfold rank_of_values. intros H.
  assert (Hv : exists v, In v (owned_values db c e) /\ like (contains query) v = true).
  { destruct (existsb (fun v => text_eqb v query) (owned_values db c e)) eqn:E1.
    - apply existsb_exists in E1 as [v [Hv He]]. apply text_eqb_eq in He. subst v.
      exists query. split; [exact Hv | apply like_contains_self].
    - destruct (existsb (like (contains query)) (owned_values db c e)) eqn:E2.
      + apply existsb_exists in E2 as [v [Hv Hl]]. now exists v.
      + congruence. }
  destruct Hv as [v [Hv Hl]].
  apply owned_values_In in Hv as [t [Ht Hv]].
  apply field_values_In in Hv as [r [Hr [He Hval]]].
  exists t. split; [exact Ht|]. exists r. repeat split; auto. now rewrite Hval.
Qed.

(** X6: the ranking is idle in the fallback pass.  Whenever the primary
    statement returned no row, every row of the fallback statement, in any
    category, has [match_type] 3, so that the fallback rows are in effect
    ordered by the second ORDER BY term alone. *)
Theorem fallback_rows_have_rank_3 (db : Store) (c : QueryType) (query : text)
    (rs : list Obj) (o : Obj) :
  execute db (Select index2 c Primary) (primary_params c query) = Ok [] ->
  execute db (Select index2 c Fallback) (fallback_params c query) = Ok rs ->
  In o rs ->
  match_type_of o = Some 3.
Proof.
  intros H1 H2 Ho.
  apply execute_primary_ok in H1. symmetry in H1.
  apply map_eq_nil, ranked_select_nil in H1.
  apply (execute_pass_ok db c Fallback) in H2 as [_ [ids [_ ->]]].
  apply in_map_iff in Ho as [r [<- Hr]].
  apply ranked_select_In in Hr as [e [He [_ ->]]].
  destruct (ranked_group_key db c query e) as [_ [Hm [Hk _]]].
  rewrite Hm, Hk. f_equal.
  destruct (Z.eq_dec (rank_of_values query (owned_values db c e)) 3) as [E|E];
    [exact E|].
  exfalso. apply rank_below_3_owns_like in E.
  assert (Hin : In e (selected_ids db
            (flat_map (fun t => entry_ids_like db t (contains query)) (tables c)))).
  { apply selected_ids_In. split; [exact He | now apply primary_ids_In]. }
  rewrite H1 in Hin. destruct Hin.
Qed.

Lemma fallback_rows_have_rank_3_witness :
  match_type_of
    [("id"%string, JNum 1); ("kanji"%string, JNull); ("readings"%string, JNull);
     ("meanings"%string, JStr (codes "to eat")); ("match_type"%string, JNum 3)]
  = Some 3.
Proof.
  eapply (fallback_rows_have_rank_3 Sample.word_order english (codes "eat to")).
  - reflexivity.
  - reflexivity.
  - left. reflexivity.
Defined.

Lemma execute_primary_with_index (db : Store)
    (fts : Table -> text -> result (list Z)) (c : QueryType) (query : text) :
  execute (with_index db fts) (Select index2 c Primary) (primary_params c query) =
  execute db (Select index2 c Primary) (primary_params c query).
Proof. destruct c; reflexivity. Qed.

(** X7: the primary pass never consults the full-text index.  The primary
    statement returns the same rows whatever the index answers, and when it
    returns at least one row the whole response and the log are the same
    whatever the index answers, an index that rejects every expression
    included. *)
Theorem primary_ignores_index (db : Store)
    (fts : Table -> text -> result (list Z)) (query : text) :
  let c := detectQueryType query in
  execute (with_index db fts) (Select index2 c Primary) (primary_params c query) =
  execute db (Select index2 c Primary) (primary_params c query)
  /\ (forall r rs,
        execute db (Select index2 c Primary) (primary_params c query) = Ok (r :: rs) ->
        respond Index2.search (with_index db fts) (Some (QStr query)) =
        respond Index2.search db (Some (QStr query))).
Proof.
  intros c. split; [apply execute_primary_with_index|].
  intros r rs H.
  destruct query as [|ch query]; [reflexivity|].
  assert (Hne : ch :: query <> []) by discriminate.
  rewrite !(search_unfold _ _ Hne). cbv zeta. fold c.
  rewrite execute_primary_with_index, H. reflexivity.
Qed.

Lemma primary_ignores_index_witness :
  respond Index2.search
    (with_index Sample.eating (fun _ _ => Throw (codes "fts5: syntax error")))
    (Some (QStr Sample.shoku)) =
  respond Index2.search Sample.eating (Some (QStr Sample.shoku)).
Proof.
  eapply (proj2 (primary_ignores_index Sample.eating _ Sample.shoku)).
  reflexivity.
Defined.

(** X8: what the fallback pass returns.  When the fallback statement
    answers, the index of every searched table accepted the expression
    [query*] (in the Mixed category one rejection fails the whole pass);
    each row is an entry of the store owning a row that the index of a
    searched table answered with; and when fewer than 50 rows come back,
    every such entry is among them. *)
Theorem fallback_selects_index_hits (db : Store) (c : QueryType) (query : text)
    (rs : list Obj) :
  execute db (Select index2 c Fallback) (fallback_params c query) = Ok rs ->
  (forall t, In t (tables c) ->
     exists rowids, fts_match db t (prefix query) = Ok rowids)
  /\ (forall o, In o rs ->
        exists e, id_of o = Some e /\ In e (entries db)
          /\ exists t, In t (tables c) /\ owns_hit db t (prefix query) e)
  /\ ((List.length rs < 50)%nat ->
      forall e t, In e (entries db) -> In t (tables c) ->
        owns_hit db t (prefix query) e ->
        exists o, In o rs /\ id_of o = Some e).
Proof.
  intros H. apply (execute_pass_ok db c Fallback) in H as [_ [ids [Hw ->]]].
  simpl where_pattern in Hw. apply where_in_fallback in Hw as [Hok Hids].
  split; [exact Hok|]. split.
  - intros o Ho. apply in_map_iff in Ho as [r [<- Hr]].
    apply ranked_select_In in Hr as [e [He [Hin ->]]].
    exists e. split; [reflexivity|]. split; [exact He|]. now apply Hids.
  - rewrite length_map. intros Hlen e t He Ht Hown.
    exists (row (ranked_group db c query e)). split; [|reflexivity].
    apply in_map. rewrite ranked_select_eq in *.
    rewrite (LIMIT_short _ _ Hlen).
    apply (Permutation_in _ (Permutation_sym (ORDER_BY_perm _))).
    apply in_map, selected_ids_In. split; [exact He|].
    apply Hids. now exists t.
Qed.

Lemma fallback_selects_index_hits_witness :
  exists rowids,
    fts_match Sample.word_order meanings_table (prefix (codes "eat to")) = Ok rowids.
Proof.
  eapply (proj1 (fallback_selects_index_hits Sample.word_order english
                   (codes "eat to") _ eq_refl)).
  left. reflexivity.
Defined.

(** ** The status of a response *)

(** X9: the handler always answers, with 400, 500 or 200, and runs at most
    two statements.  The status is 400 exactly when [q] is absent or empty;
    it is 500 exactly when the last statement run threw, the response then
    carrying its message; it is 200 exactly when the last statement run
    returned rows, the response then being these rows without
    [match_type].  No string is rejected for its content: blanks, [%], [_],
    [*] or quotes go to the store as they are. *)
Theorem status_cases (db : Store) (q : option QValue) :
  exists resp log,
    respond Index2.search db q = (Ok resp, log)
    /\ (List.length (executed log) <= 2)%nat
    /\ (status resp = 400 <-> q = None \/ q = Some (QStr []))
    /\ (status resp = 500 <->
        exists before s params m,
          executed log = before ++ [(s, params)]
          /\ execute db s params = Throw m /\ resp = search_error m)
    /\ (status resp = 200 <->
        exists before s params rows,
          executed log = before ++ [(s, params)]
          /\ execute db s params = Ok rows /\ resp = json (map strip rows)).
Proof.
  destruct (falsy q) eqn:Hf.
  { assert (Hq := proj1 (falsy_cases q) Hf).
    rewrite (respond_falsy Index2.search db q (or_introl eq_refl) Hf).
    exists missing_query, []. split; [reflexivity|]. split; [simpl; lia|].
    split; [split; auto|].
    split; (split; [discriminate|]);
      intros [before [s [params [x [E _]]]]];
      simpl in E; symmetry in E; apply app_eq_nil in E as [_ E]; discriminate E. }
  destruct q as [v|]; [|discriminate Hf].
  rewrite (search_unfold_value db v Hf). cbv zeta.
  set (c := detectQueryType (to_string v)).
  set (p1 := primary_args c v).
  set (p2 := fallback_args c v).
  assert (Hq : ~ (Some v = None \/ Some v = Some (QStr [])))
    by (intros H; apply falsy_cases in H; congruence).
  assert (Last1 : forall before s params,
            [(Select index2 c Primary, p1)] = before ++ [(s, params)] ->
            s = Select index2 c Primary /\ params = p1).
  { intros before s params E.
    destruct before as [|x [|y before]]; simpl in E; inversion E; auto;
      destruct before; discriminate. }
  assert (Last2 : forall before s params,
            [(Select index2 c Primary, p1); (Select index2 c Fallback, p2)]
            = before ++ [(s, params)] ->
            s = Select index2 c Fallback /\ params = p2).
  { intros before s params E.
    destruct before as [|x [|y [|z before]]]; simpl in E; inversion E; auto;
      destruct before; discriminate. }
  destruct (execute db (Select index2 c Primary) p1) as [[|r rs]|m] eqn:E1.
  - destruct (execute db (Select index2 c Fallback) p2) as [rs'|m'] eqn:E2.
    + exists (json (map strip rs')). eexists. split; [reflexivity|].
      split; [simpl; lia|]. split; [split; [discriminate | tauto]|]. split.
      * split; [discriminate|].
        intros [before [s [params [m [E [Hx _]]]]]].
        apply Last2 in E as [-> ->]. congruence.
      * split; [|reflexivity]. intros _.
        exists [(Select index2 c Primary, p1)], (Select index2 c Fallback), p2, rs'.
        auto.
    + exists (search_error m'). eexists. split; [reflexivity|].
      split; [simpl; lia|]. split; [split; [discriminate | tauto]|]. split.
      * split; [|reflexivity]. intros _.
        exists [(Select index2 c Primary, p1)], (Select index2 c Fallback), p2, m'.
        auto.
      * split; [discriminate|].
        intros [before [s [params [rows [E [Hx _]]]]]].
        apply Last2 in E as [-> ->]. congruence.
  - exists (json (map strip (r :: rs))). eexists. split; [reflexivity|].
    split; [simpl; lia|]. split; [split; [discriminate | tauto]|]. split.
    + split; [discriminate|].
      intros [before [s [params [m [E [Hx _]]]]]].
      apply Last1 in E as [-> ->]. congruence.
    + split; [|reflexivity]. intros _.
      exists [], (Select index2 c Primary), p1, (r :: rs). auto.
  - exists (search_error m). eexists. split; [reflexivity|].
    split; [simpl; lia|]. split; [split; [discriminate | tauto]|]. split.
    + split; [|reflexivity]. intros _.
      exists [], (Select index2 c Primary), p1, m. auto.
    + split; [discriminate|].
      intros [before [s [params [rows [E [Hx _]]]]]].
      apply Last1 in E as [-> ->]. congruence.
Qed.

(** ** Selection across categories *)

(** X10: the Mixed selection is the union of the three one-field
    selections.  For one and the same string, the entries the primary pass
    of the [all] category selects are those that the kanji, the kana or the
    English primary pass would select. *)
Theorem mixed_candidates_are_union (db : Store) (query : text) (e : Z) :
  In e (primary_candidates db all query) <->
  In e (primary_candidates db kanji query)
  \/ In e (primary_candidates db kana query)
  \/ In e (primary_candidates db english query).
Proof.
  rewrite (primary_candidates_one_field db kanji kanji_table) by reflexivity.
  rewrite (primary_candidates_one_field db kana readings_table) by reflexivity.
  rewrite (primary_candidates_one_field db english meanings_table) by reflexivity.
  unfold primary_candidates. rewrite selected_ids_In, primary_ids_In. split.
  - intros [He [t [Ht H]]]. destruct Ht as [<-|[<-|[<-|[]]]]; auto.
  - intros [[He H]|[[He H]|[He H]]]; (split; [exact He|]).
    + exists kanji_table. simpl. auto.
    + exists readings_table. simpl. auto.
    + exists meanings_table. simpl. auto.
Qed.

(** ** Stripping the rank *)

(** X11: removing [match_type] from a row leaves every other field as it
    was, whatever the row holds: looking up [match_type] afterwards finds
    nothing, and looking up any other key finds what it found before. *)
Theorem strip_removes_only_match_type (o : Obj) (key : string) :
  get key (strip o) =
  if String.eqb key "match_type" then None else get key o.
Proof.
  unfold get, strip. induction o as [|[k v] o IH].
  - cbn [filter find]. now destruct (String.eqb key "match_type").
  - cbn [filter find fst snd].
    destruct (String.eqb_spec k "match_type") as [->|Hk]; cbn [negb].
    + rewrite IH. destruct (String.eqb_spec key "match_type") as [E|Hkey].
      * reflexivity.
      * destruct (String.eqb_spec "match_type" key); [congruence | reflexivity].
    + cbn [find fst snd]. destruct (String.eqb_spec k key) as [E|Hkk].
      * destruct (String.eqb_spec key "match_type"); [congruence | reflexivity].
      * exact IH.
Qed.

(** ** The unranked revision *)

Lemma execute_plain_ok (db : Store) (c : QueryType) (p : Pass)
    (args : list QValue) (rs : list Obj) :
  execute db (Select part_000 c p) args = Ok rs ->
  failure db p = None
  /\ exists params ids,
       where_in db c p params = Ok ids /\ rs = select_plain db ids.
Proof.
  unfold execute, run, plain_rows. destruct (failure db p); [discriminate|].
  destruct (bind_parameters _ args) as [params|]; [|discriminate].
  destruct (where_in db c p params) as [ids|] eqn:E; [|discriminate].
  intros H. inversion H. split; [reflexivity|]. now exists params, ids.
Qed.

Lemma select_plain_In (db : Store) (ids : list Z) (o : Obj) :
  In o (select_plain db ids) ->
  exists e, In e (entries db) /\ In e ids /\ o = entry_columns (e, joined db e).
Proof.
  unfold select_plain, group_by_id. intros H. apply In_firstn in H.
  rewrite map_map in H. apply in_map_iff in H as [e [<- He]].
  apply selected_ids_In in He as [H1 H2]. now exists e.
Qed.

Lemma plain_cases (db : Store) (q : option QValue) (resp : Response) (log : list Event) :
  respond Part000.search db q = (Ok resp, log) ->
  results_of resp = []
  \/ exists c p params rs,
       execute db (Select part_000 c p) params = Ok rs
       /\ results_of resp = map JObj rs.
Proof.
  intros H.
  destruct (falsy q) eqn:Hf.
  { apply falsy_cases in Hf as [-> | ->]; inversion H; subst; now left. }
  destruct q as [v|]; [|discriminate Hf].
  rewrite (plain_unfold_value db v Hf) in H. cbv zeta in H.
  set (c := detectQueryType (to_string v)) in *.
  destruct (execute db (Select part_000 c Primary) _) as [[|r rs]|m] eqn:E1.
  - destruct (execute db (Select part_000 c Fallback) _) as [rs'|m'] eqn:E2;
      apply (f_equal fst) in H; cbn [fst] in H; injection H as <-;
      [|now left].
    right. do 4 eexists. split; [exact E2 | reflexivity].
  - apply (f_equal fst) in H; cbn [fst] in H; injection H as <-.
    right. do 4 eexists. split; [exact E1 | reflexivity].
  - inversion H; subst. now left.
Qed.

(** X12: the unranked handler returns the same kind of list.  Its response
    array holds at most 50 objects, each exactly [{id, kanji, readings,
    meanings}] for an entry of the store, every text field being the
    comma-joined list of the values the entry owns in that table, each
    once, or null when it owns none. *)
Theorem plain_response_objects (db : Store) (q : option QValue) (resp : Response)
    (log : list Event) :
  respond Part000.search db q = (Ok resp, log) ->
  (List.length (results_of resp) <= 50)%nat
  /\ forall o, In o (results_of resp) ->
       exists e kv rv mv,
         o = JObj [("id"%string, JNum e); ("kanji"%string, kv);
                   ("readings"%string, rv); ("meanings"%string, mv)]
         /\ In e (entries db)
         /\ joined_once (field_values db kanji_table e) kv
         /\ joined_once (field_values db readings_table e) rv
         /\ joined_once (field_values db meanings_table e) mv.
Proof.
  intros H.
  destruct (plain_cases db q resp log H) as [E|[c [p [params [rs [Hex E]]]]]];
    rewrite E.
  - split; [simpl; lia | intros o []].
  - split.
    + rewrite length_map. eapply execute_length, Hex.
    + intros o Ho. apply in_map_iff in Ho as [x [<- Hx]].
      apply execute_plain_ok in Hex as [_ [bound [ids [_ ->]]]].
      apply select_plain_In in Hx as [e [He [_ ->]]].
      exists e. do 3 eexists. split; [reflexivity|]. split; [exact He|].
      repeat split; apply GROUP_CONCAT_DISTINCT_spec; intros v.
      * apply (column_values db kanji_table).
      * apply (column_values db readings_table).
      * apply (column_values db meanings_table).
Qed.

Lemma plain_response_objects_witness :
  (List.length (results_of (json
     [ [("id"%string, JNum 1); ("kanji"%string, JNull); ("readings"%string, JNull);
        ("meanings"%string, JStr (codes "to eat"))] ])) <= 50)%nat.
Proof.
  apply (fun H => proj1 (plain_response_objects Sample.word_order
           (Some (QStr (codes "eat"))) _
           [Classified (codes "eat");
            Executed (Select part_000 english Primary)
              (where_args english (contains (codes "eat")))] H)).
  reflexivity.
Defined.

Lemma plain_primary_runs (db : Store) (c : QueryType) (query : text) :
  execute db (Select part_000 c Primary) (where_args c (contains query)) =
  match failure db Primary with
  | Some e => Throw e
  | None =>
      Ok (select_plain db
            (flat_map (fun t => entry_ids_like db t (contains query)) (tables c)))
  end.
Proof.
  rewrite execute_plain. destruct (failure db Primary); [reflexivity|].
  unfold plain_rows. now rewrite where_in_primary.
Qed.

(** X13: the passes of the unranked handler, which searches for the string
    of [q] whatever [q] is.  Without [q], or with an empty one, it answers
    400 with the fixed body and runs nothing.  Otherwise it runs the
    primary statement with [%query%], once per searched table; unless the
    store fails, that statement answers with the first 50 entries owning a
    value that matches; a failure gives 500 with the message and nothing
    more is run; rows are the 200 response as they are; and exactly when
    there is no row, it runs the fallback statement with [query*], whose
    rows, those of entries the index answered with, or whose failure as a
    500, are the response. *)
Theorem plain_passes (db : Store) (v : QValue) :
  falsy (Some v) = false ->
  let query := to_string v in
  let c := detectQueryType query in
  let args w := match c with
                | all => [QStr w; QStr w; QStr w]
                | _ => [QStr w]
                end in
  let primary := Executed (Select part_000 c Primary) (args (37 :: query ++ [37])) in
  let fallback := Executed (Select part_000 c Fallback) (args (query ++ [42])) in
  let first := execute db (Select part_000 c Primary) (args (37 :: query ++ [37])) in
  let second := execute db (Select part_000 c Fallback) (args (query ++ [42])) in
  let answer rs := {| status := 200; body := JArr (map JObj rs) |} in
  let error m :=
    {| status := 500;
       body := JObj [("error"%string, JStr (codes "Database search error"));
                     ("details"%string, JStr m)] |} in
  let missing :=
    {| status := 400;
       body := JObj [("error"%string, JStr (codes "Missing query parameter: q"))] |} in
  respond Part000.search db None = (Ok missing, [])
  /\ respond Part000.search db (Some (QStr [])) = (Ok missing, [])
  /\ (In fallback (snd (respond Part000.search db (Some v))) <-> first = Ok [])
  /\ (forall m, first = Throw m ->
        respond Part000.search db (Some v) =
        (Ok (error m), [Classified query; primary]))
  /\ (forall rs, first = Ok rs -> rs <> [] ->
        respond Part000.search db (Some v) =
        (Ok (answer rs), [Classified query; primary]))
  /\ (first = Ok [] ->
        respond Part000.search db (Some v) =
        (Ok match second with
            | Ok rs => answer rs
            | Throw m => error m
            end,
         [Classified query; primary; fallback]))
  /\ first =
     match failure db Primary with
     | Some e => Throw e
     | None =>
         Ok (LIMIT 50
               (map (fun e => entry_columns (e, joined db e))
                  (selected_ids db
                     (flat_map (fun t => entry_ids_like db t (37 :: query ++ [37]))
                        (tables c)))))
     end
  /\ (forall rs, second = Ok rs ->
        exists ids,
          rs = LIMIT 50 (map (fun e => entry_columns (e, joined db e))
                           (selected_ids db ids))
          /\ forall e, In e ids <->
               exists t, In t (tables c) /\ owns_hit db t (query ++ [42]) e).
Proof.
  intros Hv query c args primary fallback first second answer error missing.
  split; [reflexivity|]. split; [reflexivity|].
  pose proof (plain_unfold_value db v Hv) as U. cbv zeta in U.
  change (Executed (Select part_000 (detectQueryType (to_string v)) Primary)
            (where_args (detectQueryType (to_string v)) (contains (to_string v))))
    with primary in U.
  change (Executed (Select part_000 (detectQueryType (to_string v)) Fallback)
            (where_args (detectQueryType (to_string v)) (prefix (to_string v))))
    with fallback in U.
  change (execute db (Select part_000 (detectQueryType (to_string v)) Primary)
            (where_args (detectQueryType (to_string v)) (contains (to_string v))))
    with first in U.
  change (execute db (Select part_000 (detectQueryType (to_string v)) Fallback)
            (where_args (detectQueryType (to_string v)) (prefix (to_string v))))
    with second in U.
  change (to_string v) with query in U.
  rewrite U. clear U.
  assert (Hdiff : primary <> fallback) by (unfold primary, fallback; congruence).
  assert (Hcls : Classified query <> fallback) by (unfold fallback; congruence).
  split; [split|split; [|split; [|split; [|split]]]].
  - destruct first as [[|r rs]|m]; [reflexivity| |];
      simpl; intros [H|[H|[]]]; congruence.
  - intros H. rewrite H. destruct second; simpl; auto.
  - intros m H. rewrite H. reflexivity.
  - intros rs H Hrs. rewrite H. destruct rs; [congruence | reflexivity].
  - intros H. rewrite H. destruct second; reflexivity.
  - change first with
      (execute db (Select part_000 c Primary) (where_args c (contains query))).
    rewrite plain_primary_runs. unfold select_plain, group_by_id.
    now rewrite map_map.
  - intros rs H.
    change second with
      (execute db (Select part_000 c Fallback) (where_args c (prefix query))) in H.
    rewrite execute_plain in H.
    destruct (failure db Fallback); [discriminate|].
    unfold plain_rows in H.
    destruct (where_in db c Fallback _) as [ids|] eqn:Hw; [|discriminate].
    inversion H. exists ids. split.
    + unfold select_plain, group_by_id. now rewrite map_map.
    + apply (where_in_fallback db c (prefix query) ids Hw).
Qed.

Lemma plain_passes_witness :
  respond Part000.search Sample.two_words (Some (QStr (codes "eat to"))) =
  (Ok {| status := 200;
         body := JArr [JObj [("id"%string, JNum 1); ("kanji"%string, JNull);
                             ("readings"%string, JNull);
                             ("meanings"%string, JStr (codes "to eat"))]] |},
   [Classified (codes "eat to");
    Executed (Select part_000 english Primary) [QStr (codes "%eat to%")];
    Executed (Select part_000 english Fallback) [QStr (codes "eat to*")]]).
Proof.
  apply (proj1 (proj2 (proj2 (proj2 (proj2 (proj2
           (plain_passes Sample.two_words (QStr (codes "eat to")) eq_refl))))))).
  reflexivity.
Defined.

(** ** The application *)

Lemma search_answers (db : Store) (q : option QValue) :
  exists resp log, respond Index2.search db q = (Ok resp, log).
Proof.
  destruct (falsy q) eqn:Hf.
  { rewrite (respond_falsy Index2.search db q (or_introl eq_refl) Hf).
    do 2 eexists; reflexivity. }
  destruct q as [v|]; [|discriminate Hf].
  rewrite (search_unfold_value db v Hf). cbv zeta.
  destruct (execute db _ _) as [[|r rs]|m]; try (do 2 eexists; reflexivity).
  destruct (execute db _ _); do 2 eexists; reflexivity.
Qed.

Lemma plain_answers (db : Store) (q : option QValue) :
  exists resp log, respond Part000.search db q = (Ok resp, log).
Proof.
  destruct (falsy q) eqn:Hf.
  { rewrite (respond_falsy Part000.search db q (or_intror eq_refl) Hf).
    do 2 eexists; reflexivity. }
  destruct q as [v|]; [|discriminate Hf].
  rewrite (plain_unfold_value db v Hf). cbv zeta.
  destruct (execute db _ _) as [[|r rs]|m]; try (do 2 eexists; reflexivity).
  destruct (execute db _ _); do 2 eexists; reflexivity.
Qed.

(** X14: every reply of the application carries the header
    [Access-Control-Allow-Origin: *], whatever the route and the outcome,
    the 400 and 500 of the search and a request no route takes included.
    A request the root route takes is answered 200 with the fixed message,
    nothing being classified or run against the store; one that only the
    search route takes is answered by the search handler on its [q]; one
    that neither takes gets no answer from the application. *)
Theorem cors_on_every_reply (route : string -> Request -> bool) (db : Store)
    (req : Request) :
  exists reply log,
    serve route Index2.search db req = (Ok reply, log)
    /\ header "Access-Control-Allow-Origin" reply = Some (codes "*")
    /\ (route "/"%string req = true -> answer reply = Some running /\ log = [])
    /\ (route "/"%string req = false -> route "/search"%string req = true ->
        exists r, respond Index2.search db (q_param req) = (Ok r, log)
                  /\ answer reply = Some r)
    /\ (route "/"%string req = false -> route "/search"%string req = false ->
        answer reply = None /\ log = []).
Proof.
  unfold serve, app. cbn [dispatch].
  destruct (route "/"%string req) eqn:E1.
  - do 2 eexists. split; [reflexivity|]. split; [reflexivity|].
    split; [auto|]. split; discriminate.
  - destruct (route "/search"%string req) eqn:E2.
    + destruct (search_answers db (q_param req)) as [r [log H]].
      unfold respond in H. unfold bind. rewrite H.
      do 2 eexists. split; [reflexivity|]. split; [reflexivity|].
      split; [discriminate|]. split; [|discriminate].
      intros _ _. exists r. split; [exact H | reflexivity].
    + do 2 eexists. split; [reflexivity|]. split; [reflexivity|].
      split; [discriminate|]. split; [discriminate | auto].
Qed.

(** ** What ranking leaves unchanged, and the ids of a result list *)

Lemma ranked_select_length (db : Store) (c : QueryType) (query : text) (ids : list Z) :
  List.length (ranked_select db c query ids) =
  Nat.min 50 (List.length (selected_ids db ids)).
Proof.
  rewrite ranked_select_eq. unfold LIMIT.
  now rewrite length_firstn, (Permutation_length (ORDER_BY_perm _)), length_map.
Qed.

Lemma select_plain_length (db : Store) (ids : list Z) :
  List.length (select_plain db ids) =
  Nat.min 50 (List.length (selected_ids db ids)).
Proof.
  unfold select_plain, group_by_id, LIMIT.
  now rewrite length_firstn, !length_map.
Qed.

(** One pass of the two revisions, for a query that is a string or a
    one-item array of a string: the same failure, or as many rows. *)
Lemma pass_sizes (db : Store) (c : QueryType) (p : Pass) (v : QValue) :
  (exists query, v = QStr query \/ v = QArr [QStr query]) ->
  match execute db (Select index2 c p) (pass_args p c v),
        execute db (Select part_000 c p)
          (where_args c (where_pattern p (to_string v))) with
  | Throw m1, Throw m2 => m1 = m2
  | Ok rs1, Ok rs2 => List.length rs1 = List.length rs2
  | _, _ => False
  end.
Proof.
  intros [query Hv].
  assert (Hs : to_string v = query) by (destruct Hv as [-> | ->]; reflexivity).
  assert (E : execute db (Select index2 c p) (pass_args p c v) =
              execute db (Select index2 c p) (pass_params p c query)).
  { destruct Hv as [-> | ->]; [reflexivity|]. destruct c, p; reflexivity. }
  rewrite E, Hs, execute_string, execute_plain.
  destruct (failure db p); [reflexivity|].
  unfold run. rewrite ranked_rows_pass. unfold plain_rows.
  destruct (where_in db c p _) as [ids|m]; [|reflexivity].
  now rewrite length_map, ranked_select_length, select_plain_length.
Qed.

(** For any value: when the ranked statement answers, the unranked one
    answers with as many rows, the selected entries up to 50. *)
Lemma pass_sizes_value (db : Store) (c : QueryType) (p : Pass) (v : QValue)
    (rs1 : list Obj) :
  execute db (Select index2 c p) (pass_args p c v) = Ok rs1 ->
  exists rs2 ids,
    execute db (Select part_000 c p)
      (where_args c (where_pattern p (to_string v))) = Ok rs2
    /\ where_in db c p (where_params c (where_pattern p (to_string v))) = Ok ids
    /\ List.length rs1 = Nat.min 50 (List.length (selected_ids db ids))
    /\ List.length rs2 = Nat.min 50 (List.length (selected_ids db ids)).
Proof.
  intros H. apply execute_value_ok in H as [Hf [ids [Hw ->]]].
  rewrite execute_plain, Hf. unfold plain_rows. rewrite Hw.
  exists (select_plain db ids), ids. split; [reflexivity|]. split; [reflexivity|].
  now rewrite length_map, ranked_select_length, select_plain_length.
Qed.

(** X15: ranking changes neither the outcome nor the number of results,
    where the ranked handler can bind [q].  For every store and every [q],
    with or without more than 50 candidates, both handlers answer; when
    the handler of [src/index2.js] answers 200 or 400, the unranked handler
    answers with the same status and an array of the same length; a 200 of
    the ranked handler holds as many results as the WHERE subquery of the
    pass that answered selects entries, up to 50; and when [q] is absent, a
    string, or a one-item array of a string, the two handlers answer with
    the same status and arrays of the same length in every case, and with
    the very same response when it is not a 200. *)
Theorem ranking_keeps_status_and_size (db : Store) (q : option QValue) :
  exists r1 r2,
    fst (respond Index2.search db q) = Ok r1
    /\ fst (respond Part000.search db q) = Ok r2
    /\ (status r1 <> 500 ->
        status r1 = status r2
        /\ List.length (results_of r1) = List.length (results_of r2))
    /\ (status r1 = 200 ->
        exists v p ids,
          q = Some v
          /\ where_in db (detectQueryType (to_string v)) p
               (where_params (detectQueryType (to_string v))
                  match p with
                  | Primary => 37 :: to_string v ++ [37]
                  | Fallback => to_string v ++ [42]
                  end) = Ok ids
          /\ List.length (results_of r1) =
             Nat.min 50 (List.length (selected_ids db ids)))
    /\ ((q = None \/ exists query,
           q = Some (QStr query) \/ q = Some (QArr [QStr query])) ->
        status r1 = status r2
        /\ List.length (results_of r1) = List.length (results_of r2)
        /\ (status r1 <> 200 -> r1 = r2)).
Proof.
  destruct (falsy q) eqn:Hf.
  { rewrite (respond_falsy Index2.search db q (or_introl eq_refl) Hf),
            (respond_falsy Part000.search db q (or_intror eq_refl) Hf).
    exists missing_query, missing_query. repeat split. discriminate. }
  destruct q as [v|]; [|discriminate Hf].
  rewrite (search_unfold_value db v Hf), (plain_unfold_value db v Hf). cbv zeta.
  set (c := detectQueryType (to_string v)).
  assert (Hstr : (Some v = None \/ exists query,
                    Some v = Some (QStr query) \/ Some v = Some (QArr [QStr query])) ->
                 exists query, v = QStr query \/ v = QArr [QStr query]).
  { intros [H|[query [H|H]]]; [discriminate H| |]; injection H as ->; eauto. }
  pose proof (pass_sizes db c Primary v) as P1.
  pose proof (pass_sizes db c Fallback v) as P2.
  pose proof (pass_sizes_value db c Primary v) as V1.
  pose proof (pass_sizes_value db c Fallback v) as V2.
  cbn [pass_args where_pattern] in P1, P2, V1, V2.
  destruct (execute db (Select index2 c Primary) _) as [rs1|m1].
  - destruct (V1 rs1 eq_refl) as [rs2 [ids [E2 [Hw [Hl1 Hl2]]]]].
    rewrite E2 in *. clear V1 P1.
    assert (Hlen : List.length rs1 = List.length rs2)
      by (exact (eq_trans Hl1 (eq_sym Hl2))).
    destruct rs1 as [|r rs1]; destruct rs2 as [|r2 rs2]; try discriminate Hlen.
    + destruct (execute db (Select index2 c Fallback) _) as [fs1|n1].
      * destruct (V2 fs1 eq_refl) as [fs2 [ids' [F2 [Hw' [Hf1 Hf2]]]]]. rewrite F2.
        do 2 eexists. split; [reflexivity|]. split; [reflexivity|].
        assert (Hsz : List.length (results_of (json (map strip fs1))) =
                      List.length (results_of (json fs2)))
          by (unfold results_of; cbn [json body]; rewrite !length_map;
              exact (eq_trans Hf1 (eq_sym Hf2))).
        split; [auto|]. split.
        -- intros _. exists v, Fallback, ids'. split; [reflexivity|].
           split; [exact Hw'|].
           unfold results_of. cbn [json body]. now rewrite !length_map.
        -- intros _. split; [reflexivity|]. split; [exact Hsz|].
           intros H. now contradiction H.
      * destruct (execute db (Select part_000 c Fallback) _) as [fs2|n2].
        -- do 2 eexists. split; [reflexivity|]. split; [reflexivity|].
           split; [intros H; now contradiction H|]. split; [discriminate|].
           intros H. destruct (P2 (Hstr H)).
        -- do 2 eexists. split; [reflexivity|]. split; [reflexivity|].
           split; [intros H; now contradiction H|]. split; [discriminate|].
           intros H. rewrite (P2 (Hstr H)). repeat split.
    + do 2 eexists. split; [reflexivity|]. split; [reflexivity|].
      assert (Hsz : List.length (results_of (json (map strip (r :: rs1)))) =
                    List.length (results_of (json (r2 :: rs2))))
        by (unfold results_of; cbn [json body]; rewrite !length_map;
            exact Hlen).
      split; [auto|]. split.
      * intros _. exists v, Primary, ids. split; [reflexivity|].
        split; [exact Hw|].
        unfold results_of. cbn [json body]. now rewrite !length_map.
      * intros _. split; [reflexivity|]. split; [exact Hsz|].
        intros H. now contradiction H.
  - clear V1.
    destruct (execute db (Select part_000 c Primary) _) as [[|r2 rs2]|m2].
    + destruct (execute db (Select part_000 c Fallback) _) as [fs2|n2];
        do 2 eexists; (split; [reflexivity|]); (split; [reflexivity|]);
        (split; [intros H; now contradiction H|]); (split; [discriminate|]);
        intros H; destruct (P1 (Hstr H)).
    + do 2 eexists. split; [reflexivity|]. split; [reflexivity|].
      split; [intros H; now contradiction H|]. split; [discriminate|].
      intros H. destruct (P1 (Hstr H)).
    + do 2 eexists. split; [reflexivity|]. split; [reflexivity|].
      split; [intros H; now contradiction H|]. split; [discriminate|].
      intros H. rewrite (P1 (Hstr H)). repeat split.
Qed.

Lemma NoDup_firstn {A : Type} (n : nat) (l : list A) : NoDup l -> NoDup (firstn n l).
Proof.
  intros H. rewrite <- (firstn_skipn n l) in H.
  now apply NoDup_app_remove_r in H.
Qed.

Lemma ids_of_ranked_groups (db : Store) (c : QueryType) (query : text) (es : list Z) :
  flat_map (fun v => match v with
                     | JObj o => match id_of o with Some e => [e] | None => [] end
                     | _ => []
                     end)
           (map JObj (map strip (map row (map (ranked_group db c query) es)))) = es.
Proof.
  induction es as [|e es IH]; [reflexivity|].
  cbn [map flat_map]. rewrite IH. reflexivity.
Qed.

(** X16: no entry is listed twice.  The ids of the objects of a response
    are pairwise distinct, whatever the store holds: an entry with several
    matching values, or found through several tables, is still one
    result. *)
Theorem no_entry_listed_twice (db : Store) (q : option QValue) :
  NoDup (returned_ids (respond Index2.search db q)).
Proof.
  destruct (search_answers db q) as [resp [log H]].
  unfold returned_ids. rewrite H. cbn [fst].
  destruct (search_cases db q resp log H)
    as [E|[v [p [ids [_ [_ [_ [_ E]]]]]]]]; rewrite E; [constructor|].
  rewrite ranked_select_eq.
  destruct (Permutation_map_inv _ _
              (ORDER_BY_perm (map (ranked_group db (detectQueryType (to_string v))
                                     (to_string v))
                                  (selected_ids db ids))))
    as [es [Ees Hperm]].
  rewrite Ees. unfold LIMIT. rewrite firstn_map, ids_of_ranked_groups.
  apply NoDup_firstn.
  apply (Permutation_NoDup Hperm), selected_ids_NoDup.
Qed.

(** ** A [q] that is not one string *)

Lemma one_item_shape (n k : nat) (items : list QValue) (l : list text) :
  bind_array n k items = Ok l -> List.length l = 1%nat ->
  exists s, items = [QStr s].
Proof.
  intros H Hl. apply bind_array_strings in H. subst items.
  destruct l as [|x [|y l]]; try discriminate. now exists x.
Qed.

Lemma bindable_once (v : QValue) (rest ps : list text) :
  bind_parameters (S (List.length rest)) (v :: map QStr rest) = Ok ps ->
  exists s, v = QStr s \/ v = QArr [QStr s].
Proof.
  intros H. apply bind_parameters_length in H as [H Hlen].
  destruct v as [x|items|fields]; cbn [bind_arguments bind_value Nat.ltb Nat.leb] in H.
  - exists x. now left.
  - destruct (bind_array _ _ items) as [l|] eqn:E; [|discriminate].
    destruct (bind_arguments _ _ _ (map QStr rest)) as [l'|] eqn:E'; [|discriminate].
    apply bind_arguments_strings_inv in E'. inversion H; subst ps l'.
    rewrite length_app in Hlen.
    destruct (one_item_shape _ _ items l E) as [s ->]; [lia|].
    exists s. now right.
  - apply bind_arguments_strings_inv in H. subst ps. lia.
Qed.

Lemma bindable_thrice (v : QValue) (rest ps : list text) :
  bind_parameters (3 + List.length rest) (v :: v :: v :: map QStr rest) = Ok ps ->
  exists s, v = QStr s \/ v = QArr [QStr s].
Proof.
  intros H. apply bind_parameters_length in H as [H Hlen].
  destruct v as [x|items|fields];
    cbn [bind_arguments bind_value Nat.ltb Nat.leb Nat.add] in H.
  - exists x. now left.
  - destruct (bind_array _ 0 items) as [l1|] eqn:E1; [|discriminate].
    destruct (bind_array _ _ items) as [l2|] eqn:E2 in H; [|discriminate].
    destruct (bind_array _ _ items) as [l3|] eqn:E3 in H; [|discriminate].
    destruct (bind_arguments _ _ _ (map QStr rest)) as [l'|] eqn:E'; [|discriminate].
    apply bind_arguments_strings_inv in E'. inversion H; subst ps l'.
    pose proof (bind_array_strings _ _ _ _ E1) as I1.
    pose proof (bind_array_strings _ _ _ _ E2) as I2.
    pose proof (bind_array_strings _ _ _ _ E3) as I3.
    assert (l2 = l1) by (apply strings_injective; congruence).
    assert (l3 = l1) by (apply strings_injective; congruence).
    subst l2 l3. rewrite !length_app in Hlen.
    destruct (one_item_shape _ _ items l1 E1) as [s ->]; [lia|].
    exists s. now right.
  - discriminate H.
Qed.

Lemma execute_bindable (db : Store) (c : QueryType) (p : Pass) (v : QValue)
    (rs : list Obj) :
  execute db (Select index2 c p) (pass_args p c v) = Ok rs ->
  exists s, v = QStr s \/ v = QArr [QStr s].
Proof.
  unfold execute. destruct (failure db p); [discriminate|].
  destruct (bind_parameters _ _) as [ps|] eqn:E; [|discriminate].
  intros _.
  destruct c, p;
    first [ apply (bindable_once v [_; _] ps E)
          | apply (bindable_thrice v [_; _; _; _; _; _; _; _] ps E) ].
Qed.

(** X17: the handler of [src/index2.js] serves one string only.  A [q]
    that is neither a string nor a one-item array of a string (a [q] given
    twice or more, an empty or a nested array, an object) is answered 500,
    whatever the store holds: the first statement throws, on the store's
    failure or on the binding of the raw value, its message is the details
    of the response, and nothing else is run. *)
Theorem unbindable_q_is_rejected (db : Store) (v : QValue) :
  (forall s, v <> QStr s /\ v <> QArr [QStr s]) ->
  let c := detectQueryType (to_string v) in
  let like_query := QStr (37 :: to_string v ++ [37]) in
  let args :=
    match c with
    | all => [v; v; v; like_query; like_query; like_query;
              like_query; like_query; like_query; like_query; like_query]
    | _ => [v; like_query; like_query]
    end in
  exists m,
    execute db (Select index2 c Primary) args = Throw m
    /\ respond Index2.search db (Some v) =
       (Ok {| status := 500;
              body := JObj [("error"%string, JStr (codes "Database search error"));
                            ("details"%string, JStr m)] |},
        [Classified (to_string v); Executed (Select index2 c Primary) args]).
Proof.
  intros Hv c like_query args.
  assert (Hf : falsy (Some v) = false).
  { destruct v as [[|ch s]|items|fields]; try reflexivity.
    now destruct (Hv []) as [H _]. }
  pose proof (search_unfold_value db v Hf) as U. cbv zeta in U.
  change (primary_args (detectQueryType (to_string v)) v) with args in U.
  fold c in U. rewrite U. clear U.
  destruct (execute db (Select index2 c Primary) args) as [rs|m] eqn:E.
  - exfalso.
    change args with (pass_args Primary c v) in E.
    apply execute_bindable in E as [s H].
    destruct (Hv s) as [H1 H2]. destruct H; contradiction.
  - exists m. split; reflexivity.
Qed.

Lemma unbindable_q_is_rejected_witness :
  exists m,
    execute Sample.proverb (Select index2 all Primary)
      [QArr [QStr (codes "eat"); QStr (codes " drink")];
       QArr [QStr (codes "eat"); QStr (codes " drink")];
       QArr [QStr (codes "eat"); QStr (codes " drink")];
       QStr (codes "%eat, drink%"); QStr (codes "%eat, drink%");
       QStr (codes "%eat, drink%"); QStr (codes "%eat, drink%");
       QStr (codes "%eat, drink%"); QStr (codes "%eat, drink%");
       QStr (codes "%eat, drink%"); QStr (codes "%eat, drink%")] = Throw m
    /\ respond Index2.search Sample.proverb
         (Some (QArr [QStr (codes "eat"); QStr (codes " drink")])) =
       (Ok {| status := 500;
              body := JObj [("error"%string, JStr (codes "Database search error"));
                            ("details"%string, JStr m)] |},
        [Classified (codes "eat, drink");
         Executed (Select index2 all Primary)
           [QArr [QStr (codes "eat"); QStr (codes " drink")];
            QArr [QStr (codes "eat"); QStr (codes " drink")];
            QArr [QStr (codes "eat"); QStr (codes " drink")];
            QStr (codes "%eat, drink%"); QStr (codes "%eat, drink%");
            QStr (codes "%eat, drink%"); QStr (codes "%eat, drink%");
            QStr (codes "%eat, drink%"); QStr (codes "%eat, drink%");
            QStr (codes "%eat, drink%"); QStr (codes "%eat, drink%")]]).
Proof.
  apply (unbindable_q_is_rejected Sample.proverb
           (QArr [QStr (codes "eat"); QStr (codes " drink")])).
  intros s. split; discriminate.
Defined.

(** ** A repeated [q] and a bracketed [q] *)

Lemma bind_array_of_strings (n k : nat) (l : list text) :
  (k <= n)%nat ->
  bind_array n k (map QStr l) =
  if (k + List.length l <=? n)%nat then Ok l else Throw too_many.
Proof.
  revert k. induction l as [|x l IH]; intros k Hk; simpl.
  - rewrite (proj2 (Nat.leb_le (k + 0) n)) by lia. reflexivity.
  - destruct (Nat.ltb_spec k n) as [Hlt|Hge].
    + rewrite (IH (S k)) by lia.
      replace (k + S (List.length l))%nat with (S k + List.length l)%nat by lia.
      destruct (S k + List.length l <=? n)%nat; reflexivity.
    + rewrite (proj2 (Nat.leb_gt (k + S (List.length l)) n)) by lia. reflexivity.
Qed.

Lemma bind_arguments_of_strings (n k : nat) (named : bool) (l : list text) :
  (k <= n)%nat ->
  bind_arguments n k named (map QStr l) =
  if (k + List.length l <=? n)%nat then Ok l else Throw too_many.
Proof.
  revert k. induction l as [|x l IH]; intros k Hk; simpl.
  - rewrite (proj2 (Nat.leb_le (k + 0) n)) by lia. reflexivity.
  - destruct (Nat.ltb_spec k n) as [Hlt|Hge].
    + rewrite (IH (S k)) by lia.
      replace (k + S (List.length l))%nat with (S k + List.length l)%nat by lia.
      destruct (S k + List.length l <=? n)%nat; reflexivity.
    + rewrite (proj2 (Nat.leb_gt (k + S (List.length l)) n)) by lia. reflexivity.
Qed.

(** Arrays of strings followed by strings: all of them are bound, or there
    are too many. *)
Lemma bind_arguments_of_arrays (n k : nat) (named : bool)
    (arrays : list (list text)) (rest : list text) :
  (k <= n)%nat ->
  bind_arguments n k named
    (map (fun l => QArr (map QStr l)) arrays ++ map QStr rest) =
  if (k + List.length (List.concat arrays) + List.length rest <=? n)%nat
  then Ok (List.concat arrays ++ rest) else Throw too_many.
Proof.
  revert k. induction arrays as [|l arrays IH]; intros k Hk.
  - simpl. rewrite Nat.add_0_r. now apply bind_arguments_of_strings.
  - cbn [map List.concat]. rewrite <- app_comm_cons. cbn [bind_arguments].
    rewrite bind_array_of_strings by exact Hk.
    rewrite length_app.
    destruct (Nat.leb_spec (k + List.length l) n) as [Hl|Hl].
    + rewrite IH by exact Hl.
      replace (k + (List.length l + List.length (List.concat arrays)) + List.length rest)%nat
        with (k + List.length l + List.length (List.concat arrays) + List.length rest)%nat
        by lia.
      destruct (_ <=? n)%nat; [|reflexivity]. now rewrite app_assoc.
    + rewrite (proj2 (Nat.leb_gt _ n)) by lia. reflexivity.
Qed.

Lemma to_string_strings (items : list text) :
  to_string (QArr (map QStr items)) = join [44] items.
Proof. cbn [to_string]. rewrite map_map. cbn [to_string]. now rewrite map_id. Qed.

(** The primary statement of the ranked handler on an array of two or
    more strings. *)
Lemma execute_repeated (db : Store) (c : QueryType) (items : list text) (w : text) :
  (2 <= List.length items)%nat ->
  failure db Primary = None ->
  execute db (Select index2 c Primary)
    match c with
    | all => [QArr (map QStr items); QArr (map QStr items); QArr (map QStr items);
              QStr w; QStr w; QStr w; QStr w; QStr w; QStr w; QStr w; QStr w]
    | _ => [QArr (map QStr items); QStr w; QStr w]
    end = Throw too_many.
Proof.
  intros Hlen Hf. unfold execute. rewrite Hf.
  assert (One : bind_parameters 3 [QArr (map QStr items); QStr w; QStr w] =
                Throw too_many).
  { change [QArr (map QStr items); QStr w; QStr w]
      with (map (fun l => QArr (map QStr l)) [items] ++ map QStr [w; w]).
    unfold bind_parameters. rewrite bind_arguments_of_arrays by lia.
    cbn [List.concat List.length]. rewrite app_nil_r.
    rewrite (proj2 (Nat.leb_gt _ _)) by lia. reflexivity. }
  destruct c; cbn [parameter_count]; try (rewrite One; reflexivity).
  change [QArr (map QStr items); QArr (map QStr items); QArr (map QStr items);
          QStr w; QStr w; QStr w; QStr w; QStr w; QStr w; QStr w; QStr w]
    with (map (fun l => QArr (map QStr l)) [items; items; items]
          ++ map QStr [w; w; w; w; w; w; w; w]).
  unfold bind_parameters. rewrite bind_arguments_of_arrays by lia.
  cbn [List.concat]. rewrite app_nil_r, !length_app.
  rewrite (proj2 (Nat.leb_gt _ _)) by (simpl; lia). reflexivity.
Qed.

(** X18: a [q] given twice or more.  Express hands the handler the array of
    the values; the handler of [src/index2.js] classifies their comma-joined
    string and passes the array itself to the primary statement, where the
    driver spreads it over as many parameters as it has items.  Unless the
    store fails first, the answer is 500 with the driver's message that too
    many parameter values were provided, and nothing else is run. *)
Theorem repeated_q_is_too_many (db : Store) (items : list text) :
  (2 <= List.length items)%nat ->
  failure db Primary = None ->
  let v := QArr (map QStr items) in
  let c := detectQueryType (join [44] items) in
  let like_query := QStr (37 :: join [44] items ++ [37]) in
  respond Index2.search db (Some v) =
  (Ok {| status := 500;
         body := JObj [("error"%string, JStr (codes "Database search error"));
                       ("details"%string,
                        JStr (codes "Too many parameter values were provided"))] |},
   [Classified (join [44] items);
    Executed (Select index2 c Primary)
      match c with
      | all => [v; v; v; like_query; like_query; like_query;
                like_query; like_query; like_query; like_query; like_query]
      | _ => [v; like_query; like_query]
      end]).
Proof.
  intros Hlen Hf v c like_query.
  pose proof (search_unfold_value db v eq_refl) as U. cbv zeta in U.
  unfold primary_args, fallback_args, percent, star in U.
  unfold v in U. rewrite !to_string_strings in U. fold c in U.
  rewrite (execute_repeated db c items (contains (join [44] items)) Hlen Hf) in U.
  exact U.
Qed.

Lemma repeated_q_is_too_many_witness :
  respond Index2.search Sample.eating
    (Some (QArr [QStr Sample.shoku; QStr Sample.shoku])) =
  (Ok {| status := 500;
         body := JObj [("error"%string, JStr (codes "Database search error"));
                       ("details"%string,
                        JStr (codes "Too many parameter values were provided"))] |},
   [Classified (Sample.shoku ++ [44] ++ Sample.shoku);
    Executed (Select index2 kanji Primary)
      [QArr [QStr Sample.shoku; QStr Sample.shoku];
       QStr (37 :: Sample.shoku ++ [44] ++ Sample.shoku ++ [37]);
       QStr (37 :: Sample.shoku ++ [44] ++ Sample.shoku ++ [37])]]).
Proof.
  apply (repeated_q_is_too_many Sample.eating [Sample.shoku; Sample.shoku]).
  - simpl. lia.
  - reflexivity.
Defined.

(** X19: a bracketed [q] ([?q[a]=b]) reaches the handler as an object, whose
    string is [[object Object]] whatever it holds.  The query is classified
    Mixed; the handler of [src/index2.js] passes the object three times to
    the primary statement and, unless the store fails first, answers 500
    with the driver's message about named parameters in two objects; the
    unranked handler searches the three tables for [%[object Object]%]. *)
Theorem bracketed_q_is_an_object (db : Store) (fields : list (text * QValue)) :
  let v := QObj fields in
  let like_query := QStr (codes "%[object Object]%") in
  detectQueryType (to_string v) = all
  /\ (failure db Primary = None ->
      respond Index2.search db (Some v) =
      (Ok {| status := 500;
             body := JObj [("error"%string, JStr (codes "Database search error"));
                           ("details"%string,
                            JStr (codes "You cannot specify named parameters in two different objects"))] |},
       [Classified (codes "[object Object]");
        Executed (Select index2 all Primary)
          [v; v; v; like_query; like_query; like_query;
           like_query; like_query; like_query; like_query; like_query]]))
  /\ exists rest,
       snd (respond Part000.search db (Some v)) =
       Classified (codes "[object Object]")
       :: Executed (Select part_000 all Primary) [like_query; like_query; like_query]
       :: rest.
Proof.
  intros v like_query. split; [reflexivity|]. split.
  - intros Hf.
    rewrite (search_unfold_value db v eq_refl). cbv zeta.
    change (detectQueryType (to_string v)) with all.
    unfold execute at 1. rewrite Hf. reflexivity.
  - rewrite (plain_unfold_value db v eq_refl). cbv zeta.
    change (detectQueryType (to_string v)) with all.
    destruct (execute db (Select part_000 all Primary) _) as [[|r rs]|m];
      [|eexists; reflexivity|eexists; reflexivity].
    destruct (execute db (Select part_000 all Fallback) _);
      eexists; reflexivity.
Qed.
